(** * BAX algorithms: a shallow embedding of [bax/alg/algorithms.py]

    The Python module defines a pull-based execution protocol
    ([Algorithm.run_algorithm_on_f] with [get_next_x] and
    [get_output_from_exe_path]) and several variants; the largest one is
    [Dijkstras], a lazy-deletion uniform-cost search whose edge costs are
    obtained from a caller-supplied evaluator that queries the oracle.

    Conventions of the embedding.
    - Python numbers used as costs are exact integers ([Z]); [float("inf")]
      is the extra constructor [Inf] of [ecost].
    - The oracle and the edge-cost evaluator may be stochastic: they thread
      an abstract world state [W] (random generators and the like).
    - A Python exception is a value [Raise e] of [outcome]; loops are step
      functions on a state record, iterated [n] times by [iter_steps]. *)

From Stdlib Require Import ZArith Lia QArith Qround Qminmax PrimFloat.
From stdpp Require Import base tactics option list numbers strings.

Local Open Scope Z_scope.
Local Open Scope nat_scope.

(** ** Exceptions and results *)

Inductive exn : Type :=
  | AssertionError
  | IndexError
  | TypeError
  | AttributeError
  | ValueError
  | RuntimeError (msg : string).

Inductive outcome (A : Type) : Type :=
  | Return (a : A)
  | Raise (e : exn).
Arguments Return {A} a.
Arguments Raise {A} e.

(** [iter_steps n step s]: the state after [n] steps of a loop. *)
Fixpoint iter_steps {S : Type} (n : nat) (step : S → S) (s : S) : S :=
  match n with
  | O => s
  | Datatypes.S n' => iter_steps n' step (step s)
  end.

(** ** Execution path: [Namespace(x=[], y=[])] *)

Record exe_path (X Y : Type) : Type := Namespace {
  path_x : list X;   (* exe_path.x *)
  path_y : list Y    (* exe_path.y *)
}.
Arguments Namespace {X Y} path_x path_y.
Arguments path_x {X Y} e.
Arguments path_y {X Y} e.

Definition empty_path {X Y : Type} : exe_path X Y := Namespace [] [].

(** [exe_path.x.append(x); exe_path.y.append(y)] *)
Definition append_pair {X Y : Type} (e : exe_path X Y) (x : X) (y : Y)
  : exe_path X Y :=
  Namespace (path_x e ++ [x]) (path_y e ++ [y]).

(** [exe_path.x.extend(xs); exe_path.y.extend(ys)] *)
Definition extend_path {X Y : Type} (e : exe_path X Y) (xs : list X)
  (ys : list Y) : exe_path X Y :=
  Namespace (path_x e ++ xs) (path_y e ++ ys).

(** ** The algorithm protocol (class [Algorithm]) *)

(** The two operations a variant supplies; [P] is the type of its
    [self.params], [O] the type of its output. The completion sentinel
    [None] of [get_next_x] is [Return None]. *)
Class Algorithm (X Y P O : Type) : Type := {
  get_next_x : P → exe_path X Y → outcome (option X);
  get_output_from_exe_path : P → exe_path X Y → outcome O
}.

(** [Algorithm.get_next_x] (lines 62-72), reading [self.params.x_path]. *)
Definition Algorithm_get_next_x {X Y : Type} (x_path : list X)
  (e : exe_path X Y) : outcome (option X) :=
  let len_path := length (path_x e) in
  if decide (len_path = length x_path) then Return None
  else match x_path !! len_path with
       | Some next_x => Return (Some next_x)
       | None => Raise IndexError
       end.

Inductive pull_control (R : Type) : Type :=
  | Pulling                       (* at the head of the while loop *)
  | PullFinished (r : outcome R). (* returned or raised *)
Arguments Pulling {R}.
Arguments PullFinished {R} r.

Record pull_state (X Y W P O : Type) : Type := PullState {
  pull_params : P;               (* self.params *)
  pull_exe : exe_path X Y;       (* exe_path *)
  pull_world : W;
  pull_ctl : pull_control (exe_path X Y * O)
}.
Arguments PullState {X Y W P O} _ _ _ _.
Arguments pull_params {X Y W P O} _.
Arguments pull_exe {X Y W P O} _.
Arguments pull_world {X Y W P O} _.
Arguments pull_ctl {X Y W P O} _.

Section PullLoop.
Context {X Y W P O : Type} `{!Algorithm X Y P O}.
(** The oracle [f]; it may read and change the world. *)
Variable f : X → W → Y * W.

(** One evaluation of [x = self.get_next_x(exe_path)] followed by the
    loop test and either the loop body or the code after the loop
    (lines 51-60). *)
Definition pull_step (s : pull_state X Y W P O) : pull_state X Y W P O :=
  match pull_ctl s with
  | PullFinished _ => s
  | Pulling =>
      match get_next_x (pull_params s) (pull_exe s) with
      | Raise e =>
          PullState (pull_params s) (pull_exe s) (pull_world s)
            (PullFinished (Raise e))
      | Return None =>
          match get_output_from_exe_path (pull_params s) (pull_exe s) with
          | Raise e =>
              PullState (pull_params s) (pull_exe s) (pull_world s)
                (PullFinished (Raise e))
          | Return output =>
              PullState (pull_params s) (pull_exe s) (pull_world s)
                (PullFinished (Return (pull_exe s, output)))
          end
      | Return (Some x) =>
          let '(y, w') := f x (pull_world s) in
          PullState (pull_params s) (append_pair (pull_exe s) x y) w'
            Pulling
      end
  end.

Definition pull_init (params : P) (w : W) : pull_state X Y W P O :=
  PullState params empty_path w Pulling.

(** [Algorithm.run_algorithm_on_f] after [n] loop steps. *)
Definition Algorithm_run_algorithm_on_f (n : nat) (params : P) (w : W)
  : pull_state X Y W P O :=
  iter_steps n pull_step (pull_init params w).

(** The pull loop as the specification words it: ask for the next
    query on the trace so far, stop on the sentinel, otherwise query the
    oracle, append the pair and go on; at the end derive the output. *)
Inductive pull_loop_spec (params : P)
  : exe_path X Y → W → outcome (exe_path X Y * O) → W → Prop :=
  | pull_spec_done e w output :
      get_next_x params e = Return None →
      get_output_from_exe_path params e = Return output →
      pull_loop_spec params e w (Return (e, output)) w
  | pull_spec_output_fails e w err :
      get_next_x params e = Return None →
      get_output_from_exe_path params e = Raise err →
      pull_loop_spec params e w (Raise err) w
  | pull_spec_next_fails e w err :
      get_next_x params e = Raise err →
      pull_loop_spec params e w (Raise err) w
  | pull_spec_query e w x y w' r w'' :
      get_next_x params e = Return (Some x) →
      f x w = (y, w') →
      pull_loop_spec params (append_pair e x y) w' r w'' →
      pull_loop_spec params e w r w''.
End PullLoop.

(** ** Scan variants *)

Record LinearScan_params (X : Type) : Type := LinearScanParams {
  ls_name : string;
  ls_x_path : list X
}.
Arguments LinearScanParams {X} _ _.
Arguments ls_name {X} _.
Arguments ls_x_path {X} _.

(** [LinearScan.set_params]: [getattr] with defaults. *)
Definition LinearScan_set_params {X : Type} (name : option string)
  (x_path : option (list X)) : LinearScan_params X :=
  LinearScanParams (default "LinearScan"%string name) (default [] x_path).

#[export] Instance LinearScan {X Y : Type}
  : Algorithm X Y (LinearScan_params X) (list Y) := {
  get_next_x p e := Algorithm_get_next_x (ls_x_path p) e;
  get_output_from_exe_path _ e := Return (path_y e)
}.

(** *** [AverageOutputs] and [SortOutputs]

    Both scan [x_path] like [LinearScan]; the output is [np.mean] or
    [np.argsort] of the recorded outputs, functions of numpy that are
    parameters here. *)

#[export] Instance AverageOutputs {X Y M : Type} (np_mean : list Y → M)
  : Algorithm X Y (LinearScan_params X) M := {
  get_next_x p e := Algorithm_get_next_x (ls_x_path p) e;
  get_output_from_exe_path _ e := Return (np_mean (path_y e))
}.

#[export] Instance SortOutputs {X Y : Type} (np_argsort : list Y → list nat)
  : Algorithm X Y (LinearScan_params X) (list nat) := {
  get_next_x p e := Algorithm_get_next_x (ls_x_path p) e;
  get_output_from_exe_path _ e := Return (np_argsort (path_y e))
}.

(** *** [OptRightScan]

    Inputs are one-element lists [[x]] of Python numbers, outputs are
    numbers. The variant does arithmetic on them with [+], [>] and
    [np.min], and [set_params] has three float literals; what these do
    depends on the numbers the caller passes (floats by default, but
    also integers or fractions). They form the interface [PyNumber]; its
    instances below are binary64 floats and exact rationals. *)

Class PyNumber (F : Type) : Type := {
  py_add : F → F → F;       (* a + b *)
  py_gt : F → F → bool;     (* a > b *)
  np_minimum : F → F → F;   (* the binary operation np.min reduces with *)
  float_4_0 : F;            (* the literal 4.0 *)
  float_0_1 : F;            (* the literal 0.1 *)
  float_0_2 : F             (* the literal 0.2 *)
}.

(** Python's [float]: IEEE 754 binary64 with round-to-nearest-even.
    [a > b] is false when either side is NaN, and [np.minimum] returns
    NaN when either side is NaN. *)
#[export] Instance float_number : PyNumber float := {
  py_add a b := PrimFloat.add a b;
  py_gt a b := PrimFloat.ltb b a;
  np_minimum a b :=
    if PrimFloat.is_nan a then a
    else if PrimFloat.is_nan b then b
    else if PrimFloat.ltb b a then b else a;
  float_4_0 := 4%float;
  float_0_1 := 0x1.999999999999ap-4%float;
  float_0_2 := 0x1.999999999999ap-3%float
}.

(** Exact rationals, as [fractions.Fraction] computes: results are kept
    in lowest terms. *)
#[export] Instance Q_number : PyNumber Q := {
  py_add a b := Qred (a + b);
  py_gt a b := negb (Qle_bool a b);
  np_minimum := Qmin;
  float_4_0 := 4%Q;
  float_0_1 := (1 # 10)%Q;
  float_0_2 := (2 # 10)%Q
}.

Record OptRightScan_params (F : Type) : Type := OptRightScanParams {
  ors_name : string;
  ors_init_x : list F;
  ors_x_grid_gap : F;
  ors_conv_thresh : F;
  ors_max_iter : Z
}.
Arguments OptRightScanParams {F} _ _ _ _ _.
Arguments ors_name {F} _.
Arguments ors_init_x {F} _.
Arguments ors_x_grid_gap {F} _.
Arguments ors_conv_thresh {F} _.
Arguments ors_max_iter {F} _.

(** [OptRightScan.set_params] *)
Definition OptRightScan_set_params {F : Type} `{!PyNumber F}
  (name : option string) (init_x : option (list F))
  (x_grid_gap conv_thresh : option F) (max_iter : option Z)
  : OptRightScan_params F :=
  OptRightScanParams (default "OptRightScan"%string name)
    (default [float_4_0] init_x) (default float_0_1 x_grid_gap)
    (default float_0_2 conv_thresh) (default 100%Z max_iter).

(** [np.min] of a flat list; [None] for the [ValueError] on an empty
    one. *)
Definition np_min_flat {F : Type} `{!PyNumber F} (l : list F) : option F :=
  match l with
  | [] => None
  | a :: r => Some (foldl np_minimum a r)
  end.

(** [OptRightScan.get_next_x]: step right by [x_grid_gap] from the last
    input; stop when the last output exceeds the least earlier output
    plus [conv_thresh], or after [max_iter] steps. *)
Definition OptRightScan_get_next_x {F : Type} `{!PyNumber F}
  (p : OptRightScan_params F) (e : exe_path (list F) F)
  : outcome (option (list F)) :=
  let len_path := length (path_x e) in
  let first :=
    if bool_decide (len_path = 0) then Return (Some (ors_init_x p))
    else match last (path_x e) with
         | Some (x0 :: _) => Return (Some [py_add x0 (ors_x_grid_gap p)])
         | _ => Raise IndexError   (* exe_path.x[-1][0] *)
         end in
  match first with
  | Raise err => Raise err
  | Return next_x =>
      let second :=
        if bool_decide (2 ≤ len_path) then
          match np_min_flat (removelast (path_y e)) with
          | None => Raise ValueError   (* np.min of an empty slice *)
          | Some m =>
              match last (path_y e) with
              | None => Raise IndexError
              | Some y_last =>
                  let conv_max_val := py_add m (ors_conv_thresh p) in
                  if py_gt y_last conv_max_val then Return None
                  else Return next_x
              end
          end
        else Return next_x in
      match second with
      | Raise err => Raise err
      | Return next_x =>
          if bool_decide (ors_max_iter p < Z.of_nat len_path)%Z
          then Return None
          else Return next_x
      end
  end.

#[export] Instance OptRightScan {F : Type} `{!PyNumber F}
  : Algorithm (list F) F (OptRightScan_params F) (list F) := {
  get_next_x := OptRightScan_get_next_x;
  get_output_from_exe_path _ e :=
    match last (path_x e) with
    | Some x => Return x
    | None => Raise IndexError   (* exe_path.x[-1] *)
    end
}.

(** *** [LinearScanRandGap]

    Grid points are exact rationals here; [np.ceil], [np.min], [np.max]
    and [np.linspace] are computed exactly. The random generator is part
    of the world: [np_random_randint low high] draws from it. *)

Record RandGap_params : Type := RandGapParams {
  rg_name : string;
  rg_x_path : list (list Q);
  rg_x_path_orig : list (list Q)
}.

(** [LinearScanRandGap.set_params]: the [LinearScan] fields, then the
    name and [x_path_orig = copy.deepcopy(self.params.x_path)]. *)
Definition LinearScanRandGap_set_params (name : option string)
  (x_path : option (list (list Q))) : RandGap_params :=
  let super := LinearScan_set_params name x_path in
  RandGapParams (default "LinearScanRandGap"%string name)
    (ls_x_path super) (ls_x_path super).

#[export] Instance LinearScanRandGap {Y : Type}
  : Algorithm (list Q) Y RandGap_params (list Y) := {
  get_next_x p e := Algorithm_get_next_x (rg_x_path p) e;
  get_output_from_exe_path _ e := Return (path_y e)
}.

Definition np_ceil (q : Q) : Z := Qceiling q.

(** [np.min] and [np.max] first turn the nested list into an array: rows
    of different lengths have no array shape and raise [ValueError]. On
    an array they range over all entries, and an array without entries
    raises [ValueError] too. [None] stands for the exception. *)
Definition rectangular (l : list (list Q)) : bool :=
  match l with
  | [] => true
  | row :: rest =>
      forallb (λ row', bool_decide (length row' = length row)) rest
  end.

Definition np_min (l : list (list Q)) : option Q :=
  if rectangular l then
    match concat l with
    | [] => None
    | a :: r => Some (foldl Qmin a r)
    end
  else None.

Definition np_max (l : list (list Q)) : option Q :=
  if rectangular l then
    match concat l with
    | [] => None
    | a :: r => Some (foldl Qmax a r)
    end
  else None.

(** [np.linspace(lo, hi, n)]: [n] evenly spaced points from [lo] to [hi]. *)
Definition np_linspace (lo hi : Q) (n : nat) : list Q :=
  match n with
  | 0 => []
  | 1 => [lo]
  | _ =>
      (λ k : nat,
         Qred (lo + inject_Z (Z.of_nat k) * (hi - lo)
                    / inject_Z (Z.of_nat (n - 1))))
        <$> seq 0 n
  end.

Section RandGap.
Context {Y W : Type}.
Variable f : list Q → W → Y * W.
(** [np.random.randint(low, high)] for [low < high]. *)
Variable np_random_randint : Z → Z → W → Z * W.

(** [LinearScanRandGap.run_algorithm_on_f] (lines 130-146): draw a grid
    size, rebuild [self.params.x_path] from [x_path_orig], then run the
    pull loop of the base class for [n] steps. [randint] raises
    [ValueError] when [low >= high]. *)
Definition LinearScanRandGap_run_algorithm_on_f (n : nat)
  (params : RandGap_params) (w : W)
  : pull_state (list Q) Y W RandGap_params (list Y) :=
  let x_path := rg_x_path_orig params in
  let n_grid := inject_Z (Z.of_nat (length x_path)) in
  let rand_factor := (2 # 10)%Q in
  let min_gap := np_ceil ((1 - rand_factor) * n_grid)%Q in
  let max_gap := np_ceil ((1 + rand_factor) * n_grid)%Q in
  if bool_decide (min_gap < max_gap)%Z then
    let '(new_n_grid, w1) := np_random_randint min_gap max_gap w in
    match np_min x_path, np_max x_path with
    | Some min_x_path, Some max_x_path =>
        let new_x_path :=
          (λ x, [x]) <$>
            np_linspace min_x_path max_x_path (Z.to_nat new_n_grid) in
        Algorithm_run_algorithm_on_f f n
          (RandGapParams (rg_name params) new_x_path
             (rg_x_path_orig params)) w1
    | _, _ =>
        PullState params empty_path w1 (PullFinished (Raise ValueError))
    end
  else PullState params empty_path w (PullFinished (Raise ValueError)).
End RandGap.

(** *** [Noop]

    The debugging variant: it reseeds, draws a waiting time and a random
    number, sleeps, and returns an empty trace with output 0. Drawing
    and sleeping act on the world only. *)

Section Noop.
Context {X Y W P : Type}.
Variable np_random_seed : W → W.
Variable random_randint : Z → Z → W → Z * W.
Variable np_random_rand : W → W.
Variable time_sleep : Z → W → W.

(** [Noop.run_algorithm_on_f]; the first component is [self.params]
    after the call. *)
Definition Noop_run_algorithm_on_f (params : P) (w : W)
  : P * outcome (exe_path X Y * Z) * W :=
  let w0 := np_random_seed w in
  let output := 0%Z in
  let exe_path := empty_path in
  let '(wait_time, w1) := random_randint 1%Z 5%Z w0 in
  let w2 := np_random_rand w1 in
  let w3 := time_sleep wait_time w2 in
  (params, Return (exe_path, output), w3).
End Noop.

(** ** The graph collaborator *)

(** A [Vertex] object is referred to by its identity [ref]; the object
    store [obj : ref → Vertex] is fixed during a run. *)
Definition ref : Type := nat.

Record Vertex : Type := MkVertex {
  index : nat;            (* vertex.index *)
  neighbors : list ref    (* vertex.neighbors *)
}.

(** Modelled from the spec: [backtrack_indices] of [bax/util/graph.py],
    which is not among the sources. The spec describes it as the helper
    that converts a terminal index plus a predecessor map into the index
    sequence from start to terminal, following predecessor links from the
    terminal backwards and reversing. [path] accumulates the indices seen
    so far, terminal first, each appended at the end. The result is
    [None] when [fuel] links were followed without reaching a vertex that
    has no predecessor. *)
Fixpoint backtrack_loop (fuel : nat) (current : nat)
  (prev : list (option nat)) (path : list nat)
  : option (outcome (list nat)) :=
  match fuel with
  | O => None
  | S fuel' =>
      match prev !! current with
      | None => Some (Raise IndexError)
      | Some None => Some (Return (reverse (path ++ [current])))
      | Some (Some p) => backtrack_loop fuel' p prev (path ++ [current])
      end
  end.

(** A chain of predecessor links that does not end within
    [length prev + 1] links repeats an index, hence never ends. *)
Definition backtrack_indices (current : nat) (prev : list (option nat))
  : option (outcome (list nat)) :=
  backtrack_loop (S (length prev)) current prev [].

(** ** The priority queue: [heapq] on a list of [(cost, vertex)] tuples *)

(** [heapq] is Python's library; the search uses it through the list
    literal [[(0, start)]], [heappush], [heappop] and the [len] test of
    the while loop. Its contract: the items form a multiset, and
    [heappop] removes an item that no other item is smaller than. Tuples
    compare by cost first; which of several entries of equal cost is
    popped depends on the comparison of [Vertex] objects (taken to be
    defined: [Vertex] is the collaborator's class) and on the heap
    layout, and is left open here. [heappop h = None] stands for
    [len(h) == 0]. *)
Class Heapq : Type := {
  heap : Type;
  heap_items : heap → list (Z * ref);
  heap_singleton : Z * ref → heap;
  heappush : heap → Z * ref → heap;
  heappop : heap → option ((Z * ref) * heap);
  heap_singleton_items e : heap_items (heap_singleton e) = [e];
  heappush_items h e : heap_items (heappush h e) ≡ₚ e :: heap_items h;
  heappop_None h : heappop h = None ↔ heap_items h = [];
  heappop_Some h e h' :
    heappop h = Some (e, h') →
    heap_items h ≡ₚ e :: heap_items h' ∧
    Forall (λ e', (e.1 ≤ e'.1)%Z) (heap_items h)
}.

(** ** The shortest-path variant (class [Dijkstras]) *)

(** Costs kept in [min_cost]: a number or [float("inf")]. *)
Inductive ecost : Type :=
  | Fin (c : Z)
  | Inf.

(** [a < b] on costs, for a finite left operand. *)
Definition cost_lt (a : Z) (b : ecost) : bool :=
  match b with
  | Fin c => bool_decide (a < c)%Z
  | Inf => true
  end.

(** What a ground-truth cost function returns: the code subscripts it
    with [[0]], so a sequence is expected; a plain number (as the default
    [lambda u, v: 0] returns) cannot be subscripted. *)
Inductive pyval : Type :=
  | PyNum (z : Z)
  | PySeq (l : list Z).

Definition subscript0 (v : pyval) : outcome Z :=
  match v with
  | PyNum _ => Raise TypeError
  | PySeq [] => Raise IndexError
  | PySeq (c :: _) => Return c
  end.

Section DijkstrasDefs.
Context {X Y W : Type}.

Definition oracle : Type := X → W → Y * W.

(** [self.params.cost_func]: either a caller's evaluator, called as
    [cost_func(u, v, f)] and returning [(cost, xs, ys)], or the default
    [lambda u, v: 0], which takes two arguments only. *)
Inductive cost_func_t : Type :=
  | CostFunc (g : ref → ref → oracle → W → (Z * list X * list Y) * W)
  | DefaultCostFunc.

Record Dijkstras_params : Type := DijkstrasParams {
  name : string;
  start : option ref;
  goal : option ref;
  vertices : option (list ref);
  cost_func : cost_func_t;
  true_cost : ref → ref → pyval
}.

(** The caller's parameter bundle: every attribute may be absent. *)
Record Dijkstras_raw_params : Type := DijkstrasRawParams {
  raw_name : option string;
  raw_start : option ref;
  raw_goal : option ref;
  raw_vertices : option (list ref);
  raw_cost_func :
    option (ref → ref → oracle → W → (Z * list X * list Y) * W);
  raw_true_cost : option (ref → ref → pyval)
}.

(** [Dijkstras.set_params] (lines 251-261): every field is read with
    [getattr] and a default; an absent [start], [goal] or [vertices]
    becomes [None]. *)
Definition Dijkstras_set_params (params : Dijkstras_raw_params)
  : outcome Dijkstras_params :=
  Return
    (DijkstrasParams
       (default "Dijkstras"%string (raw_name params))
       (raw_start params)
       (raw_goal params)
       (raw_vertices params)
       (match raw_cost_func params with
        | Some g => CostFunc g
        | None => DefaultCostFunc
        end)
       (default (λ _ _, PyNum 0) (raw_true_cost params))).

(** [Dijkstras.get_output_from_exe_path] (lines 325-326) *)
Definition Dijkstras_get_output_from_exe_path
  (exe : exe_path X Y) : outcome (ecost * list ref) :=
  Raise
    (RuntimeError
       "Can't return output from execution path for Dijkstras").

Context `{Heapq}.
(** The object store, the oracle and [np.random.seed()]. *)
Variable obj : ref → Vertex.
Variable f : oracle.
Variable np_random_seed : W → W.

Inductive control : Type :=
  | AtWhile   (* about to test [len(to_explore) > 0] *)
  | AtFor (best_cost : Z) (current : ref) (todo : list ref)
          (* in [for neighbor in current.neighbors], [todo] left *)
  | Spinning  (* inside a [backtrack_indices] that never returns *)
  | Finished (r : outcome (ecost * list ref)).

Record state : Type := State {
  self_params : Dijkstras_params;
  explored : list bool;
  min_cost : list ecost;
  prev : list (option nat);
  to_explore : heap;
  i : nat;
  exe : exe_path X Y;
  world : W;
  ctl : control
}.

Definition set_ctl (s : state) (c : control) : state :=
  State (self_params s) (explored s) (min_cost s) (prev s)
    (to_explore s) (i s) (exe s) (world s) c.

(** The nested function [distance(u, v)] (lines 313-319). The trace is
    extended before the assertion is checked. *)
Definition distance (cf : cost_func_t) (e : exe_path X Y) (w : W)
  (u v : ref) : outcome Z * exe_path X Y * W :=
  match cf with
  | DefaultCostFunc => (Raise TypeError, e, w)
  | CostFunc g =>
      let '(cost, xs, ys, w') := g u v f w in
      let e' := extend_path e xs ys in
      if bool_decide (0 ≤ cost)%Z then (Return cost, e', w')
      else (Raise AssertionError, e', w')
  end.

(** The nested function [true_cost_of_path(path)] (lines 288-292);
    [cost] is the running sum. The sum is only printed. *)
Fixpoint true_cost_of_path (tc : ref → ref → pyval) (cost : Z)
  (path : list ref) : outcome Z :=
  match path with
  | u :: ((v :: _) as rest) =>
      match subscript0 (tc u v) with
      | Raise e => Raise e
      | Return c => true_cost_of_path tc (cost + c)%Z rest
      end
  | _ => Return cost
  end.

(** [[self.params.vertices[i] for i in indices]] *)
Fixpoint vertices_at (vs : list ref) (indices : list nat)
  : outcome (list ref) :=
  match indices with
  | [] => Return []
  | j :: rest =>
      match vs !! j with
      | None => Raise IndexError
      | Some v =>
          match vertices_at vs rest with
          | Raise e => Raise e
          | Return p => Return (v :: p)
          end
      end
  end.

(** The branch [if current.index == goal.index] of the while loop
    (lines 279-295): reconstruct the path, report its true cost,
    return. *)
Definition found_goal (s : state) (best_cost : Z) (current : ref)
  : control :=
  match backtrack_indices (index (obj current)) (prev s) with
  | None => Spinning
  | Some (Raise e) => Finished (Raise e)
  | Some (Return indices) =>
      match vertices (self_params s) with
      | None => Finished (Raise TypeError)
      | Some vs =>
          match vertices_at vs indices with
          | Raise e => Finished (Raise e)
          | Return best_path =>
              match true_cost_of_path (true_cost (self_params s)) 0
                      best_path with
              | Raise e => Finished (Raise e)
              | Return _ => Finished (Return (Fin best_cost, best_path))
              end
          end
      end
  end.

(** One iteration of the while loop up to the for loop (lines 272-296),
    or the return after the loop (lines 308-309). *)
Definition while_step (s : state) : state :=
  match heappop (to_explore s) with
  | None => set_ctl s (Finished (Return (Inf, [])))
  | Some ((best_cost, current), h') =>
      let s1 :=
        State (self_params s) (explored s) (min_cost s) (prev s) h'
          (i s) (exe s) (world s) AtWhile in
      match explored s !! index (obj current) with
      | None => set_ctl s1 (Finished (Raise IndexError))
      | Some true => s1
      | Some false =>
          let s2 :=
            State (self_params s)
              (<[index (obj current) := true]> (explored s))
              (min_cost s) (prev s) h' (S (i s)) (exe s) (world s)
              AtWhile in
          match goal (self_params s) with
          | None => set_ctl s2 (Finished (Raise AttributeError))
          | Some g =>
              if bool_decide (index (obj current) = index (obj g))
              then set_ctl s2 (found_goal s2 best_cost current)
              else set_ctl s2
                     (AtFor best_cost current (neighbors (obj current)))
          end
      end
  end.

(** One iteration of the for loop over [current.neighbors]
    (lines 297-306). *)
Definition for_step (s : state) (best_cost : Z) (current neighbor : ref)
  (todo : list ref) : state :=
  let '(r, e', w') :=
    distance (cost_func (self_params s)) (exe s) (world s) current
      neighbor in
  let s1 :=
    State (self_params s) (explored s) (min_cost s) (prev s)
      (to_explore s) (i s) e' w' (AtFor best_cost current todo) in
  match r with
  | Raise e => set_ctl s1 (Finished (Raise e))
  | Return step_cost =>
      match explored s !! index (obj neighbor) with
      | None => set_ctl s1 (Finished (Raise IndexError))
      | Some true => s1
      | Some false =>
          match min_cost s !! index (obj neighbor) with
          | None => set_ctl s1 (Finished (Raise IndexError))
          | Some m =>
              if cost_lt (best_cost + step_cost) m then
                State (self_params s) (explored s)
                  (<[index (obj neighbor) := Fin (best_cost + step_cost)]>
                     (min_cost s))
                  (<[index (obj neighbor) := Some (index (obj current))]>
                     (prev s))
                  (heappush (to_explore s)
                     ((best_cost + step_cost)%Z, neighbor))
                  (i s) e' w' (AtFor best_cost current todo)
              else s1
          end
      end
  end.

Definition step (s : state) : state :=
  match ctl s with
  | AtWhile => while_step s
  | AtFor best_cost current [] => set_ctl s AtWhile
  | AtFor best_cost current (neighbor :: todo) =>
      for_step s best_cost current neighbor todo
  | Spinning => s
  | Finished _ => s
  end.

(** Entry of [run_algorithm_on_f] up to the first loop test (lines 264,
    267-271, 311, 321): reseed, allocate the three per-vertex lists,
    [to_explore = [(0, start)]].
    With [vertices] absent [len(None)] raises. With [start] absent the
    heap holds [(0, None)] and the first iteration raises at
    [current.index] before anything else happens; that outcome is
    entered here directly. *)
Definition init (params : Dijkstras_params) (w : W) : state :=
  let w0 := np_random_seed w in
  match vertices params with
  | None =>
      State params [] [] [] (heap_singleton (0%Z, 0)) 0 empty_path w0
        (Finished (Raise TypeError))
  | Some vs =>
      let n := length vs in
      match start params with
      | None =>
          State params (replicate n false) (replicate n Inf)
            (replicate n None) (heap_singleton (0%Z, 0)) 0 empty_path w0
            (Finished (Raise AttributeError))
      | Some st =>
          State params (replicate n false) (replicate n Inf)
            (replicate n None) (heap_singleton (0%Z, st)) 0 empty_path w0
            AtWhile
      end
  end.

(** The machine after [n] steps of [Dijkstras.run_algorithm_on_f]. *)
Definition Dijkstras_run (n : nat) (params : Dijkstras_params) (w : W)
  : state :=
  iter_steps n step (init params w).

(** What the caller of [run_algorithm_on_f] gets: [None] while the run
    has not ended, else the returned [(exe_path, min_cost)] or the
    exception. *)
Definition Dijkstras_run_algorithm_on_f (n : nat)
  (params : Dijkstras_params) (w : W)
  : option (outcome (exe_path X Y * (ecost * list ref))) :=
  let s := Dijkstras_run n params w in
  match ctl s with
  | Finished (Return min_cost) => Some (Return (exe s, min_cost))
  | Finished (Raise e) => Some (Raise e)
  | _ => None
  end.
End DijkstrasDefs.

(** ** A list-backed priority queue *)

(** The simplest structure with the [heapq] contract: an unordered list;
    [heappop] removes the first entry of least cost. *)
Fixpoint pop_min (e : Z * ref) (h : list (Z * ref))
  : (Z * ref) * list (Z * ref) :=
  match h with
  | [] => (e, [])
  | e' :: h' =>
      let '(m, r) := pop_min e' h' in
      if bool_decide (e.1 ≤ m.1)%Z then (e, h) else (m, e :: r)
  end.

Definition list_heappop (h : list (Z * ref))
  : option ((Z * ref) * list (Z * ref)) :=
  match h with
  | [] => None
  | e :: h' => Some (pop_min e h')
  end.

Lemma pop_min_spec e h m r :
  pop_min e h = (m, r) →
  e :: h ≡ₚ m :: r ∧ Forall (λ e', (m.1 ≤ e'.1)%Z) (e :: h).
Proof.
  revert e m r. induction h as [|e' h IH]; intros e m r; simpl.
  - intros [= <- <-]. split; [done|]. by repeat constructor.
  - destruct (pop_min e' h) as [m' r'] eqn:E.
    destruct (IH _ _ _ E) as [Hp Hall].
    case_bool_decide as Hle; intros [= <- <-].
    + split; [done|]. constructor; [lia|].
      eapply Forall_impl; [exact Hall|]. simpl. intros; lia.
    + split.
      * rewrite Hp. apply Permutation_swap.
      * constructor; [lia|done].
Qed.

#[export] Program Instance list_heapq : Heapq := {
  heap := list (Z * ref);
  heap_items h := h;
  heap_singleton e := [e];
  heappush h e := e :: h;
  heappop := list_heappop
}.
Next Obligation. done. Qed.
Next Obligation. done. Qed.
Next Obligation. intros [|e h]; simpl; split; done. Qed.
Next Obligation.
  intros [|e0 h] e h'; simpl; [done|]. intros [= Hp].
  by apply pop_min_spec.
Qed.

(** * Properties *)

(** Case analysis on every [match] of the goal. *)
Ltac case_all := repeat (case_match; simplify_eq/=; try done).

(** Settle a decidable proposition by evaluating its decision. *)
Ltac decide_by_compute :=
  refine (bool_decide_unpack _ _); vm_compute; exact I.

(** ** Iterated steps *)

Lemma iter_steps_S_r {S : Type} (n : nat) (step : S → S) (s : S) :
  iter_steps (Datatypes.S n) step s = step (iter_steps n step s).
Proof.
  revert s. induction n as [|n IH]; intros s; [done|].
  change (iter_steps (Datatypes.S (Datatypes.S n)) step s)
    with (iter_steps (Datatypes.S n) step (step s)).
  by rewrite IH.
Qed.

Lemma iter_steps_add {S : Type} (n m : nat) (step : S → S) (s : S) :
  iter_steps (n + m) step s = iter_steps m step (iter_steps n step s).
Proof. revert s. induction n as [|n IH]; intros s; simpl; [done|apply IH]. Qed.

Lemma iter_steps_fixed {S : Type} (n : nat) (step : S → S) (s : S) :
  step s = s → iter_steps n step s = s.
Proof. intros Hs. induction n as [|n IH]; simpl; [done|by rewrite Hs]. Qed.

(** An invariant of the step function holds after any number of steps. *)
Lemma iter_steps_invariant {S : Type} (I : S → Prop) (step : S → S) :
  (∀ s, I s → I (step s)) → ∀ n s, I s → I (iter_steps n step s).
Proof.
  intros Hstep n. induction n as [|n IH]; intros s Hs; simpl; [done|].
  apply IH, Hstep, Hs.
Qed.

(** ** The pull loop *)

Section PullLoopTheory.
Context {X Y W P O : Type} `{!Algorithm X Y P O}.
Variable f : X → W → Y * W.

Lemma pull_step_finished (s : pull_state X Y W P O) r :
  pull_ctl s = PullFinished r → pull_step f s = s.
Proof. intros Hc. unfold pull_step. by rewrite Hc. Qed.

Lemma pull_steps_finished n (s : pull_state X Y W P O) r :
  pull_ctl s = PullFinished r → iter_steps n (pull_step f) s = s.
Proof. intros Hc. eapply iter_steps_fixed, pull_step_finished, Hc. Qed.

Lemma pull_step_params (s : pull_state X Y W P O) :
  pull_params (pull_step f s) = pull_params s.
Proof.
  unfold pull_step. destruct (pull_ctl s); [|done].
  destruct (get_next_x _ _) as [[x|]|e]; simpl; try done.
  - by destruct (f x (pull_world s)).
  - by destruct (get_output_from_exe_path _ _).
Qed.

Lemma pull_steps_params n (s : pull_state X Y W P O) :
  pull_params (iter_steps n (pull_step f) s) = pull_params s.
Proof.
  revert s. induction n as [|n IH]; intros s; simpl; [done|].
  by rewrite IH, pull_step_params.
Qed.

(** A step leaves the trace alone or appends one pair to it. *)
Lemma pull_step_trace (s : pull_state X Y W P O) :
  pull_exe (pull_step f s) = pull_exe s ∨
  ∃ x y, pull_exe (pull_step f s) = append_pair (pull_exe s) x y.
Proof.
  unfold pull_step. destruct (pull_ctl s); [|by left].
  destruct (get_next_x _ _) as [[x|]|e]; simpl.
  - destruct (f x (pull_world s)) as [y w'] eqn:E. right. by exists x, y.
  - destruct (get_output_from_exe_path _ _); by left.
  - by left.
Qed.

Lemma pull_step_lengths (s : pull_state X Y W P O) :
  length (path_x (pull_exe s)) = length (path_y (pull_exe s)) →
  length (path_x (pull_exe (pull_step f s))) =
  length (path_y (pull_exe (pull_step f s))).
Proof.
  intros Hl. destruct (pull_step_trace s) as [->|(x & y & ->)]; [done|].
  simpl. rewrite !length_app. simpl. lia.
Qed.

Lemma pull_run_lengths n params w :
  let e := pull_exe (Algorithm_run_algorithm_on_f f n params w) in
  length (path_x e) = length (path_y e).
Proof.
  unfold Algorithm_run_algorithm_on_f.
  apply (iter_steps_invariant
           (λ s, length (path_x (pull_exe s)) = length (path_y (pull_exe s)))).
  - apply pull_step_lengths.
  - done.
Qed.

Lemma pull_run_extends n params w :
  ∃ xs ys,
    pull_exe (Algorithm_run_algorithm_on_f f (S n) params w) =
    extend_path (pull_exe (Algorithm_run_algorithm_on_f f n params w)) xs ys
    ∧ length xs = length ys.
Proof.
  unfold Algorithm_run_algorithm_on_f. rewrite iter_steps_S_r.
  destruct (pull_step_trace (iter_steps n (pull_step f) (pull_init params w)))
    as [->|(x & y & ->)].
  - exists [], []. split; [|done]. unfold extend_path.
    rewrite !app_nil_r. by destruct (pull_exe _).
  - by exists [x], [y].
Qed.

(** The step machine and the pull loop of the specification agree, from
    any trace and world. *)
Lemma pull_steps_spec n params e w r w' :
  let s := iter_steps n (pull_step f) (PullState params e w Pulling) in
  pull_ctl s = PullFinished r → pull_world s = w' →
  pull_loop_spec f params e w r w'.
Proof.
  revert e w. induction n as [|n IH]; intros e w; simpl; [done|].
  set (s0 := PullState params e w Pulling). intros Hc Hw.
  destruct (get_next_x params e) as [[x|]|err] eqn:Hn.
  - destruct (f x w) as [y w1] eqn:Hf.
    assert (pull_step f s0 = PullState params (append_pair e x y) w1 Pulling)
      as Hs by (unfold pull_step, s0; simpl; by rewrite Hn, Hf).
    rewrite Hs in Hc, Hw. eapply pull_spec_query; [done..|]. by apply IH.
  - destruct (get_output_from_exe_path params e) as [o|err] eqn:Ho.
    + assert (pull_step f s0 =
              PullState params e w (PullFinished (Return (e, o)))) as Hs
        by (unfold pull_step, s0; simpl; by rewrite Hn, Ho).
      rewrite Hs in Hc, Hw. erewrite pull_steps_finished in Hc, Hw by done.
      simpl in *. injection Hc as <-. subst w'. by apply pull_spec_done.
    + assert (pull_step f s0 =
              PullState params e w (PullFinished (Raise err))) as Hs
        by (unfold pull_step, s0; simpl; by rewrite Hn, Ho).
      rewrite Hs in Hc, Hw. erewrite pull_steps_finished in Hc, Hw by done.
      simpl in *. injection Hc as <-. subst w'.
      by apply pull_spec_output_fails.
  - assert (pull_step f s0 =
            PullState params e w (PullFinished (Raise err))) as Hs
      by (unfold pull_step, s0; simpl; by rewrite Hn).
    rewrite Hs in Hc, Hw. erewrite pull_steps_finished in Hc, Hw by done.
    simpl in *. injection Hc as <-. subst w'.
    by apply pull_spec_next_fails.
Qed.

Lemma pull_spec_steps params e w r w' :
  pull_loop_spec f params e w r w' →
  ∃ n, let s := iter_steps n (pull_step f) (PullState params e w Pulling) in
       pull_ctl s = PullFinished r ∧ pull_world s = w' ∧
       pull_params s = params ∧
       match r with Return (e', _) => pull_exe s = e' | Raise _ => True end.
Proof.
  induction 1 as [e w o Hn Ho|e w err Hn Ho|e w err Hn
                 |e w x y w1 r w2 Hn Hf _ (n & IH)].
  - exists 1. simpl. unfold pull_step. simpl. rewrite Hn, Ho. done.
  - exists 1. simpl. unfold pull_step. simpl. rewrite Hn, Ho. done.
  - exists 1. simpl. unfold pull_step. simpl. rewrite Hn. done.
  - exists (S n).
    assert (pull_step f (PullState params e w Pulling) =
            PullState params (append_pair e x y) w1 Pulling) as Hs
      by (unfold pull_step; simpl; by rewrite Hn, Hf).
    simpl. rewrite Hs. exact IH.
Qed.

(** Determinism: an oracle whose answers do not depend on the world. *)
Definition deterministic_oracle : Prop :=
  ∀ x w1 w2, (f x w1).1 = (f x w2).1.

Lemma pull_step_deterministic (s1 s2 : pull_state X Y W P O) :
  deterministic_oracle →
  pull_params s1 = pull_params s2 → pull_exe s1 = pull_exe s2 →
  pull_ctl s1 = pull_ctl s2 →
  pull_params (pull_step f s1) = pull_params (pull_step f s2) ∧
  pull_exe (pull_step f s1) = pull_exe (pull_step f s2) ∧
  pull_ctl (pull_step f s1) = pull_ctl (pull_step f s2).
Proof.
  intros Hdet Hp He Hc. unfold pull_step. rewrite <-Hc, <-Hp, <-He.
  destruct (pull_ctl s1) eqn:Hc1; [|by rewrite Hc1].
  destruct (get_next_x _ _) as [[x|]|err]; simpl; try done.
  - specialize (Hdet x (pull_world s1) (pull_world s2)).
    destruct (f x (pull_world s1)), (f x (pull_world s2)). simpl in *.
    by subst.
  - by destruct (get_output_from_exe_path _ _).
Qed.

Lemma pull_run_deterministic n params w1 w2 :
  deterministic_oracle →
  pull_exe (Algorithm_run_algorithm_on_f f n params w1) =
  pull_exe (Algorithm_run_algorithm_on_f f n params w2) ∧
  pull_ctl (Algorithm_run_algorithm_on_f f n params w1) =
  pull_ctl (Algorithm_run_algorithm_on_f f n params w2).
Proof.
  intros Hdet. unfold Algorithm_run_algorithm_on_f.
  cut (∀ s1 s2 : pull_state X Y W P O,
          pull_params s1 = pull_params s2 → pull_exe s1 = pull_exe s2 →
          pull_ctl s1 = pull_ctl s2 →
          pull_exe (iter_steps n (pull_step f) s1) =
          pull_exe (iter_steps n (pull_step f) s2) ∧
          pull_ctl (iter_steps n (pull_step f) s1) =
          pull_ctl (iter_steps n (pull_step f) s2)).
  { intros Hcut. by apply Hcut. }
  induction n as [|n IH]; intros s1 s2 Hp He Hc; simpl; [done|].
  destruct (pull_step_deterministic s1 s2 Hdet Hp He Hc) as (? & ? & ?).
  by apply IH.
Qed.
End PullLoopTheory.

(** *** A scan over [x_path] visits every point *)

(** The oracle applied to a list of inputs in turn. *)
Fixpoint query_all {X Y W : Type} (f : X → W → Y * W) (xs : list X) (w : W)
  : list Y * W :=
  match xs with
  | [] => ([], w)
  | x :: rest =>
      let '(y, w1) := f x w in
      let '(ys, w2) := query_all f rest w1 in
      (y :: ys, w2)
  end.

Lemma LinearScan_steps {X Y W : Type} (f : X → W → Y * W) nm
  (seen rest : list X) (ys : list Y) (w : W) :
  length ys = length seen →
  iter_steps (S (length rest)) (pull_step f)
    (PullState (LinearScanParams nm (seen ++ rest)) (Namespace seen ys) w
       Pulling) =
  PullState (LinearScanParams nm (seen ++ rest))
    (Namespace (seen ++ rest) (ys ++ (query_all f rest w).1))
    (query_all f rest w).2
    (PullFinished
       (Return (Namespace (seen ++ rest) (ys ++ (query_all f rest w).1),
                ys ++ (query_all f rest w).1))).
Proof.
  revert seen ys w. induction rest as [|x rest IH]; intros seen ys w Hlen.
  - simpl. unfold pull_step. simpl. unfold Algorithm_get_next_x. simpl.
    rewrite !app_nil_r. by rewrite decide_True.
  - change (iter_steps (S (length (x :: rest))) (pull_step f) ?s)
      with (iter_steps (S (length rest)) (pull_step f) (pull_step f s)).
    assert (pull_step f
              (PullState (LinearScanParams nm (seen ++ x :: rest))
                 (Namespace seen ys) w Pulling) =
            PullState (LinearScanParams nm (seen ++ x :: rest))
              (Namespace (seen ++ [x]) (ys ++ [(f x w).1])) (f x w).2
              Pulling) as ->.
    { unfold pull_step. simpl. unfold Algorithm_get_next_x. simpl.
      rewrite decide_False by (rewrite length_app; simpl; lia).
      rewrite lookup_app_r, Nat.sub_diag by done. simpl.
      by destruct (f x w). }
    replace (seen ++ x :: rest) with ((seen ++ [x]) ++ rest)
      by (by rewrite <-app_assoc).
    rewrite IH by (rewrite !length_app; simpl; lia).
    simpl. destruct (f x w) as [y w1]. simpl.
    destruct (query_all f rest w1) as [ys' w2]. simpl.
    by rewrite <-!app_assoc.
Qed.

(** [LinearScan] on [x_path] ends after [len(x_path) + 1] evaluations of
    [get_next_x]: the trace holds the points of [x_path] in order with
    the oracle's answers, and the output is the list of answers. *)
Lemma LinearScan_run_completes {X Y W : Type} (f : X → W → Y * W) nm
  (x_path : list X) (w : W) :
  Algorithm_run_algorithm_on_f f (S (length x_path))
    (LinearScanParams nm x_path) w =
  PullState (LinearScanParams nm x_path)
    (Namespace x_path (query_all f x_path w).1) (query_all f x_path w).2
    (PullFinished
       (Return (Namespace x_path (query_all f x_path w).1,
                (query_all f x_path w).1))).
Proof.
  exact (LinearScan_steps f nm [] x_path [] w eq_refl).
Qed.

(** ** The search: facts that need no assumption on the graph *)

Section DijkstrasTheory.
Context {X Y W : Type} `{Heapq}.
Variable obj : ref → Vertex.
Variable f : @oracle X Y W.
Variable np_random_seed : W → W.

#[local] Abbreviation state := (@state X Y W _).
#[local] Abbreviation step := (step obj f).
#[local] Abbreviation for_step := (for_step obj f).
#[local] Abbreviation while_step := (while_step obj).
#[local] Abbreviation run := (Dijkstras_run obj f np_random_seed).

Definition running (s : state) : Prop :=
  match ctl s with
  | AtWhile | AtFor _ _ _ => True
  | Spinning | Finished _ => False
  end.

#[local] Instance running_dec s : Decision (running s).
Proof. unfold running. destruct (ctl s); apply _. Defined.

Lemma step_not_running (s : state) : ¬ running s → step s = s.
Proof.
  unfold running, step. destruct (ctl s); intros Hr; try done; by destruct Hr.
Qed.

Lemma steps_not_running n (s : state) :
  ¬ running s → iter_steps n step s = s.
Proof. intros Hs. by apply iter_steps_fixed, step_not_running. Qed.

Lemma run_add n m params w :
  run (n + m) params w = iter_steps m step (run n params w).
Proof. apply iter_steps_add. Qed.

Lemma run_S n params w : run (S n) params w = step (run n params w).
Proof. apply iter_steps_S_r. Qed.

(** Once the run has ended, more steps change nothing. *)
Lemma run_ended n m params w :
  ¬ running (run n params w) → n ≤ m → run m params w = run n params w.
Proof.
  intros Hr Hle. replace m with (n + (m - n)) by lia.
  rewrite run_add. by apply steps_not_running.
Qed.

(** If the run is still going after [m] steps, it was going before. *)
Lemma run_running_before n m params w :
  running (run m params w) → n ≤ m → running (run n params w).
Proof.
  intros Hr Hle. destruct (decide (running (run n params w))) as [|Hn];
    [done|].
  by rewrite (run_ended n m) in Hr.
Qed.

(** *** The parameter bundle is only read *)

Lemma step_params (s : state) : self_params (step s) = self_params s.
Proof.
  unfold step, while_step, for_step, distance.
  case_all.
Qed.

Lemma run_params n params w : self_params (run n params w) = params.
Proof.
  unfold Dijkstras_run.
  transitivity (self_params (init np_random_seed params w)).
  - apply (iter_steps_invariant
             (λ s, self_params s = self_params (init np_random_seed params w)));
      [|done].
    intros s Hs. by rewrite step_params.
  - unfold init. by repeat case_match.
Qed.

(** *** What one iteration of the for loop does *)

(** The evaluator is called on the next neighbour whatever its explored
    flag is: the trace and the world after the step are those the call
    leaves. *)
Lemma for_step_eval (s : state) g best_cost current neighbor todo
  cost xs ys w' :
  cost_func (self_params s) = CostFunc g →
  g current neighbor f (world s) = (cost, xs, ys, w') →
  exe (for_step s best_cost current neighbor todo) =
    extend_path (exe s) xs ys ∧
  world (for_step s best_cost current neighbor todo) = w'.
Proof.
  intros Hcf Hg. unfold for_step, distance. rewrite Hcf, Hg.
  case_all.
Qed.

Lemma for_step_negative (s : state) g best_cost current neighbor todo
  cost xs ys w' :
  cost_func (self_params s) = CostFunc g →
  g current neighbor f (world s) = (cost, xs, ys, w') →
  (cost < 0)%Z →
  ctl (for_step s best_cost current neighbor todo) =
    Finished (Raise AssertionError).
Proof.
  intros Hcf Hg Hneg. unfold for_step, distance. rewrite Hcf, Hg.
  rewrite bool_decide_eq_false_2 by lia. done.
Qed.

(** With the neighbour already explored and a cost that passes the
    assertion, only the trace and the world change. *)
Lemma for_step_explored (s : state) g best_cost current neighbor todo
  cost xs ys w' :
  cost_func (self_params s) = CostFunc g →
  g current neighbor f (world s) = (cost, xs, ys, w') →
  (0 ≤ cost)%Z →
  explored s !! index (obj neighbor) = Some true →
  for_step s best_cost current neighbor todo =
    State (self_params s) (explored s) (min_cost s) (prev s)
      (to_explore s) (i s) (extend_path (exe s) xs ys) w'
      (AtFor best_cost current todo).
Proof.
  intros Hcf Hg Hpos Hex. unfold for_step, distance. rewrite Hcf, Hg.
  rewrite bool_decide_eq_true_2 by lia. by rewrite Hex.
Qed.

Lemma for_step_assertion (s : state) best_cost current neighbor todo :
  ctl (for_step s best_cost current neighbor todo) =
    Finished (Raise AssertionError) →
  ∃ g cost xs ys w',
    cost_func (self_params s) = CostFunc g ∧
    g current neighbor f (world s) = (cost, xs, ys, w') ∧ (cost < 0)%Z.
Proof.
  unfold for_step, distance.
  destruct (cost_func (self_params s)) as [g|] eqn:Hcf; [|done].
  destruct (g current neighbor f (world s)) as [[[cost xs] ys] w'] eqn:Hg.
  case_bool_decide as Hc.
  - case_all.
  - intros _. exists g, cost, xs, ys, w'. repeat split; [done|lia].
Qed.

(** The evaluator called on each vertex of [todo] in turn, whatever the
    explored flags are: the trace and the world this leaves. *)
Fixpoint eval_neighbors
  (g : ref → ref → @oracle X Y W → W → (Z * list X * list Y) * W)
  (current : ref) (todo : list ref) (e : exe_path X Y) (w : W)
  : exe_path X Y * W :=
  match todo with
  | [] => (e, w)
  | neighbor :: rest =>
      let '(_, xs, ys, w') := g current neighbor f w in
      eval_neighbors g current rest (extend_path e xs ys) w'
  end.

Lemma for_step_ctl (s : state) best_cost current neighbor todo :
  ctl (for_step s best_cost current neighbor todo) =
    AtFor best_cost current todo ∨
  ∃ e, ctl (for_step s best_cost current neighbor todo) = Finished (Raise e).
Proof. unfold for_step, distance. case_all; eauto. Qed.

(** A for loop that runs to its end has called the evaluator on every
    vertex of [todo], in order. *)
Lemma for_loop_evaluates_all (s : state) g best_cost current todo :
  cost_func (self_params s) = CostFunc g →
  ctl s = AtFor best_cost current todo →
  ctl (iter_steps (length todo) step s) = AtFor best_cost current [] →
  (exe (iter_steps (length todo) step s),
   world (iter_steps (length todo) step s)) =
  eval_neighbors g current todo (exe s) (world s).
Proof.
  revert s. induction todo as [|nb todo IH]; intros s Hcf Hctl Hend; [done|].
  change (iter_steps (length (nb :: todo)) step s)
    with (iter_steps (length todo) step (step s)) in Hend |- *.
  assert (step s = for_step s best_cost current nb todo) as Hstep
    by (unfold step; by rewrite Hctl).
  rewrite Hstep in Hend |- *.
  destruct (g current nb f (world s)) as [[[cost xs] ys] w'] eqn:Hg.
  destruct (for_step_eval s g best_cost current nb todo cost xs ys w' Hcf Hg)
    as [He Hw].
  destruct (for_step_ctl s best_cost current nb todo) as [Hc|[e Hc]].
  - rewrite IH; [|by rewrite <-Hstep, step_params|done|done].
    simpl. by rewrite Hg, He, Hw.
  - rewrite steps_not_running in Hend
      by (unfold running; rewrite Hc; intros []).
    congruence.
Qed.

(** *** The assertion is the only source of [AssertionError] *)

Lemma backtrack_loop_error fuel j prev path e :
  backtrack_loop fuel j prev path = Some (Raise e) → e = IndexError.
Proof.
  revert j path. induction fuel as [|fuel IH]; intros j path; simpl; [done|].
  repeat case_match; try done; [|by intros [= <-]]. apply IH.
Qed.

Lemma vertices_at_error vs l e :
  vertices_at vs l = Raise e → e = IndexError.
Proof.
  revert e. induction l as [|j l IH]; intros e; simpl; [done|].
  repeat case_match; try done; intros [= <-]; eauto.
Qed.

Lemma true_cost_of_path_error tc cost path e :
  true_cost_of_path tc cost path = Raise e → e ≠ AssertionError.
Proof.
  revert cost. induction path as [|u path IH]; intros cost; simpl; [done|].
  destruct path as [|v path]; [done|].
  destruct (subscript0 (tc u v)) as [c|e'] eqn:Hs.
  - apply IH.
  - intros [= <-]. unfold subscript0 in Hs.
    repeat case_match; by simplify_eq.
Qed.

Lemma found_goal_assertion (s : state) best_cost current :
  found_goal obj s best_cost current ≠ Finished (Raise AssertionError).
Proof.
  unfold found_goal, backtrack_indices.
  destruct (backtrack_loop _ _ _ _) as [[l|e]|] eqn:Hb; [| |done].
  - destruct (vertices _) as [vs|]; [|done].
    destruct (vertices_at vs l) as [p|e] eqn:Hv.
    + destruct (true_cost_of_path _ _ _) as [c|e] eqn:Ht; [done|].
      apply true_cost_of_path_error in Ht. congruence.
    + apply vertices_at_error in Hv. by subst.
  - apply backtrack_loop_error in Hb. by subst.
Qed.

Lemma while_step_assertion (s : state) :
  ctl (while_step s) ≠ Finished (Raise AssertionError).
Proof.
  unfold while_step. case_all.
  apply found_goal_assertion.
Qed.

(** An [AssertionError] appears exactly at a for-loop iteration whose
    evaluation returned a negative cost. *)
Lemma step_assertion (s : state) :
  ctl s ≠ Finished (Raise AssertionError) →
  ctl (step s) = Finished (Raise AssertionError) →
  ∃ best_cost current neighbor todo g cost xs ys w',
    ctl s = AtFor best_cost current (neighbor :: todo) ∧
    cost_func (self_params s) = CostFunc g ∧
    g current neighbor f (world s) = (cost, xs, ys, w') ∧ (cost < 0)%Z.
Proof.
  intros Hs. unfold step.
  destruct (ctl s) as [|best_cost current [|neighbor todo]| |r] eqn:Hc;
    try done; try congruence.
  - intros Hw. by apply while_step_assertion in Hw.
  - intros Hf. apply for_step_assertion in Hf
      as (g & cost & xs & ys & w' & ? & ? & ?).
    by exists best_cost, current, neighbor, todo, g, cost, xs, ys, w'.
Qed.

(** *** The trace only grows, both halves together *)

Definition equal_length_evaluator (cf : cost_func_t) : Prop :=
  ∀ g u v w, cf = CostFunc g →
    length (g u v f w).1.1.2 = length (g u v f w).1.2.

Lemma extend_path_nil (e : exe_path X Y) : extend_path e [] [] = e.
Proof. unfold extend_path. rewrite !app_nil_r. by destruct e. Qed.

Lemma step_trace (s : state) :
  ∃ xs ys, exe (step s) = extend_path (exe s) xs ys ∧
           (equal_length_evaluator (cost_func (self_params s)) →
            length xs = length ys).
Proof.
  unfold step.
  destruct (ctl s) as [|best_cost current [|neighbor todo]| |r] eqn:Hc.
  - exists [], []. split; [|done]. rewrite extend_path_nil.
    unfold while_step. case_all.
  - exists [], []. by rewrite extend_path_nil.
  - destruct (cost_func (self_params s)) as [g|] eqn:Hcf.
    + destruct (g current neighbor f (world s)) as [[[cost xs] ys] w'] eqn:Hg.
      exists xs, ys. split.
      * eapply for_step_eval; eauto.
      * intros Heq. specialize (Heq g current neighbor (world s) eq_refl).
        by rewrite Hg in Heq.
    + exists [], []. split; [|done]. rewrite extend_path_nil.
      unfold for_step, distance. by rewrite Hcf.
  - exists [], []. by rewrite extend_path_nil.
  - exists [], []. by rewrite extend_path_nil.
Qed.

Lemma step_lengths (s : state) :
  equal_length_evaluator (cost_func (self_params s)) →
  length (path_x (exe s)) = length (path_y (exe s)) →
  length (path_x (exe (step s))) = length (path_y (exe (step s))).
Proof.
  intros Heq Hl. destruct (step_trace s) as (xs & ys & -> & Hxy).
  simpl. rewrite !length_app, Hl, Hxy; done.
Qed.

Lemma init_exe (params : @Dijkstras_params X Y W) w :
  exe (init np_random_seed params w) = empty_path.
Proof. unfold init. by repeat case_match. Qed.

Lemma init_world (params : @Dijkstras_params X Y W) w :
  world (init np_random_seed params w) = np_random_seed w.
Proof. unfold init. by repeat case_match. Qed.

Lemma run_lengths n params w :
  equal_length_evaluator (cost_func params) →
  length (path_x (exe (run n params w))) =
  length (path_y (exe (run n params w))).
Proof.
  intros Heq. induction n as [|n IH].
  - unfold Dijkstras_run. simpl. by rewrite init_exe.
  - rewrite run_S. apply step_lengths; [|done]. by rewrite run_params.
Qed.

Lemma run_extends n params w :
  equal_length_evaluator (cost_func params) →
  ∃ xs ys, exe (run (S n) params w) = extend_path (exe (run n params w)) xs ys
           ∧ length xs = length ys.
Proof.
  intros Heq. rewrite run_S.
  destruct (step_trace (run n params w)) as (xs & ys & -> & Hxy).
  exists xs, ys. split; [done|]. apply Hxy. by rewrite run_params.
Qed.

(** *** Walks in the graph *)

(** Each consecutive pair of [p] is an edge. *)
Fixpoint is_walk (p : list ref) : bool :=
  match p with
  | u :: ((v :: _) as rest) =>
      bool_decide (v ∈ neighbors (obj u)) && is_walk rest
  | _ => true
  end.

(** A walk with the given first and last element. *)
Definition walk_from_to (s t : ref) (p : list ref) : Prop :=
  head p = Some s ∧ last p = Some t ∧ is_walk p.

(** The sum of the weights of the consecutive pairs of [p]. *)
Fixpoint walk_cost (wt : ref → ref → Z) (p : list ref) : Z :=
  match p with
  | u :: ((v :: _) as rest) => (wt u v + walk_cost wt rest)%Z
  | _ => 0%Z
  end.

Lemma walk_from_to_single s : walk_from_to s s [s].
Proof. by repeat split. Qed.

Lemma is_walk_snoc p u v :
  is_walk p → last p = Some u → v ∈ neighbors (obj u) → is_walk (p ++ [v]).
Proof.
  induction p as [|a [|b p] IH]; simpl; [done| |].
  - intros _ [= ->] Hv. by rewrite bool_decide_eq_true_2.
  - intros [Hab Hp]%andb_prop_elim Hl Hv. apply andb_prop_intro.
    split; [done|]. by apply IH.
Qed.

Lemma walk_cost_snoc wt p u v :
  last p = Some u →
  walk_cost wt (p ++ [v]) = (walk_cost wt p + wt u v)%Z.
Proof.
  induction p as [|a [|b p] IH]; [done| |].
  - intros [= ->]. simpl. lia.
  - intros Hl. change (walk_cost wt ((a :: b :: p) ++ [v]))
      with (wt a b + walk_cost wt ((b :: p) ++ [v]))%Z.
    rewrite IH by done. simpl. lia.
Qed.

Lemma walk_from_to_snoc s u v p :
  walk_from_to s u p → v ∈ neighbors (obj u) → walk_from_to s v (p ++ [v]).
Proof.
  intros (Hh & Hl & Hw) Hv. repeat split.
  - destruct p; [done|]. done.
  - by rewrite last_snoc.
  - by eapply is_walk_snoc.
Qed.

Lemma walk_from_to_cons s u t p :
  u ∈ neighbors (obj s) → walk_from_to u t p → walk_from_to s t (s :: p).
Proof.
  intros Hu (Hh & Hl & Hw). destruct p as [|a p]; [done|].
  injection Hh as ->. repeat split; [done|].
  simpl. by rewrite bool_decide_eq_true_2.
Qed.

Definition reachable (s t : ref) : Prop := ∃ p, walk_from_to s t p.

Lemma reachable_refl s : reachable s s.
Proof. exists [s]. apply walk_from_to_single. Qed.

Lemma reachable_step s u v :
  reachable s u → v ∈ neighbors (obj u) → reachable s v.
Proof. intros [p Hp] Hv. exists (p ++ [v]). by eapply walk_from_to_snoc. Qed.

(** *** Graphs with stable indices *)

Section Graph.
Variable vs : list ref.

(** [vertices[j].index == j] for every position [j]. *)
Definition stable_indices : Prop :=
  (λ v, index (obj v)) <$> vs = seq 0 (length vs).

(** Every neighbour of a listed vertex is listed. *)
Definition closed_under_neighbors : Prop :=
  Forall (λ v, Forall (λ u, u ∈ vs) (neighbors (obj v))) vs.

Hypothesis Hstable : stable_indices.
Hypothesis Hclosed : closed_under_neighbors.

Lemma stable_lookup j v : vs !! j = Some v → index (obj v) = j.
Proof.
  intros Hj.
  assert (((λ v, index (obj v)) <$> vs) !! j = Some (index (obj v))) as Hm
    by (by rewrite list_lookup_fmap, Hj).
  rewrite Hstable in Hm. apply lookup_seq in Hm. lia.
Qed.

Lemma index_lookup v : v ∈ vs → vs !! index (obj v) = Some v.
Proof.
  intros [j Hj]%list_elem_of_lookup. by rewrite (stable_lookup j v Hj).
Qed.

Lemma index_lt v : v ∈ vs → index (obj v) < length vs.
Proof. intros Hv. eapply lookup_lt_Some, index_lookup, Hv. Qed.

Lemma index_inj u v :
  u ∈ vs → v ∈ vs → index (obj u) = index (obj v) → u = v.
Proof.
  intros Hu%index_lookup Hv%index_lookup Heq. rewrite Heq in Hu. congruence.
Qed.

Lemma neighbor_in u v : u ∈ vs → v ∈ neighbors (obj u) → v ∈ vs.
Proof.
  intros Hu Hv. unfold closed_under_neighbors in Hclosed.
  rewrite Forall_forall in Hclosed. specialize (Hclosed u Hu).
  rewrite Forall_forall in Hclosed. by apply Hclosed.
Qed.

Lemma walk_in s t p : s ∈ vs → walk_from_to s t p → t ∈ vs.
Proof.
  revert s. induction p as [|a [|b p] IH]; intros s Hs (Hh & Hl & Hw).
  - done.
  - simpl in *. congruence.
  - injection Hh as ->. simpl in Hw. apply andb_prop_elim in Hw as [Hab Hw].
    apply bool_decide_unpack in Hab.
    apply (IH b); [by eapply neighbor_in|]. by repeat split.
Qed.

Lemma reachable_in s t : s ∈ vs → reachable s t → t ∈ vs.
Proof. intros Hs [p Hp]. by eapply walk_in. Qed.

(** Weights that are non-negative on the edges of the graph. *)
Definition nonneg_weights (wt : ref → ref → Z) : Prop :=
  Forall (λ u, Forall (λ v, (0 ≤ wt u v)%Z) (neighbors (obj u))) vs.

Lemma nonneg_weights_edge wt u v :
  nonneg_weights wt → u ∈ vs → v ∈ neighbors (obj u) → (0 ≤ wt u v)%Z.
Proof.
  intros Hnn Hu Hv. unfold nonneg_weights in Hnn.
  rewrite Forall_forall in Hnn. specialize (Hnn u Hu).
  rewrite Forall_forall in Hnn. by apply Hnn.
Qed.

Lemma walk_cost_nonneg wt s t p :
  nonneg_weights wt → s ∈ vs → walk_from_to s t p →
  (0 ≤ walk_cost wt p)%Z.
Proof.
  intros Hnn. revert s.
  induction p as [|a [|b p] IH]; intros s Hs (Hh & Hl & Hw); [done..|].
  injection Hh as <-. simpl in Hw. apply andb_prop_elim in Hw as [Hab Hw].
  apply bool_decide_unpack in Hab.
  assert (0 ≤ walk_cost wt (b :: p))%Z.
  { apply (IH b); [by eapply neighbor_in|]. by repeat split. }
  pose proof (nonneg_weights_edge wt a b Hnn Hs Hab).
  change (walk_cost wt (a :: b :: p))
    with (wt a b + walk_cost wt (b :: p))%Z. lia.
Qed.

(** A walk that leaves a set of vertices has a first edge that does:
    the part of the walk before that edge stays in the set, and the
    part up to and including it costs no more than the whole walk. *)
Lemma walk_crossing wt (E : ref → Prop) s t p :
  nonneg_weights wt → (∀ v, Decision (E v)) →
  s ∈ vs → walk_from_to s t p → E s → ¬ E t →
  ∃ q a b, walk_from_to s a q ∧ E a ∧ ¬ E b ∧ a ∈ vs ∧
           b ∈ neighbors (obj a) ∧
           (walk_cost wt q + wt a b ≤ walk_cost wt p)%Z.
Proof.
  intros Hnn Hdec. revert s.
  induction p as [|a [|b p] IH]; intros s Hs (Hh & Hl & Hw) HEs HEt.
  - done.
  - simpl in *. congruence.
  - injection Hh as <-. simpl in Hw. apply andb_prop_elim in Hw as [Hab Hw].
    apply bool_decide_unpack in Hab.
    assert (walk_from_to b t (b :: p)) as Hbp by (by repeat split).
    assert (b ∈ vs) as Hb by (by eapply neighbor_in).
    change (walk_cost wt (a :: b :: p))
      with (wt a b + walk_cost wt (b :: p))%Z.
    destruct (decide (E b)) as [HEb|HEb].
    + destruct (IH b Hb Hbp HEb HEt)
        as (q & a' & b' & Hq & Ha' & Hb' & Hin & Hedge & Hcost).
      exists (a :: q), a', b'.
      split; [by eapply walk_from_to_cons|]. repeat split; try done.
      destruct Hq as (Hhq & ? & Hwq). destruct q as [|c q]; [done|].
      injection Hhq as ->.
      change (walk_cost wt (a :: b :: q))
        with (wt a b + walk_cost wt (b :: q))%Z. lia.
    + exists [a], a, b. repeat split; try done.
      pose proof (walk_cost_nonneg wt b t (b :: p) Hnn Hb Hbp).
      simpl (walk_cost wt [a]). lia.
Qed.
End Graph.

(** *** Runs on a well-formed graph *)

(** Weight of the vertices not explored yet, for the termination
    measure: each one may still be expanded once. *)
Definition vertex_weight (v : ref) : nat :=
  2 * length (neighbors (obj v)) + 2.

Definition unexplored_weight (ex : list bool) (l : list ref) : nat :=
  sum_list
    (zip_with (λ (b : bool) v, if b then 0 else vertex_weight v) ex l).

Lemma unexplored_weight_insert ex l j v :
  ex !! j = Some false → l !! j = Some v →
  unexplored_weight (<[j:=true]> ex) l + vertex_weight v =
  unexplored_weight ex l.
Proof.
  unfold unexplored_weight. generalize vertex_weight as vw.
  intros vw. revert l j.
  induction ex as [|b ex IH]; intros [|a l] [|j]; simpl; try done.
  - intros [= ->] [= ->]. lia.
  - intros Hex Hl. specialize (IH l j Hex Hl). lia.
Qed.

Definition measure (s : state) : nat :=
  match ctl s with
  | AtWhile =>
      length (heap_items (to_explore s))
      + unexplored_weight (explored s)
          (default [] (vertices (self_params s)))
  | AtFor _ _ todo =>
      length (heap_items (to_explore s)) + 2 * length todo + 1
      + unexplored_weight (explored s)
          (default [] (vertices (self_params s)))
  | Spinning | Finished _ => 0
  end.

Lemma heappop_singleton e :
  ∃ h', heappop (heap_singleton e) = Some (e, h') ∧ heap_items h' = [].
Proof.
  destruct (heappop (heap_singleton e)) as [[e' h']|] eqn:Hp.
  - apply heappop_Some in Hp as [Hp _].
    rewrite heap_singleton_items in Hp.
    apply Permutation_length in Hp as Hlen. simpl in Hlen.
    destruct (heap_items h') eqn:Hh; [|simpl in Hlen; lia].
    apply Permutation_singleton_l in Hp. injection Hp as <-. eauto.
  - apply heappop_None in Hp. by rewrite heap_singleton_items in Hp.
Qed.

Section Search.
Variable vs : list ref.
Variables st gl : ref.
Variable nm : string.
Variable g : ref → ref → @oracle X Y W → W → (Z * list X * list Y) * W.
Variable tc : ref → ref → pyval.

Definition search_params : Dijkstras_params :=
  DijkstrasParams nm (Some st) (Some gl) (Some vs) (CostFunc g) tc.

(** The evaluator returns a non-negative cost for every edge of the
    graph, whatever the world is. *)
Definition nonneg_evaluator : Prop :=
  ∀ u v w, u ∈ vs → v ∈ neighbors (obj u) → (0 ≤ (g u v f w).1.1.1)%Z.

Hypothesis Hstable : stable_indices vs.
Hypothesis Hclosed : closed_under_neighbors vs.
Hypothesis Hst : st ∈ vs.
Hypothesis Hgl : gl ∈ vs.
Hypothesis Hnonneg : nonneg_evaluator.

(** What keeps the run free of exceptions. *)
Record safe (s : state) : Prop := {
  safe_params : self_params s = search_params;
  safe_explored : length (explored s) = length vs;
  safe_min_cost : length (min_cost s) = length vs;
  safe_prev : length (prev s) = length vs;
  safe_heap : ∀ c v, (c, v) ∈ heap_items (to_explore s) →
                     v ∈ vs ∧ reachable st v;
  safe_for : ∀ best_cost current todo,
      ctl s = AtFor best_cost current todo →
      current ∈ vs ∧ reachable st current ∧
      explored s !! index (obj current) = Some true ∧
      ∃ done, neighbors (obj current) = done ++ todo
}.

(** The state after popping [(c, v)] for an unexplored [v]. *)
Definition popped (s : state) (h' : heap) (v : ref) : state :=
  State (self_params s) (<[index (obj v) := true]> (explored s))
    (min_cost s) (prev s) h' (S (i s)) (exe s) (world s) AtWhile.

Lemma safe_step (s : state) :
  safe s → running s →
  (safe (step s) ∧ running (step s) ∧ measure (step s) < measure s)
  ∨ (ctl s = AtWhile ∧ heap_items (to_explore s) = [] ∧
     step s = set_ctl s (Finished (Return (Inf, []))))
  ∨ (∃ c h', ctl s = AtWhile ∧
       heappop (to_explore s) = Some ((c, gl), h') ∧
       explored s !! index (obj gl) = Some false ∧
       step s = set_ctl (popped s h' gl) (found_goal obj (popped s h' gl) c gl)).
Proof.
  intros [Hp Hex Hmc Hpv Hheap Hfor] Hrun.
  destruct s as [p ex mc pv h i0 e w c]. simpl in *. subst p.
  unfold running in Hrun. simpl in Hrun.
  destruct c as [|best current [|nb todo]| |r]; try done.
  - (* the loop test and a pop *)
    unfold step, while_step, measure. simpl.
    destruct (heappop h) as [[[c v] h']|] eqn:Hpop.
    + apply heappop_Some in Hpop as Hsp. destruct Hsp as [Hperm Hmin].
      assert ((c, v) ∈ heap_items h) as Hin
        by (rewrite Hperm; apply list_elem_of_here).
      destruct (Hheap c v Hin) as [Hv Hreach].
      assert (∀ c' v', (c', v') ∈ heap_items h' →
                       v' ∈ vs ∧ reachable st v') as Hheap'.
      { intros c' v' Hin'. apply (Hheap c' v'). rewrite Hperm.
        by apply list_elem_of_further. }
      assert (length (heap_items h) = S (length (heap_items h'))) as Hlen
        by (by rewrite Hperm).
      pose proof (index_lt vs Hstable v Hv) as Hlt.
      destruct (ex !! index (obj v)) as [[|]|] eqn:Hlk.
      * left. split; [|split]; [by constructor|done|simpl; lia].
      * case_bool_decide as Hgoal.
        -- right. right. exists c, h'.
           apply (index_inj vs Hstable) in Hgoal as ->; [|done..].
           by rewrite Hlk.
        -- left. split; [|split]; [|done|].
           ++ constructor; simpl; try done.
              ** by rewrite length_insert.
              ** intros ? ? ? [= <- <- <-]. repeat split; try done.
                 --- apply list_lookup_insert_eq. lia.
                 --- by exists [].
           ++ simpl.
              pose proof (unexplored_weight_insert ex vs _ v Hlk
                            (index_lookup vs Hstable v Hv)).
              unfold vertex_weight in *. lia.
      * apply lookup_ge_None in Hlk. lia.
    + right. left. by apply heappop_None in Hpop.
  - (* the for loop is over *)
    left. unfold step, measure. simpl.
    split; [|split]; [by constructor|done|lia].
  - (* one neighbour *)
    left. destruct (Hfor _ _ _ eq_refl) as (Hcur & Hreach & Hexc & done & Hdone).
    assert (nb ∈ neighbors (obj current)) as Hnb.
    { rewrite Hdone. apply elem_of_app. right. apply list_elem_of_here. }
    assert (nb ∈ vs) as Hnbv by (by eapply neighbor_in).
    pose proof (Hnonneg current nb w Hcur Hnb) as Hpos.
    pose proof (index_lt vs Hstable nb Hnbv) as Hlt.
    assert (∃ done', neighbors (obj current) = done' ++ todo) as Hdone'.
    { exists (done ++ [nb]). by rewrite <-app_assoc. }
    unfold step, for_step, distance, measure. simpl.
    destruct (g current nb f w) as [[[cost xs] ys] w'] eqn:Hg.
    simpl in Hpos. rewrite bool_decide_eq_true_2 by done.
    destruct (ex !! index (obj nb)) as [[|]|] eqn:Hlk.
    * split; [|split]; [|done|simpl; lia].
      constructor; simpl; try done.
      intros ? ? ? [= <- <- <-]. done.
    * destruct (mc !! index (obj nb)) as [m|] eqn:Hm.
      -- destruct (cost_lt (best + cost) m).
         ++ split; [|split]; [|done|].
            ** constructor; simpl; try done.
               --- by rewrite length_insert.
               --- by rewrite length_insert.
               --- intros c v. rewrite heappush_items.
                   intros [[= -> ->]|Hin]%elem_of_cons;
                     [|by apply (Hheap c v)].
                   split; [done|]. by eapply reachable_step.
               --- intros ? ? ? [= <- <- <-]. done.
            ** simpl. rewrite heappush_items. simpl. lia.
         ++ split; [|split]; [|done|simpl; lia].
            constructor; simpl; try done.
            intros ? ? ? [= <- <- <-]. done.
      -- apply lookup_ge_None in Hm. lia.
    * apply lookup_ge_None in Hlk. lia.
Qed.

Lemma found_goal_not_running (s : state) c v :
  ¬ running (set_ctl s (found_goal obj s c v)).
Proof. unfold running, found_goal. simpl. case_all; intros []. Qed.

Lemma init_search w :
  init np_random_seed search_params w =
  State search_params (replicate (length vs) false)
    (replicate (length vs) Inf) (replicate (length vs) None)
    (heap_singleton (0%Z, st)) 0 empty_path (np_random_seed w) AtWhile.
Proof. done. Qed.

Lemma init_safe w : safe (init np_random_seed search_params w).
Proof.
  rewrite init_search. constructor; simpl; try done.
  - by rewrite length_replicate.
  - by rewrite length_replicate.
  - by rewrite length_replicate.
  - intros c v. rewrite heap_singleton_items.
    intros [= -> ->]%list_elem_of_singleton.
    split; [done|apply reachable_refl].
Qed.

(** A safe run goes on safely until a step ends it; [I] is any
    further property that running steps preserve. *)
Lemma safe_run_ends (I : state → Prop) :
  (∀ s, safe s → I s → running s → running (step s) → I (step s)) →
  ∀ s, safe s → I s → running s →
  ∃ k, safe (iter_steps k step s) ∧ I (iter_steps k step s) ∧
       running (iter_steps k step s) ∧
       ¬ running (step (iter_steps k step s)).
Proof.
  intros HI s. remember (measure s) as m eqn:Hm. revert s Hm.
  induction (lt_wf m) as [m _ IH]. intros s -> Hsafe HIs Hrun.
  destruct (safe_step s Hsafe Hrun)
    as [(Hsafe' & Hrun' & Hlt)|[(Hc & Hnil & Hs)|(c & h' & Hc & Hpop & Hex & Hs)]].
  - destruct (IH _ Hlt (step s) eq_refl Hsafe' (HI s Hsafe HIs Hrun Hrun') Hrun')
      as (k & Hk).
    by exists (S k).
  - exists 0. change (iter_steps 0 step s) with s.
    split; [done|split; [done|split; [done|]]].
    rewrite Hs. unfold running. simpl. intros [].
  - exists 0. change (iter_steps 0 step s) with s.
    split; [done|split; [done|split; [done|]]].
    rewrite Hs. apply found_goal_not_running.
Qed.

(** With the goal out of reach the frontier empties and the search
    returns infinite cost and the empty path. *)
Lemma unreachable_goal_run w :
  ¬ reachable st gl →
  ∃ k, ctl (run k search_params w) = AtWhile ∧
       heap_items (to_explore (run k search_params w)) = [] ∧
       ∀ n, k < n →
         Dijkstras_run_algorithm_on_f obj f np_random_seed n
           search_params w =
         Some (Return (exe (run k search_params w), (Inf, []))).
Proof.
  intros Hunreach.
  destruct (safe_run_ends (λ _, True) (λ _ _ _ _ _, I)
              (init np_random_seed search_params w) (init_safe w) I)
    as (k & Hsafe & _ & Hrun & Hend); [by rewrite init_search|].
  fold (run k search_params w) in *. exists k.
  destruct (safe_step _ Hsafe Hrun)
    as [(_ & Hrun' & _)|[(Hc & Hnil & Hs)|(c & h' & Hc & Hpop & Hex & Hs)]].
  - done.
  - repeat split; try done. intros n Hn.
    unfold Dijkstras_run_algorithm_on_f.
    rewrite (run_ended (S k) n) by (rewrite ?run_S; done || lia).
    rewrite run_S, Hs. done.
  - apply heappop_Some in Hpop as [Hperm _].
    destruct (safe_heap _ Hsafe c gl) as [_ Hreach]; [|done].
    rewrite Hperm. apply list_elem_of_here.
Qed.

(** *** Optimality, for an evaluator with fixed edge weights *)

Definition returns {A : Type} (o : outcome A) : bool :=
  match o with Return _ => true | Raise _ => false end.

(** The ground-truth cost of every edge can be subscripted. *)
Definition indexable_true_cost : Prop :=
  Forall (λ u, Forall (λ v, returns (subscript0 (tc u v)))
                 (neighbors (obj u))) vs.

Lemma true_cost_of_path_returns s t p cost :
  indexable_true_cost → s ∈ vs → walk_from_to s t p →
  ∃ c, true_cost_of_path tc cost p = Return c.
Proof.
  intros Htc. revert s cost.
  induction p as [|a [|b p] IH]; intros s cost Hs (Hh & Hl & Hw);
    [by eexists..|].
  injection Hh as <-. simpl in Hw. apply andb_prop_elim in Hw as [Hab Hw].
  apply bool_decide_unpack in Hab.
  unfold indexable_true_cost in Htc. rewrite Forall_forall in Htc.
  pose proof (Htc a Hs) as Ha. rewrite Forall_forall in Ha.
  specialize (Ha b Hab).
  change (true_cost_of_path tc cost (a :: b :: p)) with
    (match subscript0 (tc a b) with
     | Raise e => Raise e
     | Return c => true_cost_of_path tc (cost + c)%Z (b :: p)
     end).
  destruct (subscript0 (tc a b)) as [c|]; [|done].
  apply (IH b); [by eapply neighbor_in|]. by repeat split.
Qed.

Lemma vertices_at_snoc l p j v :
  vertices_at vs l = Return p → vs !! j = Some v →
  vertices_at vs (l ++ [j]) = Return (p ++ [v]).
Proof.
  revert p. induction l as [|k l IH]; intros p; simpl.
  - intros [= <-] ->. done.
  - destruct (vs !! k) as [a|]; [|done].
    destruct (vertices_at vs l) as [q|]; [|done].
    intros [= <-] Hj. by rewrite (IH q eq_refl Hj).
Qed.

(** [chain prev j l]: the predecessor links from [j] lead to an index
    without predecessor, and [l] lists them from that index to [j]. *)
Inductive chain (pv : list (option nat)) : nat → list nat → Prop :=
  | chain_root j : pv !! j = Some None → chain pv j [j]
  | chain_link j p l :
      pv !! j = Some (Some p) → chain pv p l → chain pv j (l ++ [j]).

Lemma chain_insert pv j l k o :
  chain pv j l → k ∉ l → chain (<[k:=o]> pv) j l.
Proof.
  induction 1 as [j Hj|j p l Hj Hc IH]; intros Hk.
  - apply chain_root. rewrite list_lookup_insert_ne; [done|].
    intros ->. apply Hk, list_elem_of_here.
  - apply chain_link with p.
    + rewrite list_lookup_insert_ne; [done|].
      intros ->. apply Hk, elem_of_app. right. apply list_elem_of_here.
    + apply IH. intros Hin. apply Hk, elem_of_app. by left.
Qed.

Lemma chain_bound pv j l : chain pv j l → Forall (λ k, k < length pv) l.
Proof.
  induction 1 as [j Hj|j p l Hj Hc IH].
  - repeat constructor. by eapply lookup_lt_Some.
  - apply Forall_app. split; [done|].
    repeat constructor. by eapply lookup_lt_Some.
Qed.

Lemma backtrack_loop_chain pv j l :
  chain pv j l → ∀ fuel path, length l ≤ fuel →
  backtrack_loop fuel j pv path = Some (Return (l ++ reverse path)).
Proof.
  induction 1 as [j Hj|j p l Hj Hc IH]; intros [|fuel] path Hlen;
    simpl in *; try lia.
  - by rewrite Hj, reverse_snoc.
  - rewrite length_app in Hlen. simpl in Hlen. lia.
  - rewrite length_app in Hlen. simpl in Hlen.
    rewrite Hj, IH by lia. by rewrite reverse_snoc, <-app_assoc.
Qed.

Lemma NoDup_bounded_length (l : list nat) n :
  NoDup l → Forall (λ k, k < n) l → length l ≤ n.
Proof.
  intros Hnd Hall.
  assert (l ⊆+ seq 0 n) as Hsub.
  { apply NoDup_submseteq; [done|]. intros k Hk.
    rewrite Forall_forall in Hall. apply elem_of_seq.
    specialize (Hall k Hk). lia. }
  apply submseteq_length in Hsub. by rewrite length_seq in Hsub.
Qed.

Lemma backtrack_indices_chain pv j l :
  chain pv j l → NoDup l → backtrack_indices j pv = Some (Return l).
Proof.
  intros Hc Hnd. unfold backtrack_indices.
  rewrite (backtrack_loop_chain pv j l Hc).
  - by rewrite app_nil_r.
  - pose proof (NoDup_bounded_length l (length pv) Hnd (chain_bound _ _ _ Hc)).
    lia.
Qed.

Section Optimal.
Variable wt : ref → ref → Z.
Hypothesis Hdet : ∀ u v w, (g u v f w).1.1.1 = wt u v.
Hypothesis Hwt : nonneg_weights vs wt.
Hypothesis Htc : indexable_true_cost.

(** [d] is the least cost of a walk from the start to [t]. *)
Definition dist_to (t : ref) (d : Z) : Prop :=
  (∃ p, walk_from_to st t p ∧ walk_cost wt p = d) ∧
  ∀ q, walk_from_to st t q → (d ≤ walk_cost wt q)%Z.

Lemma dist_to_unique t d1 d2 : dist_to t d1 → dist_to t d2 → d1 = d2.
Proof.
  intros [(p1 & Hp1 & <-) Hmin1] [(p2 & Hp2 & <-) Hmin2].
  specialize (Hmin1 p2 Hp2). specialize (Hmin2 p1 Hp1). lia.
Qed.

Lemma dist_to_start : dist_to st 0.
Proof.
  split.
  - exists [st]. split; [apply walk_from_to_single|done].
  - intros q Hq. exact (walk_cost_nonneg vs Hclosed wt st st q Hwt Hst Hq).
Qed.

(** The path that the predecessor links give for [v]. *)
Definition tree_path (ex : list bool) (pv : list (option nat))
  (v : ref) (d : Z) : Prop :=
  ∃ l p, chain pv (index (obj v)) l ∧
         Forall (λ j, ex !! j = Some true) l ∧ NoDup l ∧
         vertices_at vs l = Return p ∧
         walk_from_to st v p ∧ walk_cost wt p = d.

Lemma tree_path_explored ex pv v d k :
  tree_path ex pv v d → tree_path (<[k:=true]> ex) pv v d.
Proof.
  intros (l & p & Hc & Hall & Hnd & Hv & Hw & Hd).
  exists l, p. repeat split; try done; try apply Hw.
  eapply Forall_impl; [exact Hall|]. simpl. intros j Hj.
  destruct (decide (k = j)) as [->|Hne].
  - apply list_lookup_insert_eq. by eapply lookup_lt_Some.
  - by rewrite list_lookup_insert_ne.
Qed.

Lemma tree_path_prev ex pv v d k o :
  ex !! k = Some false →
  tree_path ex pv v d → tree_path ex (<[k:=o]> pv) v d.
Proof.
  intros Hk (l & p & Hc & Hall & Hnd & Hv & Hw & Hd).
  exists l, p. repeat split; try done; try apply Hw.
  apply chain_insert; [done|]. intros Hin.
  rewrite Forall_forall in Hall. specialize (Hall k Hin). congruence.
Qed.

Lemma tree_path_extend ex pv u v du :
  tree_path ex pv u du → u ∈ vs → v ∈ vs → v ∈ neighbors (obj u) →
  ex !! index (obj v) = Some false →
  pv !! index (obj v) = Some (Some (index (obj u))) →
  tree_path (<[index (obj v):=true]> ex) pv v (du + wt u v).
Proof.
  intros (l & p & Hc & Hall & Hnd & Hv & Hw & Hd) Hu Hvin Hedge Hex Hpv.
  exists (l ++ [index (obj v)]), (p ++ [v]). repeat split.
  - by eapply chain_link.
  - apply Forall_app. split.
    + eapply Forall_impl; [exact Hall|]. simpl. intros j Hj.
      destruct (decide (index (obj v) = j)) as [<-|Hne]; [congruence|].
      by rewrite list_lookup_insert_ne.
    + repeat constructor. apply list_lookup_insert_eq.
      by eapply lookup_lt_Some.
  - apply NoDup_app. repeat split; [done| |apply NoDup_singleton].
    intros j Hj ->%list_elem_of_singleton.
    rewrite Forall_forall in Hall. specialize (Hall _ Hj). congruence.
  - apply vertices_at_snoc; [done|]. by apply index_lookup.
  - destruct Hw as (Hh & _ & _). by destruct p.
  - by rewrite last_snoc.
  - destruct Hw as (_ & Hl & Hw). by eapply is_walk_snoc.
  - destruct Hw as (_ & Hl & _). rewrite (walk_cost_snoc wt p u v Hl).
    by rewrite Hd.
Qed.

Definition expl (s : state) (v : ref) : Prop :=
  explored s !! index (obj v) = Some true.

#[local] Instance expl_dec s v : Decision (expl s v).
Proof. unfold expl. apply _. Defined.

(** The edge [(u, v)] out of an explored [u] has been relaxed: [v]
    is explored or queued at a cost no larger than through [u]. *)
Definition edge_ok (s : state) (u v : ref) : Prop :=
  expl s v ∨
  ∃ c du, (c, v) ∈ heap_items (to_explore s) ∧ dist_to u du ∧
          (c ≤ du + wt u v)%Z.

(** The edge is still to be visited by the for loop. *)
Definition pending (s : state) (u v : ref) : Prop :=
  match ctl s with
  | AtFor _ current todo => u = current ∧ v ∈ todo
  | _ => False
  end.

(** The invariant of the search once the start vertex is explored. *)
Record opt (s : state) : Prop := {
  opt_start : expl s st;
  opt_goal : ¬ expl s gl;
  opt_heap_walk : ∀ c v, (c, v) ∈ heap_items (to_explore s) →
      ∃ p, walk_from_to st v p ∧ walk_cost wt p = c;
  opt_heap_min : ∀ c v, (c, v) ∈ heap_items (to_explore s) →
      ¬ expl s v →
      ∃ m, min_cost s !! index (obj v) = Some (Fin m) ∧ (m ≤ c)%Z;
  opt_min_cost : ∀ v m, v ∈ vs → ¬ expl s v →
      min_cost s !! index (obj v) = Some (Fin m) →
      (m, v) ∈ heap_items (to_explore s) ∧
      ∃ u du, u ∈ vs ∧ expl s u ∧
              prev s !! index (obj v) = Some (Some (index (obj u))) ∧
              v ∈ neighbors (obj u) ∧ dist_to u du ∧
              m = (du + wt u v)%Z;
  opt_explored : ∀ v, v ∈ vs → expl s v →
      ∃ d, tree_path (explored s) (prev s) v d ∧ dist_to v d;
  opt_edges : ∀ u v, u ∈ vs → expl s u → v ∈ neighbors (obj u) →
      pending s u v ∨ edge_ok s u v;
  opt_for : ∀ best_cost current todo,
      ctl s = AtFor best_cost current todo → dist_to current best_cost
}.

(** The state before the first pop. *)
Record initial (s : state) : Prop := {
  initial_explored : explored s = replicate (length vs) false;
  initial_min_cost : min_cost s = replicate (length vs) Inf;
  initial_prev : prev s = replicate (length vs) None;
  initial_heap : heap_items (to_explore s) = [(0%Z, st)];
  initial_ctl : ctl s = AtWhile
}.

Lemma init_initial w : initial (init np_random_seed search_params w).
Proof.
  rewrite init_search. constructor; simpl; try done.
  apply heap_singleton_items.
Qed.

(** A walk from the start to an unexplored vertex meets a queued
    entry that costs no more than the walk. *)
Lemma opt_frontier (s : state) t q :
  opt s → ctl s = AtWhile → walk_from_to st t q → ¬ expl s t →
  ∃ c b, (c, b) ∈ heap_items (to_explore s) ∧
         (c ≤ walk_cost wt q)%Z.
Proof.
  intros Hopt Hctl Hq Ht.
  destruct (walk_crossing vs Hclosed wt (expl s) st t q Hwt _ Hst Hq
              (opt_start s Hopt) Ht)
    as (q' & a & b & Hq' & Ha & Hb & Hain & Hedge & Hcost).
  destruct (opt_edges s Hopt a b Hain Ha Hedge) as [Hpend|[Hexp|Hok]].
  - unfold pending in Hpend. by rewrite Hctl in Hpend.
  - done.
  - destruct Hok as (c & da & Hin & [_ Hda] & Hle).
    exists c, b. split; [done|]. specialize (Hda q' Hq'). lia.
Qed.

(** The cost popped for an unexplored vertex is its distance, and
    the predecessor links give a path of that cost. *)
Lemma pop_optimal (s : state) c v h' :
  safe s → opt s ∨ initial s → ctl s = AtWhile →
  heappop (to_explore s) = Some ((c, v), h') →
  explored s !! index (obj v) = Some false →
  dist_to v c ∧
  tree_path (<[index (obj v):=true]> (explored s)) (prev s) v c.
Proof.
  intros Hsafe Hinv Hctl Hpop Hex.
  apply heappop_Some in Hpop as [Hperm Hmin].
  assert ((c, v) ∈ heap_items (to_explore s)) as Hin
    by (rewrite Hperm; apply list_elem_of_here).
  destruct (safe_heap s Hsafe c v Hin) as [Hv _].
  assert (¬ expl s v) as Hnex by (unfold expl; congruence).
  destruct Hinv as [Hopt|Hini].
  - assert (dist_to v c) as Hdist.
    { split; [by apply (opt_heap_walk s Hopt)|].
      intros q Hq.
      destruct (opt_frontier s v q Hopt Hctl Hq Hnex) as (c' & b & Hb & Hle).
      rewrite Forall_forall in Hmin. specialize (Hmin _ Hb).
      simpl in Hmin. lia. }
    split; [done|].
    destruct (opt_heap_min s Hopt c v Hin Hnex) as (m & Hm & Hmc).
    destruct (opt_min_cost s Hopt v m Hv Hnex Hm)
      as (Hmin' & u & du & Hu & Hexu & Hpv & Hedge & Hdu & ->).
    rewrite Forall_forall in Hmin. specialize (Hmin _ Hmin').
    simpl in Hmin.
    destruct (opt_explored s Hopt u Hu Hexu) as (d & Htree & Hd).
    rewrite (dist_to_unique u d du Hd Hdu) in Htree.
    replace c with (du + wt u v)%Z by lia.
    by apply tree_path_extend with (u := u).
  - rewrite (initial_heap s Hini) in Hin.
    apply list_elem_of_singleton in Hin. injection Hin as -> ->.
    split; [apply dist_to_start|].
    exists [index (obj st)], [st]. repeat split; try done.
    + apply chain_root. rewrite (initial_prev s Hini).
      apply lookup_replicate_2. by apply index_lt.
    + repeat constructor. apply list_lookup_insert_eq.
      by eapply lookup_lt_Some.
    + apply NoDup_singleton.
    + simpl. by rewrite (index_lookup vs Hstable st Hst).
Qed.

Lemma edge_ok_mono (s s' : state) u v :
  (∀ x, expl s x → expl s' x) →
  (∀ c x, (c, x) ∈ heap_items (to_explore s) →
          expl s' x ∨ (c, x) ∈ heap_items (to_explore s')) →
  edge_ok s u v → edge_ok s' u v.
Proof.
  intros Hex Hheap [Hv|(c & du & Hin & Hdu & Hle)]; [left; by apply Hex|].
  destruct (Hheap c v Hin) as [?|?]; [by left|]. right. by exists c, du.
Qed.

Lemma expl_insert (ex : list bool) j k :
  <[j:=true]> ex !! k = Some true →
  ex !! k = Some true ∨ (k = j ∧ j < length ex).
Proof.
  destruct (decide (j = k)) as [->|Hne].
  - intros Hk. right. split; [done|].
    apply lookup_lt_Some in Hk. by rewrite length_insert in Hk.
  - rewrite list_lookup_insert_ne by done. auto.
Qed.

Lemma expl_insert_mono (ex : list bool) j k :
  ex !! k = Some true → <[j:=true]> ex !! k = Some true.
Proof.
  intros Hk. destruct (decide (j = k)) as [->|Hne].
  - apply list_lookup_insert_eq. by eapply lookup_lt_Some.
  - by rewrite list_lookup_insert_ne.
Qed.

(** The invariant after a pop that found a stale entry. *)
Lemma opt_pop_stale (s : state) c v h' :
  opt s → ctl s = AtWhile →
  heap_items (to_explore s) ≡ₚ (c, v) :: heap_items h' →
  expl s v →
  opt (State (self_params s) (explored s) (min_cost s) (prev s) h'
         (i s) (exe s) (world s) AtWhile).
Proof.
  intros Hopt Hctl Hperm Hv.
  assert (∀ c' x, (c', x) ∈ heap_items h' →
                  (c', x) ∈ heap_items (to_explore s)) as Hsub.
  { intros c' x Hx. rewrite Hperm. by apply list_elem_of_further. }
  assert (∀ c' x, (c', x) ∈ heap_items (to_explore s) →
                  x = v ∨ (c', x) ∈ heap_items h') as Hrest.
  { intros c' x Hx. rewrite Hperm in Hx.
    apply elem_of_cons in Hx as [[= -> ->]|?]; auto. }
  constructor; unfold expl in *; simpl.
  - apply Hopt.
  - apply Hopt.
  - intros c' x Hx. apply (opt_heap_walk s Hopt), Hsub, Hx.
  - intros c' x Hx. apply (opt_heap_min s Hopt), Hsub, Hx.
  - intros x m Hx Hnex Hm.
    destruct (opt_min_cost s Hopt x m Hx Hnex Hm) as [Hin Hu].
    split; [|done]. destruct (Hrest _ _ Hin) as [->|?]; done.
  - apply Hopt.
  - intros u x Hu Hexu Hedge. right.
    destruct (opt_edges s Hopt u x Hu Hexu Hedge) as [Hp|Hok].
    + unfold pending in Hp. by rewrite Hctl in Hp.
    + revert Hok. apply edge_ok_mono; [done|]. simpl.
      intros c' y Hy. destruct (Hrest _ _ Hy) as [->|?]; auto.
  - done.
Qed.

(** The invariant after a pop that explores a vertex other than the
    goal. *)
Lemma opt_pop_fresh (s : state) c v h' :
  safe s → opt s ∨ initial s → ctl s = AtWhile →
  heappop (to_explore s) = Some ((c, v), h') →
  explored s !! index (obj v) = Some false →
  index (obj v) ≠ index (obj gl) →
  opt (set_ctl (popped s h' v) (AtFor c v (neighbors (obj v)))).
Proof.
  intros Hsafe Hinv Hctl Hpop Hlk Hng.
  destruct (pop_optimal s c v h' Hsafe Hinv Hctl Hpop Hlk)
    as [Hdist Htree].
  apply heappop_Some in Hpop as [Hperm Hmin].
  assert ((c, v) ∈ heap_items (to_explore s)) as Hin
    by (rewrite Hperm; apply list_elem_of_here).
  destruct (safe_heap s Hsafe c v Hin) as [Hv _].
  assert (∀ c' x, (c', x) ∈ heap_items h' →
                  (c', x) ∈ heap_items (to_explore s)) as Hsub.
  { intros c' x Hx. rewrite Hperm. by apply list_elem_of_further. }
  assert (∀ c' x, (c', x) ∈ heap_items (to_explore s) →
                  x = v ∨ (c', x) ∈ heap_items h') as Hrest.
  { intros c' x Hx. rewrite Hperm in Hx.
    apply elem_of_cons in Hx as [[= -> ->]|?]; auto. }
  assert (<[index (obj v):=true]> (explored s) !! index (obj v)
          = Some true) as Hnew.
  { apply list_lookup_insert_eq. by eapply lookup_lt_Some. }
  destruct Hinv as [Hopt|Hini].
  - constructor; unfold expl; simpl.
    + apply expl_insert_mono, Hopt.
    + rewrite list_lookup_insert_ne by done. apply Hopt.
    + intros c' x Hx. apply (opt_heap_walk s Hopt), Hsub, Hx.
    + intros c' x Hx Hnex. apply (opt_heap_min s Hopt); [by apply Hsub|].
      intros Hex. by apply Hnex, expl_insert_mono.
    + intros x m Hx Hnex Hm.
      assert (¬ expl s x) as Hnex'
        by (intros Hex; by apply Hnex, expl_insert_mono).
      destruct (opt_min_cost s Hopt x m Hx Hnex' Hm)
        as (Hmx & u & du & Hu & Hexu & Hrest').
      split.
      * destruct (Hrest _ _ Hmx) as [->|?]; [|done]. by destruct Hnex.
      * exists u, du. split; [done|]. split; [|done].
        by apply expl_insert_mono.
    + intros x Hx Hex. apply expl_insert in Hex as [Hex|[Heq _]].
      * destruct (opt_explored s Hopt x Hx Hex) as (d & Ht & Hd).
        exists d. split; [|done]. by apply tree_path_explored.
      * apply (index_inj vs Hstable) in Heq as ->; [|done..].
        by exists c.
    + intros u x Hu Hex Hedge.
      destruct (decide (u = v)) as [->|Hne]; [left; by split|].
      right. apply expl_insert in Hex as [Hex|[Heq _]].
      * destruct (opt_edges s Hopt u x Hu Hex Hedge) as [Hp|Hok].
        -- unfold pending in Hp. by rewrite Hctl in Hp.
        -- revert Hok. apply edge_ok_mono.
           ++ intros y. unfold expl. simpl. apply expl_insert_mono.
           ++ simpl. intros c' y Hy.
              destruct (Hrest _ _ Hy) as [->|?]; [left|by right].
              done.
      * by apply (index_inj vs Hstable) in Heq.
    + by intros ? ? ? [= <- <- <-].
  - constructor; unfold expl; simpl.
    + rewrite (initial_heap s Hini) in Hin.
      apply list_elem_of_singleton in Hin. by injection Hin as -> ->.
    + rewrite list_lookup_insert_ne by done.
      rewrite (initial_explored s Hini).
      intros [[=] _]%lookup_replicate.
    + intros c' x Hx%Hsub. rewrite (initial_heap s Hini) in Hx.
      apply list_elem_of_singleton in Hx. injection Hx as -> ->.
      exists [st]. split; [apply walk_from_to_single|done].
    + intros c' x Hx. exfalso.
      assert (length (heap_items (to_explore s)) =
              S (length (heap_items h'))) as Hlen by (by rewrite Hperm).
      rewrite (initial_heap s Hini) in Hlen.
      destruct (heap_items h'); [by apply elem_of_nil in Hx|done].
    + intros x m Hx _. rewrite (initial_min_cost s Hini).
      by intros [[=] _]%lookup_replicate.
    + intros x Hx Hex. apply expl_insert in Hex as [Hex|[Heq _]].
      * rewrite (initial_explored s Hini) in Hex.
        by apply lookup_replicate in Hex as [[=] _].
      * apply (index_inj vs Hstable) in Heq as ->; [|done..].
        by exists c.
    + intros u x Hu Hex Hedge. left.
      apply expl_insert in Hex as [Hex|[Heq _]].
      * rewrite (initial_explored s Hini) in Hex.
        by apply lookup_replicate in Hex as [[=] _].
      * by apply (index_inj vs Hstable) in Heq as ->.
    + by intros ? ? ? [= <- <- <-].
Qed.

Lemma opt_for_done (s : state) best_cost current :
  opt s → ctl s = AtFor best_cost current [] → opt (set_ctl s AtWhile).
Proof.
  intros Hopt Hctl. constructor; unfold expl; simpl; try apply Hopt.
  - intros u x Hu Hex Hedge. right.
    destruct (opt_edges s Hopt u x Hu Hex Hedge) as [Hp|Hok]; [|done].
    unfold pending in Hp. rewrite Hctl in Hp.
    destruct Hp as [_ Hp]. by apply elem_of_nil in Hp.
  - done.
Qed.

Lemma opt_edges_for (s s' : state) best_cost current nb todo :
  ctl s = AtFor best_cost current (nb :: todo) →
  ctl s' = AtFor best_cost current todo →
  (∀ x, expl s x → expl s' x) →
  (∀ c x, (c, x) ∈ heap_items (to_explore s) →
          (c, x) ∈ heap_items (to_explore s')) →
  edge_ok s' current nb →
  ∀ u x, pending s u x ∨ edge_ok s u x →
         pending s' u x ∨ edge_ok s' u x.
Proof.
  intros Hctl Hctl' Hex Hheap Hnb u x [Hp|Hok].
  - unfold pending in *. rewrite Hctl in Hp. rewrite Hctl'.
    destruct Hp as [-> [->|Hx]%elem_of_cons]; [by right|by left].
  - right. revert Hok. apply edge_ok_mono; [done|]. auto.
Qed.

Lemma cost_lt_false a m : cost_lt a m = false → ∃ c, m = Fin c ∧ (c ≤ a)%Z.
Proof.
  destruct m as [c|]; simpl; [|done].
  intros Hc%bool_decide_eq_false. exists c. split; [done|lia].
Qed.

Lemma cost_lt_true a c : cost_lt a (Fin c) = true → (a < c)%Z.
Proof. simpl. by intros Hc%bool_decide_eq_true. Qed.

(** The invariant across one iteration of the for loop. *)
Lemma opt_for_step (s : state) best_cost current nb todo :
  safe s → opt s → ctl s = AtFor best_cost current (nb :: todo) →
  opt (for_step s best_cost current nb todo) ∧
  ctl (for_step s best_cost current nb todo) =
    AtFor best_cost current todo.
Proof.
  intros Hsafe Hopt Hctl.
  destruct (safe_for s Hsafe _ _ _ Hctl)
    as (Hcur & _ & Hexc & done & Hdone).
  assert (nb ∈ neighbors (obj current)) as Hnb.
  { rewrite Hdone. apply elem_of_app. right. apply list_elem_of_here. }
  assert (nb ∈ vs) as Hnbv by (by eapply neighbor_in).
  pose proof (opt_for s Hopt _ _ _ Hctl) as Hbest.
  pose proof (Hdet current nb (world s)) as Hcost.
  pose proof (nonneg_weights_edge vs wt current nb Hwt Hcur Hnb) as Hpos.
  pose proof (index_lt vs Hstable nb Hnbv) as Hlt.
  pose proof (safe_explored s Hsafe) as Hlex.
  pose proof (safe_min_cost s Hsafe) as Hlmc.
  pose proof (safe_prev s Hsafe) as Hlpv.
  unfold for_step, distance. rewrite (safe_params s Hsafe). simpl.
  destruct (g current nb f (world s)) as [[[cost xs] ys] w'] eqn:Hg.
  simpl in Hcost. subst cost. rewrite bool_decide_eq_true_2 by done.
  destruct (explored s !! index (obj nb)) as [[|]|] eqn:Hlk;
    [| |apply lookup_ge_None in Hlk; lia].
  { (* the neighbour is explored already *)
    split; [|done].
    match goal with
    | |- opt ?s' =>
        pose proof (opt_edges_for s s' best_cost current nb todo Hctl
                      eq_refl) as Hedges
    end.
    constructor; unfold expl; simpl; try apply Hopt.
    - intros u x Hu Hex Hedge.
      apply Hedges; [done|done|by left|].
      by apply (opt_edges s Hopt).
    - by intros ? ? ? [= <- <- <-]. }
  destruct (min_cost s !! index (obj nb)) as [m|] eqn:Hm;
    [|apply lookup_ge_None in Hm; lia].
  assert (¬ expl s nb) as Hnex by (unfold expl; congruence).
  destruct (cost_lt (best_cost + wt current nb) m) eqn:Hlt'.
  - (* relaxation *)
    split; [|done].
    assert (∀ c x, (c, x) ∈ heap_items (to_explore s) →
              (c, x) ∈ heap_items
                (heappush (to_explore s)
                   ((best_cost + wt current nb)%Z, nb))) as Hgrow.
    { intros c x Hx. rewrite heappush_items.
      by apply list_elem_of_further. }
    assert (((best_cost + wt current nb)%Z, nb) ∈
              heap_items
                (heappush (to_explore s)
                   ((best_cost + wt current nb)%Z, nb))) as Hhere.
    { rewrite heappush_items. apply list_elem_of_here. }
    match goal with
    | |- opt ?s' =>
        pose proof (opt_edges_for s s' best_cost current nb todo Hctl
                      eq_refl) as Hedges
    end.
    constructor; unfold expl; simpl; try apply Hopt.
    + intros c x. rewrite heappush_items.
      intros [[= -> ->]|Hx]%elem_of_cons;
        [|by apply (opt_heap_walk s Hopt)].
      destruct Hbest as [(p & Hp & Hpc) _].
      exists (p ++ [nb]). split; [by eapply walk_from_to_snoc|].
      destruct Hp as (_ & Hl & _).
      by rewrite (walk_cost_snoc wt p current nb Hl), Hpc.
    + intros c x. rewrite heappush_items.
      intros [[= -> ->]|Hx]%elem_of_cons Hnx.
      * exists (best_cost + wt current nb)%Z. split; [|lia].
        apply list_lookup_insert_eq. lia.
      * destruct (opt_heap_min s Hopt c x Hx Hnx) as (m' & Hm' & Hle).
        destruct (decide (index (obj nb) = index (obj x))) as [Heq|Hne].
        -- exists (best_cost + wt current nb)%Z.
           rewrite <-Heq. split; [apply list_lookup_insert_eq; lia|].
           rewrite <-Heq, Hm in Hm'. injection Hm' as ->.
           apply cost_lt_true in Hlt'. lia.
        -- exists m'. by rewrite list_lookup_insert_ne.
    + intros x m' Hx Hnx.
      destruct (decide (index (obj nb) = index (obj x))) as [Heq|Hne].
      * apply (index_inj vs Hstable) in Heq as <-; [|done..].
        rewrite list_lookup_insert_eq by lia. intros [= <-].
        split; [done|].
        exists current, best_cost.
        split; [done|]. split; [done|].
        split; [apply list_lookup_insert_eq; lia|]. done.
      * rewrite !list_lookup_insert_ne by done. intros Hm'.
        destruct (opt_min_cost s Hopt x m' Hx Hnx Hm') as [Hin Hu].
        split; [by apply Hgrow|done].
    + intros x Hx Hex.
      destruct (opt_explored s Hopt x Hx Hex) as (d & Ht & Hd).
      exists d. split; [|done]. by apply tree_path_prev.
    + intros u x Hu Hex Hedge.
      apply Hedges; [done|done| |by apply (opt_edges s Hopt)].
      right. exists (best_cost + wt current nb)%Z, best_cost. done.
    + by intros ? ? ? [= <- <- <-].
  - (* no improvement *)
    split; [|done].
    apply cost_lt_false in Hlt' as (c & -> & Hle).
    match goal with
    | |- opt ?s' =>
        pose proof (opt_edges_for s s' best_cost current nb todo Hctl
                      eq_refl) as Hedges
    end.
    constructor; unfold expl; simpl; try apply Hopt.
    + intros u x Hu Hex Hedge.
      apply Hedges; [done|done| |by apply (opt_edges s Hopt)].
      right. exists c, best_cost.
      destruct (opt_min_cost s Hopt nb c Hnbv Hnex Hm) as [Hin _].
      done.
    + by intros ? ? ? [= <- <- <-].
Qed.

(** The invariant across any step that keeps the run going. *)
Lemma opt_step (s : state) :
  safe s → opt s ∨ initial s → running s → running (step s) →
  opt (step s) ∨ initial (step s).
Proof.
  intros Hsafe Hinv Hrun Hrun'. left. revert Hrun'. unfold step.
  assert (ctl s = AtWhile →
          running (while_step s) → opt (while_step s)) as Hwhile.
  { intros Hctl. unfold while_step.
    destruct (heappop (to_explore s)) as [[[c v] h']|] eqn:Hpop;
      [|by unfold running].
    pose proof Hpop as [Hperm Hmin]%heappop_Some.
    destruct (explored s !! index (obj v)) as [[|]|] eqn:Hlk;
      [| |by unfold running].
    - intros _. destruct Hinv as [Hopt|Hini].
      + by apply (opt_pop_stale s c v h').
      + rewrite (initial_explored s Hini) in Hlk.
        by apply lookup_replicate in Hlk as [[=] _].
    - assert (goal (self_params s) = Some gl) as ->
        by (by rewrite (safe_params s Hsafe)).
      case_bool_decide as Hg.
      + intros Hr. by apply found_goal_not_running in Hr.
      + intros _. by apply (opt_pop_fresh s c v h'). }
  destruct (ctl s) as [|best current [|nb todo]| |r] eqn:Hctl.
  - by apply Hwhile.
  - intros _. destruct Hinv as [Hopt|Hini].
    + by eapply opt_for_done.
    + by rewrite (initial_ctl s Hini) in Hctl.
  - intros _. destruct Hinv as [Hopt|Hini].
    + by apply opt_for_step.
    + by rewrite (initial_ctl s Hini) in Hctl.
  - by unfold running in Hrun; rewrite Hctl in Hrun.
  - by unfold running in Hrun; rewrite Hctl in Hrun.
Qed.

(** Popping the goal: the path is reconstructed and returned. *)
Lemma found_goal_result (s : state) c h' :
  safe s → opt s ∨ initial s → ctl s = AtWhile →
  heappop (to_explore s) = Some ((c, gl), h') →
  explored s !! index (obj gl) = Some false →
  ∃ p, found_goal obj (popped s h' gl) c gl =
         Finished (Return (Fin c, p)) ∧
       walk_from_to st gl p ∧ walk_cost wt p = c ∧ dist_to gl c.
Proof.
  intros Hsafe Hinv Hctl Hpop Hlk.
  destruct (pop_optimal s c gl h' Hsafe Hinv Hctl Hpop Hlk)
    as [Hdist (l & p & Hchain & Hall & Hnd & Hvs & Hwalk & Hcost)].
  exists p. split; [|done].
  unfold found_goal, popped. simpl.
  rewrite (backtrack_indices_chain _ _ l Hchain Hnd).
  rewrite (safe_params s Hsafe). simpl. rewrite Hvs.
  destruct (true_cost_of_path_returns st gl p 0 Htc Hst Hwalk)
    as [c' ->].
  done.
Qed.

(** With the goal in reach the search returns the least cost of a
    walk from start to goal, and a walk of that cost. *)
Lemma reachable_goal_run w :
  reachable st gl →
  ∃ k c p,
    (∀ n, k < n →
       Dijkstras_run_algorithm_on_f obj f np_random_seed n
         search_params w =
       Some (Return (exe (run k search_params w), (Fin c, p)))) ∧
    walk_from_to st gl p ∧ walk_cost wt p = c ∧
    ∀ q, walk_from_to st gl q → (c ≤ walk_cost wt q)%Z.
Proof.
  intros [q0 Hq0].
  destruct (safe_run_ends (λ s, opt s ∨ initial s)
              (λ s Hs Hi Hr Hr', opt_step s Hs Hi Hr Hr')
              (init np_random_seed search_params w) (init_safe w)
              (or_intror (init_initial w)))
    as (k & Hsafe & Hinv & Hrun & Hend); [by rewrite init_search|].
  fold (run k search_params w) in *.
  destruct (safe_step _ Hsafe Hrun)
    as [(_ & Hrun' & _)|[(Hc & Hnil & Hs)|(c & h' & Hc & Hpop & Hex & Hs)]].
  - done.
  - exfalso. destruct Hinv as [Hopt|Hini].
    + destruct (opt_frontier _ gl q0 Hopt Hc Hq0 (opt_goal _ Hopt))
        as (c & b & Hin & _).
      rewrite Hnil in Hin. by apply elem_of_nil in Hin.
    + by rewrite (initial_heap _ Hini) in Hnil.
  - destruct (found_goal_result _ c h' Hsafe Hinv Hc Hpop Hex)
      as (p & Hfound & Hwalk & Hcost & Hdist).
    exists k, c, p. split; [|split; [done|split; [done|apply Hdist]]].
    intros n Hn. unfold Dijkstras_run_algorithm_on_f.
    rewrite (run_ended (S k) n) by (rewrite ?run_S; done || lia).
    rewrite run_S, Hs, Hfound. done.
Qed.
End Optimal.
End Search.
End DijkstrasTheory.

Lemma LinearScanRandGap_run_params {Y W : Type} (f : list Q → W → Y * W)
  (np_random_randint : Z → Z → W → Z * W) n params w :
  let s := LinearScanRandGap_run_algorithm_on_f f np_random_randint n params w in
  rg_name (pull_params s) = rg_name params ∧
  rg_x_path_orig (pull_params s) = rg_x_path_orig params ∧
  pull_params s =
    pull_params (LinearScanRandGap_run_algorithm_on_f f np_random_randint 0
                   params w).
Proof.
  unfold LinearScanRandGap_run_algorithm_on_f.
  case_bool_decide; [|done].
  destruct (np_random_randint _ _ w) as [k w1].
  destruct (np_min (rg_x_path_orig params)),
    (np_max (rg_x_path_orig params)); try done.
  unfold Algorithm_run_algorithm_on_f. by rewrite !pull_steps_params.
Qed.

Lemma LinearScanRandGap_run_trace {Y W : Type} (f : list Q → W → Y * W)
  (np_random_randint : Z → Z → W → Z * W) n params w :
  let e :=
    pull_exe
      (LinearScanRandGap_run_algorithm_on_f f np_random_randint n params w) in
  let e' :=
    pull_exe
      (LinearScanRandGap_run_algorithm_on_f f np_random_randint (S n) params
         w) in
  length (path_x e) = length (path_y e) ∧
  ∃ xs ys, e' = extend_path e xs ys ∧ length xs = length ys.
Proof.
  unfold LinearScanRandGap_run_algorithm_on_f.
  case_bool_decide; [|by split; [|exists [], []]].
  destruct (np_random_randint _ _ w) as [k w1].
  destruct (np_min (rg_x_path_orig params)),
    (np_max (rg_x_path_orig params));
    try (by split; [|exists [], []]).
  split; [apply pull_run_lengths|apply pull_run_extends].
Qed.

(** ** Example inputs *)

(** Four vertices: 0 → 1, 0 → 2, 1 → 0, 1 → 2, 2 → 3. *)
Definition ex_obj (r : ref) : Vertex :=
  match r with
  | 0 => MkVertex 0 [1; 2]
  | 1 => MkVertex 1 [0; 2]
  | 2 => MkVertex 2 [3]
  | _ => MkVertex 3 []
  end.

Definition ex_vertices : list ref := [0; 1; 2; 3].

Definition ex_wt (u v : ref) : Z :=
  match u, v with
  | 0, 1 => 1%Z
  | 0, 2 => 4%Z
  | 1, 2 => 1%Z
  | 2, 3 => 1%Z
  | _, _ => 7%Z
  end.

(** An oracle that answers the weight of the queried edge and counts the
    queries in the world. *)
Definition ex_oracle : @oracle (ref * ref) Z nat :=
  λ x w, (ex_wt x.1 x.2, S w).

(** An evaluator that asks the oracle once per edge. *)
Definition ex_cost_func (u v : ref) (f : @oracle (ref * ref) Z nat) (w : nat)
  : (Z * list (ref * ref) * list Z) * nat :=
  let '(y, w') := f (u, v) w in (y, [(u, v)], [y], w').

Definition ex_true_cost (u v : ref) : pyval := PySeq [ex_wt u v].

Definition ex_params (start goal : ref)
  : @Dijkstras_params (ref * ref) Z nat :=
  DijkstrasParams "Dijkstras" (Some start) (Some goal) (Some ex_vertices)
    (CostFunc ex_cost_func) ex_true_cost.

(** The same graph with a negative answer for the edge 1 → 2. *)
Definition ex_neg_oracle : @oracle (ref * ref) Z nat :=
  λ x w, (match x with (1, 2) => (-1)%Z | _ => ex_wt x.1 x.2 end, S w).

(** A scan oracle and the only draw [randint(2, 3)] can make. *)
Definition ex_square (x : list Q) (w : nat) : Q * nat :=
  (match x with a :: _ => Qred (a * a) | [] => 0%Q end, S w).

Definition ex_randint (low high : Z) (w : nat) : Z * nat := (low, S w).

(** The search from 0 to 3 on the example graph: the cheapest walk is
    0, 1, 2, 3 at cost 3; the evaluator was called on five edges, among
    them 1 → 0 whose target was explored. *)
Example ex_search_0_3 :
  Dijkstras_run_algorithm_on_f (H := list_heapq) ex_obj ex_oracle id 13
    (ex_params 0 3) 0 =
  Some (Return
          (Namespace [(0, 1); (0, 2); (1, 0); (1, 2); (2, 3)]
             [1%Z; 4%Z; 7%Z; 1%Z; 1%Z],
           (Fin 3, [0; 1; 2; 3]))).
Proof. reflexivity. Qed.

(** With [true_cost] left out of the bundle its default returns the
    number 0, which cannot be subscripted: the search finds the goal and
    then raises [TypeError] while reporting the true cost of the path. *)
Example ex_default_true_cost_raises :
  ∃ p,
    Dijkstras_set_params
      (DijkstrasRawParams None (Some 0) (Some 3) (Some ex_vertices)
         (Some ex_cost_func) None) = Return p ∧
    Dijkstras_run_algorithm_on_f (H := list_heapq) ex_obj ex_oracle id 13
      p 0 = Some (Raise TypeError).
Proof. eexists. split; reflexivity. Qed.

(** With [cost_func] left out its default takes two arguments and is
    called with three: the first evaluation raises [TypeError]. *)
Example ex_default_cost_func_raises :
  ∃ p,
    Dijkstras_set_params
      (DijkstrasRawParams None (Some 0) (Some 3) (Some ex_vertices)
         None (Some ex_true_cost)) = Return p ∧
    Dijkstras_run_algorithm_on_f (H := list_heapq) ex_obj ex_oracle id 2
      p 0 = Some (Raise TypeError).
Proof. eexists. split; reflexivity. Qed.

(** * The claims *)




(** The example graph with a negative answer for the edge 2 → 3. *)
Definition ex_neg_2_3_oracle : @oracle (ref * ref) Z nat :=
  λ x w, (match x with (2, 3) => (-1)%Z | _ => ex_wt x.1 x.2 end, S w).

(** C2 (counterexample). On the example graph the goal 0 cannot be
    reached from the start 2, yet the run does not return infinite cost
    and the empty path: with an evaluator that answers -1 on the edge
    2 → 3 it raises [AssertionError] at the first evaluation, and with
    the default [cost_func] it raises [TypeError] there. *)
Lemma unreachable_goal_run_raises :
  ¬ reachable ex_obj 2 0 ∧
  (∀ n, 2 ≤ n →
     Dijkstras_run_algorithm_on_f (H := list_heapq) ex_obj ex_neg_2_3_oracle
       id n (ex_params 2 0) 0 = Some (Raise AssertionError)) ∧
  (∀ n, 2 ≤ n →
     Dijkstras_run_algorithm_on_f (H := list_heapq) ex_obj ex_oracle id n
       (DijkstrasParams "Dijkstras" (Some 2) (Some 0) (Some ex_vertices)
          DefaultCostFunc ex_true_cost) 0 = Some (Raise TypeError)).
Proof.
  split; [|split].
  - intros Hreach.
    assert (0 ∈ [2; 3]) as Hin.
    { apply (reachable_in ex_obj [2; 3]) with (s := 2);
        [decide_by_compute|decide_by_compute|exact Hreach]. }
    revert Hin. decide_by_compute.
  - intros n Hn. unfold Dijkstras_run_algorithm_on_f.
    rewrite (run_ended ex_obj ex_neg_2_3_oracle id 2 n);
      [reflexivity|vm_compute; intros []|done].
  - intros n Hn. unfold Dijkstras_run_algorithm_on_f.
    rewrite (run_ended ex_obj ex_oracle id 2 n);
      [reflexivity|vm_compute; intros []|done].
Qed.

(** C2 (amended). On a well-formed graph (stable indices, every
    neighbour listed, start and goal listed) with a caller's evaluator
    that returns non-negative costs, if the goal cannot be reached from
    the start the search comes to the loop test with an empty frontier
    and from then on the run has returned, as an ordinary value, the
    trace with infinite cost and the empty path. *)
Theorem Dijkstras_no_path_returns_inf {X Y W : Type} `{Heapq}
  (obj : ref → Vertex) (f : @oracle X Y W) (np_random_seed : W → W)
  (vs : list ref) (st gl : ref) (nm : string)
  (g : ref → ref → @oracle X Y W → W → (Z * list X * list Y) * W)
  (tc : ref → ref → pyval) (w : W) :
  stable_indices obj vs →
  closed_under_neighbors obj vs →
  st ∈ vs → gl ∈ vs →
  (∀ u v w', u ∈ vs → v ∈ neighbors (obj u) → (0 ≤ (g u v f w').1.1.1)%Z) →
  ¬ reachable obj st gl →
  ∃ k,
    ctl (Dijkstras_run obj f np_random_seed k
           (DijkstrasParams nm (Some st) (Some gl) (Some vs) (CostFunc g) tc)
           w) = AtWhile ∧
    heap_items
      (to_explore
         (Dijkstras_run obj f np_random_seed k
            (DijkstrasParams nm (Some st) (Some gl) (Some vs) (CostFunc g) tc)
            w)) = [] ∧
    ∀ n, k < n →
      Dijkstras_run_algorithm_on_f obj f np_random_seed n
        (DijkstrasParams nm (Some st) (Some gl) (Some vs) (CostFunc g) tc) w =
      Some (Return
              (exe (Dijkstras_run obj f np_random_seed k
                      (DijkstrasParams nm (Some st) (Some gl) (Some vs)
                         (CostFunc g) tc) w),
               (Inf, []))).
Proof.
  intros Hstable Hclosed Hst Hgl Hnonneg Hunreach.
  by apply (unreachable_goal_run obj f np_random_seed vs st gl nm g tc).
Qed.

Lemma Dijkstras_no_path_returns_inf_witness :
  ∃ k,
    ctl (Dijkstras_run (H := list_heapq) ex_obj ex_oracle id k
           (ex_params 2 0) 0) = AtWhile ∧
    heap_items
      (to_explore
         (Dijkstras_run (H := list_heapq) ex_obj ex_oracle id k
            (ex_params 2 0) 0)) = [] ∧
    ∀ n, k < n →
      Dijkstras_run_algorithm_on_f (H := list_heapq) ex_obj ex_oracle id n
        (ex_params 2 0) 0 =
      Some (Return
              (exe (Dijkstras_run (H := list_heapq) ex_obj ex_oracle id k
                      (ex_params 2 0) 0),
               (Inf, []))).
Proof.
  apply (Dijkstras_no_path_returns_inf (H := list_heapq) ex_obj ex_oracle id
           ex_vertices 2 0 "Dijkstras" ex_cost_func ex_true_cost 0).
  - reflexivity.
  - decide_by_compute.
  - decide_by_compute.
  - decide_by_compute.
  - intros u v w' Hu Hv. simpl. unfold ex_wt. repeat case_match; lia.
  - intros Hreach.
    assert (0 ∈ [2; 3]) as Hin.
    { apply (reachable_in ex_obj [2; 3]) with (s := 2);
        [decide_by_compute|decide_by_compute|exact Hreach]. }
    revert Hin. decide_by_compute.
Defined.

(** C3. With a caller's evaluator: when the evaluation made at a for-loop
    iteration returns a negative cost, no result has been produced up to
    there and the run has raised [AssertionError] from the next step on;
    an [AssertionError] only ever comes from such an evaluation; and with
    an evaluator that never returns a negative cost it does not occur. *)
Theorem Dijkstras_negative_cost_raises {X Y W : Type} `{Heapq}
  (obj : ref → Vertex) (f : @oracle X Y W) (np_random_seed : W → W)
  (nm : string) (st gl : option ref) (vs : option (list ref))
  (g : ref → ref → @oracle X Y W → W → (Z * list X * list Y) * W)
  (tc : ref → ref → pyval) (w : W) (n : nat) :
  let params := DijkstrasParams nm st gl vs (CostFunc g) tc in
  let run := λ k, Dijkstras_run obj f np_random_seed k params w in
  let result :=
    λ k, Dijkstras_run_algorithm_on_f obj f np_random_seed k params w in
  (∀ best_cost current neighbor todo,
     ctl (run n) = AtFor best_cost current (neighbor :: todo) →
     ((g current neighbor f (world (run n))).1.1.1 < 0)%Z →
     (∀ k, k ≤ n → result k = None) ∧
     (∀ m, n < m → result m = Some (Raise AssertionError))) ∧
  (ctl (run n) = Finished (Raise AssertionError) →
   ∃ k best_cost current neighbor todo,
     k < n ∧ ctl (run k) = AtFor best_cost current (neighbor :: todo) ∧
     ((g current neighbor f (world (run k))).1.1.1 < 0)%Z) ∧
  ((∀ u v w', (0 ≤ (g u v f w').1.1.1)%Z) →
   ctl (run n) ≠ Finished (Raise AssertionError)).
Proof.
  intros params run result.
  assert (∀ n, ctl (run n) = Finished (Raise AssertionError) →
    ∃ k best_cost current neighbor todo,
      k < n ∧ ctl (run k) = AtFor best_cost current (neighbor :: todo) ∧
      ((g current neighbor f (world (run k))).1.1.1 < 0)%Z) as Hsource.
  { clear n. induction n as [|n IH].
    - unfold run, Dijkstras_run, init. simpl. by case_all.
    - intros Hn.
      assert (ctl (run n) = Finished (Raise AssertionError) ∨
              ctl (run n) ≠ Finished (Raise AssertionError)) as [Hprev|Hprev].
      { destruct (ctl (run n)) as [| | |[r|[]]]; (by left) || (by right). }
      + destruct (IH Hprev) as (k & b & c & nb & td & Hk & Hrest).
        exists k, b, c, nb, td. split; [lia|done].
      + unfold run in Hn. rewrite run_S in Hn.
        apply step_assertion in Hn
            as (b & c & nb & td & g' & cost & xs & ys & w' & Hc & Hcf & Hg & Hneg);
          [|done].
        rewrite run_params in Hcf. injection Hcf as <-.
        exists n, b, c, nb, td. split; [lia|]. split; [done|].
        unfold run. by rewrite Hg. }
  split; [|split].
  - intros b c nb td Hctl Hneg. split.
    + intros k Hk. unfold result, Dijkstras_run_algorithm_on_f.
      assert (running (Dijkstras_run obj f np_random_seed k params w)) as Hr.
      { apply (run_running_before obj f np_random_seed k n); [|done].
        unfold running. fold (run n). by rewrite Hctl. }
      unfold running in Hr. by case_all.
    + intros m Hm. unfold result, Dijkstras_run_algorithm_on_f.
      assert (ctl (run (S n)) = Finished (Raise AssertionError)) as Hfail.
      { unfold run. rewrite run_S. fold (run n). unfold step. rewrite Hctl.
        destruct (g c nb f (world (run n))) as [[[cost xs] ys] w'] eqn:Hg.
        eapply for_step_negative; [|exact Hg|exact Hneg].
        unfold run. by rewrite run_params. }
      rewrite (run_ended obj f np_random_seed (S n) m); [|..|lia].
      * fold (run (S n)). by rewrite Hfail.
      * unfold running. fold (run (S n)). rewrite Hfail. intros [].
  - apply Hsource.
  - intros Hpos Hn. destruct (Hsource n Hn) as (k & b & c & nb & td & _ & _ & Hneg).
    specialize (Hpos c nb (world (run k))). lia.
Qed.

Lemma Dijkstras_negative_cost_raises_witness :
  ctl (Dijkstras_run (H := list_heapq) ex_obj ex_neg_oracle id 6
         (ex_params 0 3) 0) = AtFor 1 1 [2] ∧
  (∀ k, k ≤ 6 →
     Dijkstras_run_algorithm_on_f (H := list_heapq) ex_obj ex_neg_oracle id k
       (ex_params 0 3) 0 = None) ∧
  (∀ m, 6 < m →
     Dijkstras_run_algorithm_on_f (H := list_heapq) ex_obj ex_neg_oracle id m
       (ex_params 0 3) 0 = Some (Raise AssertionError)).
Proof.
  split; [reflexivity|].
  destruct (Dijkstras_negative_cost_raises (H := list_heapq) ex_obj
              ex_neg_oracle id "Dijkstras" (Some 0) (Some 3)
              (Some ex_vertices) ex_cost_func ex_true_cost 0 6)
    as [Hraise _].
  apply (Hraise 1%Z 1 2 []).
  - reflexivity.
  - vm_compute. reflexivity.
Defined.

(** C4 (counterexample). After five steps of the search from 0 to 3 on
    the example graph, vertex 1 is being expanded, its next neighbour 0 is
    explored already, and the next step still calls the evaluator on the
    edge 1 → 0: the oracle is queried (the world counts one more query)
    and the pair is appended to the trace. *)
Lemma explored_neighbor_is_evaluated :
  let s := Dijkstras_run (H := list_heapq) ex_obj ex_oracle id 5
             (ex_params 0 3) 0 in
  ctl s = AtFor 1 1 [0; 2] ∧
  explored s !! index (ex_obj 0) = Some true ∧
  exe s = Namespace [(0, 1); (0, 2)] [1%Z; 4%Z] ∧ world s = 2 ∧
  exe (step ex_obj ex_oracle s) =
    Namespace [(0, 1); (0, 2); (1, 0)] [1%Z; 4%Z; 7%Z] ∧
  world (step ex_obj ex_oracle s) = 3.
Proof. repeat split. Qed.

(** C4 (amended). At every iteration of the for loop over the neighbours
    of the expanded vertex the evaluator is called on the next neighbour,
    explored or not, and the query inputs and outputs it returns are
    appended to the trace. The explored flag decides only what is done
    with the cost: for an explored neighbour (and a cost that passes the
    assertion) the per-vertex lists and the frontier stay as they are.
    A for loop that runs to its end has called the evaluator on every
    neighbour left, in order. *)
Theorem Dijkstras_evaluates_every_neighbor {X Y W : Type} `{Heapq}
  (obj : ref → Vertex) (f : @oracle X Y W) (s : @state X Y W _)
  (g : ref → ref → @oracle X Y W → W → (Z * list X * list Y) * W)
  (best_cost : Z) (current neighbor : ref) (todo : list ref) :
  cost_func (self_params s) = CostFunc g →
  ctl s = AtFor best_cost current (neighbor :: todo) →
  let r := g current neighbor f (world s) in
  let s' := iter_steps (S (length todo)) (step obj f) s in
  exe (step obj f s) = extend_path (exe s) r.1.1.2 r.1.2 ∧
  world (step obj f s) = r.2 ∧
  (explored s !! index (obj neighbor) = Some true → (0 ≤ r.1.1.1)%Z →
   explored (step obj f s) = explored s ∧
   min_cost (step obj f s) = min_cost s ∧
   prev (step obj f s) = prev s ∧
   to_explore (step obj f s) = to_explore s ∧
   ctl (step obj f s) = AtFor best_cost current todo) ∧
  (ctl s' = AtFor best_cost current [] →
   (exe s', world s') =
   eval_neighbors f g current (neighbor :: todo) (exe s) (world s)).
Proof.
  intros Hcf Hctl r s'.
  assert (step obj f s = for_step obj f s best_cost current neighbor todo)
    as Hstep by (unfold step; by rewrite Hctl).
  rewrite Hstep.
  destruct (g current neighbor f (world s)) as [[[cost xs] ys] w'] eqn:Hg.
  subst r. simpl.
  destruct (for_step_eval obj f s g best_cost current neighbor todo
              cost xs ys w' Hcf Hg) as [He Hw].
  split; [done|]. split; [done|]. split.
  - intros Hex Hpos.
    by rewrite (for_step_explored obj f s g best_cost current neighbor todo
                  cost xs ys w' Hcf Hg Hpos Hex).
  - intros Hend.
    apply (for_loop_evaluates_all obj f s g best_cost current
             (neighbor :: todo) Hcf Hctl Hend).
Qed.

Lemma Dijkstras_evaluates_every_neighbor_witness :
  let s := Dijkstras_run (H := list_heapq) ex_obj ex_oracle id 5
             (ex_params 0 3) 0 in
  exe (step ex_obj ex_oracle s) =
    extend_path (exe s) [(1, 0)] [7%Z] ∧
  world (step ex_obj ex_oracle s) = 3 ∧
  (explored s !! index (ex_obj 0) = Some true → (0 ≤ 7)%Z →
   explored (step ex_obj ex_oracle s) = explored s ∧
   min_cost (step ex_obj ex_oracle s) = min_cost s ∧
   prev (step ex_obj ex_oracle s) = prev s ∧
   to_explore (step ex_obj ex_oracle s) = to_explore s ∧
   ctl (step ex_obj ex_oracle s) = AtFor 1 1 [2]) ∧
  (ctl (iter_steps 2 (step ex_obj ex_oracle) s) = AtFor 1 1 [] →
   (exe (iter_steps 2 (step ex_obj ex_oracle) s),
    world (iter_steps 2 (step ex_obj ex_oracle) s)) =
   (Namespace [(0, 1); (0, 2); (1, 0); (1, 2)] [1%Z; 4%Z; 7%Z; 1%Z], 4)).
Proof.
  exact (Dijkstras_evaluates_every_neighbor (H := list_heapq) ex_obj
           ex_oracle
           (Dijkstras_run (H := list_heapq) ex_obj ex_oracle id 5
              (ex_params 0 3) 0)
           ex_cost_func 1%Z 1 0 [2] eq_refl eq_refl).
Defined.


(** C6. After any number of steps the two halves of the trace have the
    same length, and a step only appends to both halves, equally many
    entries: in the pull loop of the base class, in the randomized-gap
    scan that runs it on a redrawn grid, and in the search when every
    call of the evaluator returns as many query inputs as query
    outputs. *)
Theorem trace_lengths_agree {X Y W P O : Type} `{!Algorithm X Y P O}
  `{Heapq} (f : X → W → Y * W) (scan_params : P) (obj : ref → Vertex)
  (np_random_seed : W → W) (params : @Dijkstras_params X Y W) (w : W)
  (n : nat) :
  (let e := pull_exe (Algorithm_run_algorithm_on_f f n scan_params w) in
   let e' := pull_exe (Algorithm_run_algorithm_on_f f (S n) scan_params w) in
   length (path_x e) = length (path_y e) ∧
   ∃ xs ys, e' = extend_path e xs ys ∧ length xs = length ys) ∧
  (∀ (fq : list Q → W → Y * W) (np_random_randint : Z → Z → W → Z * W)
     (gap_params : RandGap_params),
     let e :=
       pull_exe
         (LinearScanRandGap_run_algorithm_on_f fq np_random_randint n
            gap_params w) in
     let e' :=
       pull_exe
         (LinearScanRandGap_run_algorithm_on_f fq np_random_randint (S n)
            gap_params w) in
     length (path_x e) = length (path_y e) ∧
     ∃ xs ys, e' = extend_path e xs ys ∧ length xs = length ys) ∧
  ((∀ g u v w', cost_func params = CostFunc g →
      length (g u v f w').1.1.2 = length (g u v f w').1.2) →
   let e := exe (Dijkstras_run obj f np_random_seed n params w) in
   let e' := exe (Dijkstras_run obj f np_random_seed (S n) params w) in
   length (path_x e) = length (path_y e) ∧
   ∃ xs ys, e' = extend_path e xs ys ∧ length xs = length ys).
Proof.
  split; [|split].
  - split; [apply pull_run_lengths|apply pull_run_extends].
  - intros fq np_random_randint gap_params.
    apply LinearScanRandGap_run_trace.
  - intros Heq. split; [by apply run_lengths|by apply run_extends].
Qed.

Lemma trace_lengths_agree_witness :
  let e := exe (Dijkstras_run (H := list_heapq) ex_obj ex_oracle id 5
                  (ex_params 0 3) 0) in
  let e' := exe (Dijkstras_run (H := list_heapq) ex_obj ex_oracle id 6
                   (ex_params 0 3) 0) in
  length (path_x e) = length (path_y e) ∧
  ∃ xs ys, e' = extend_path e xs ys ∧ length xs = length ys.
Proof.
  destruct (trace_lengths_agree (H := list_heapq) ex_oracle
              (LinearScan_set_params None (Some [(0, 1)])) ex_obj id
              (ex_params 0 3) 0 5) as (_ & _ & Hsearch).
  apply Hsearch. intros g u v w' [= <-]. reflexivity.
Defined.

(** C7. Deriving an output from a trace is not supported by the search
    variant: for every trace the operation raises [RuntimeError] and
    returns no value. *)
Theorem Dijkstras_output_unsupported {X Y : Type} (e : exe_path X Y) :
  Dijkstras_get_output_from_exe_path e =
    Raise (RuntimeError
             "Can't return output from execution path for Dijkstras") ∧
  ∀ v, Dijkstras_get_output_from_exe_path e ≠ Return v.
Proof. split; [reflexivity|]. intros v. discriminate. Qed.

(** C8. A variant that runs the pull loop of the base class computes its
    next query from the parameters and the trace alone; with an oracle
    whose answers do not depend on the world, two runs with the same
    parameters have the same trace and the same result after any number
    of steps, whatever the worlds they start in. *)
Theorem scan_runs_are_deterministic {X Y W P O : Type}
  `{!Algorithm X Y P O} (f : X → W → Y * W) (params : P) (w1 w2 : W)
  (n : nat) :
  (∀ x w w', (f x w).1 = (f x w').1) →
  pull_exe (Algorithm_run_algorithm_on_f f n params w1) =
  pull_exe (Algorithm_run_algorithm_on_f f n params w2) ∧
  pull_ctl (Algorithm_run_algorithm_on_f f n params w1) =
  pull_ctl (Algorithm_run_algorithm_on_f f n params w2).
Proof. intros Hdet. by apply pull_run_deterministic. Qed.

Lemma scan_runs_are_deterministic_witness :
  let params := LinearScan_set_params None (Some [[0%Q]; [1%Q]; [2%Q]]) in
  pull_ctl (Algorithm_run_algorithm_on_f ex_square 4 params 0) =
    PullFinished
      (Return (Namespace [[0%Q]; [1%Q]; [2%Q]] [0%Q; 1%Q; 4%Q],
               [0%Q; 1%Q; 4%Q])) ∧
  pull_exe (Algorithm_run_algorithm_on_f ex_square 4 params 0) =
  pull_exe (Algorithm_run_algorithm_on_f ex_square 4 params 7) ∧
  pull_ctl (Algorithm_run_algorithm_on_f ex_square 4 params 0) =
  pull_ctl (Algorithm_run_algorithm_on_f ex_square 4 params 7).
Proof.
  split; [reflexivity|].
  apply (scan_runs_are_deterministic ex_square
           (LinearScan_set_params None (Some [[0%Q]; [1%Q]; [2%Q]])) 0 7 4).
  intros x w w'. reflexivity.
Defined.

(** C9 (counterexample). The randomized-gap scan built on the grid
    [[3], [1]] runs to completion, and afterwards [x_path] holds the grid
    [[1], [3]] drawn at the start of the run, not the value it had before
    the call. *)
Lemma rand_gap_run_rewrites_x_path :
  let params :=
    LinearScanRandGap_set_params None (Some [[3%Q]; [1%Q]]) in
  let s := LinearScanRandGap_run_algorithm_on_f ex_square ex_randint 3
             params 0 in
  rg_x_path params = [[3%Q]; [1%Q]] ∧
  pull_ctl s =
    PullFinished
      (Return (Namespace [[1%Q]; [3%Q]] [1%Q; 9%Q], [1%Q; 9%Q])) ∧
  rg_x_path (pull_params s) = [[1%Q]; [3%Q]] ∧
  rg_x_path (pull_params s) ≠ rg_x_path params.
Proof. repeat split. discriminate. Qed.

(** C9 (amended). A run of the pull loop of the base class (the scans
    other than the randomized-gap one), a run of the search and a run of
    the debugging variant leave every field of the parameter bundle as it
    was. The randomized-gap scan assigns [x_path] once, at the start of
    its run, from [x_path_orig] and a random draw; its other fields keep
    their values, and the bundle does not change during the pull loop
    that follows. *)
Theorem params_fixed_apart_from_rand_gap_x_path :
  (∀ (X Y W P O : Type) (alg : Algorithm X Y P O) (f : X → W → Y * W)
     (n : nat) (params : P) (w : W),
     pull_params (Algorithm_run_algorithm_on_f f n params w) = params) ∧
  (∀ (X Y W : Type) (H : Heapq) (obj : ref → Vertex) (f : @oracle X Y W)
     (np_random_seed : W → W) (n : nat) (params : Dijkstras_params) (w : W),
     self_params (Dijkstras_run obj f np_random_seed n params w) = params) ∧
  (∀ (X Y W P : Type) (np_random_seed : W → W)
     (random_randint : Z → Z → W → Z * W) (np_random_rand : W → W)
     (time_sleep : Z → W → W) (params : P) (w : W),
     (Noop_run_algorithm_on_f (X := X) (Y := Y) np_random_seed
        random_randint np_random_rand time_sleep params w).1.1 = params) ∧
  (∀ (Y W : Type) (f : list Q → W → Y * W)
     (np_random_randint : Z → Z → W → Z * W) (n : nat)
     (params : RandGap_params) (w : W),
     let s :=
       LinearScanRandGap_run_algorithm_on_f f np_random_randint n params w in
     rg_name (pull_params s) = rg_name params ∧
     rg_x_path_orig (pull_params s) = rg_x_path_orig params ∧
     pull_params s =
       pull_params
         (LinearScanRandGap_run_algorithm_on_f f np_random_randint 0 params w)).
Proof.
  split; [|split; [|split]].
  - intros. apply pull_steps_params.
  - intros. apply run_params.
  - intros. unfold Noop_run_algorithm_on_f.
    by destruct (random_randint _ _ _).
  - intros. apply LinearScanRandGap_run_params.
Qed.

(** A search whose bundle lacks the start, the goal or the vertex list
    raises within its first step, before the evaluator is called. *)
Lemma missing_field_run {X Y W : Type} `{Heapq} (obj : ref → Vertex)
  (f : @oracle X Y W) (np_random_seed : W → W)
  (p : @Dijkstras_params X Y W) (w : W) :
  start p = None ∨ goal p = None ∨ vertices p = None →
  (∃ e, ctl (Dijkstras_run obj f np_random_seed 1 p w) = Finished (Raise e)) ∧
  exe (Dijkstras_run obj f np_random_seed 1 p w) = empty_path ∧
  world (Dijkstras_run obj f np_random_seed 1 p w) = np_random_seed w.
Proof.
  destruct p as [nm st gl vs cf tc]. simpl. intros Hmissing.
  unfold Dijkstras_run, init. simpl.
  destruct vs as [vs|]; [|simpl; eauto].
  destruct st as [st|]; [|simpl; eauto].
  destruct gl as [gl|]; [by destruct Hmissing as [?|[?|?]]|].
  unfold step, while_step. simpl.
  destruct (heappop_singleton (0%Z, st)) as (h' & Hpop & _).
  rewrite Hpop.
  destruct (replicate (length vs) false !! index (obj st)) as [[|]|] eqn:Hlk;
    simpl; eauto.
  by apply lookup_replicate in Hlk as [[=] _].
Qed.

(** C10 (counterexample). Constructing the search variant from a bundle
    without start, goal and vertex list succeeds. *)
Lemma Dijkstras_set_params_accepts_missing_fields :
  ∃ p, Dijkstras_set_params (X := nat) (Y := nat) (W := unit)
         (DijkstrasRawParams None None None None None None) = Return p ∧
       start p = None ∧ goal p = None ∧ vertices p = None.
Proof. eexists. repeat split. Qed.

(** C10 (amended). Construction always succeeds and issues no query; an
    absent start, goal or vertex list is stored as [None]. The error
    comes when the search is run: with one of the three absent the run
    raises within its first step, before any call of the evaluator, so
    with an empty trace and a world that was only reseeded. *)
Theorem Dijkstras_set_params_defers_missing_fields {X Y W : Type} `{Heapq}
  (obj : ref → Vertex) (f : @oracle X Y W) (np_random_seed : W → W)
  (raw : @Dijkstras_raw_params X Y W) :
  ∃ p, Dijkstras_set_params raw = Return p ∧
       start p = raw_start raw ∧ goal p = raw_goal raw ∧
       vertices p = raw_vertices raw ∧
       (raw_start raw = None ∨ raw_goal raw = None ∨
        raw_vertices raw = None →
        ∀ w n, 0 < n →
          (∃ e, Dijkstras_run_algorithm_on_f obj f np_random_seed n p w =
                  Some (Raise e)) ∧
          exe (Dijkstras_run obj f np_random_seed n p w) = empty_path ∧
          world (Dijkstras_run obj f np_random_seed n p w) =
            np_random_seed w).
Proof.
  eexists. split; [reflexivity|]. simpl.
  split; [done|]. split; [done|]. split; [done|].
  intros Hmissing w n Hn.
  destruct (missing_field_run obj f np_random_seed
              (DijkstrasParams (default "Dijkstras"%string (raw_name raw))
                 (raw_start raw) (raw_goal raw) (raw_vertices raw)
                 (match raw_cost_func raw with
                  | Some g => CostFunc g
                  | None => DefaultCostFunc
                  end)
                 (default (λ _ _, PyNum 0) (raw_true_cost raw)))
              w Hmissing) as ([e He] & Hexe & Hworld).
  unfold Dijkstras_run_algorithm_on_f.
  rewrite (run_ended obj f np_random_seed 1 n)
    by (try lia; unfold running; rewrite He; intros []).
  split; [|done]. exists e. by rewrite He.
Qed.

(** * Further properties of the code *)

(** ** Scans over a fixed list of points *)

Lemma query_all_length {X Y W : Type} (f : X → W → Y * W) (xs : list X) w :
  length (query_all f xs w).1 = length xs.
Proof.
  revert w. induction xs as [|x xs IH]; intros w; [done|]. simpl.
  destruct (f x w) as [y w1]. specialize (IH w1).
  destruct (query_all f xs w1) as [ys w2]. simpl in *. by rewrite IH.
Qed.

Section BaseScan.
Context {X Y W P O : Type} `{!Algorithm X Y P O}.
Variable f : X → W → Y * W.
(** The variant reads its points from [x_path_of params] with the
    [get_next_x] of the base class and derives its output from the
    recorded outputs by [output_of]. *)
Variable x_path_of : P → list X.
Variable output_of : list Y → O.
Hypothesis Hnext :
  ∀ p e, get_next_x p e = Algorithm_get_next_x (x_path_of p) e.
Hypothesis Hout :
  ∀ p e, get_output_from_exe_path p e = Return (output_of (path_y e)).

Lemma base_scan_steps p (seen rest : list X) (ys : list Y) (w : W) :
  x_path_of p = seen ++ rest → length ys = length seen →
  iter_steps (S (length rest)) (pull_step f)
    (PullState p (Namespace seen ys) w Pulling) =
  PullState p
    (Namespace (seen ++ rest) (ys ++ (query_all f rest w).1))
    (query_all f rest w).2
    (PullFinished
       (Return (Namespace (seen ++ rest) (ys ++ (query_all f rest w).1),
                output_of (ys ++ (query_all f rest w).1)))).
Proof.
  revert seen ys w. induction rest as [|x rest IH]; intros seen ys w Hp Hlen.
  - simpl. unfold pull_step. simpl. rewrite Hnext, Hout, Hp.
    unfold Algorithm_get_next_x. simpl. rewrite !app_nil_r.
    by rewrite decide_True.
  - change (iter_steps (S (length (x :: rest))) (pull_step f) ?s)
      with (iter_steps (S (length rest)) (pull_step f) (pull_step f s)).
    assert (pull_step f (PullState p (Namespace seen ys) w Pulling) =
            PullState p (Namespace (seen ++ [x]) (ys ++ [(f x w).1]))
              (f x w).2 Pulling) as ->.
    { unfold pull_step. simpl. rewrite Hnext, Hp.
      unfold Algorithm_get_next_x. simpl.
      rewrite decide_False by (rewrite length_app; simpl; lia).
      rewrite lookup_app_r, Nat.sub_diag by done. simpl.
      by destruct (f x w). }
    rewrite IH;
      [|by rewrite Hp, <-app_assoc|rewrite !length_app; simpl; lia].
    simpl. destruct (f x w) as [y w1]. simpl.
    destruct (query_all f rest w1) as [ys' w2]. simpl.
    by rewrite <-!app_assoc.
Qed.

Lemma base_scan_run p (w : W) :
  Algorithm_run_algorithm_on_f f (S (length (x_path_of p))) p w =
  PullState p
    (Namespace (x_path_of p) (query_all f (x_path_of p) w).1)
    (query_all f (x_path_of p) w).2
    (PullFinished
       (Return (Namespace (x_path_of p) (query_all f (x_path_of p) w).1,
                output_of (query_all f (x_path_of p) w).1))).
Proof. exact (base_scan_steps p [] (x_path_of p) [] w eq_refl eq_refl). Qed.
End BaseScan.

(** X1. [LinearScan], [AverageOutputs] and [SortOutputs] on a list
    [x_path] end after [len(x_path) + 1] evaluations of [get_next_x]; the
    trace then holds exactly the points of [x_path], in order, each with
    the oracle's answer, and the output is the list of answers, their
    [np.mean] or their [np.argsort]. With an empty [x_path] the oracle is
    never queried. *)
Theorem scans_visit_x_path {X Y W M : Type} (f : X → W → Y * W)
  (np_mean : list Y → M) (np_argsort : list Y → list nat) (nm : string)
  (x_path : list X) (w : W) :
  let ys := (query_all f x_path w).1 in
  let w' := (query_all f x_path w).2 in
  let p := LinearScanParams nm x_path in
  let e := Namespace x_path ys in
  length ys = length x_path ∧
  @Algorithm_run_algorithm_on_f X Y W _ _ LinearScan f
    (S (length x_path)) p w =
    PullState p e w' (PullFinished (Return (e, ys))) ∧
  @Algorithm_run_algorithm_on_f X Y W _ _ (AverageOutputs np_mean) f
    (S (length x_path)) p w =
    PullState p e w' (PullFinished (Return (e, np_mean ys))) ∧
  @Algorithm_run_algorithm_on_f X Y W _ _ (SortOutputs np_argsort) f
    (S (length x_path)) p w =
    PullState p e w' (PullFinished (Return (e, np_argsort ys))).
Proof.
  intros ys w' p e. split; [apply query_all_length|]. split; [|split].
  - exact (base_scan_run (Algorithm0 := LinearScan) f ls_x_path (λ l, l)
             (λ _ _, eq_refl) (λ _ _, eq_refl) p w).
  - exact (base_scan_run (Algorithm0 := AverageOutputs np_mean) f ls_x_path
             np_mean (λ _ _, eq_refl) (λ _ _, eq_refl) p w).
  - exact (base_scan_run (Algorithm0 := SortOutputs np_argsort) f ls_x_path
             np_argsort (λ _ _, eq_refl) (λ _ _, eq_refl) p w).
Qed.

(** ** What the pull loop records *)

Section PullLoopRecords.
Context {X Y W P O : Type} `{!Algorithm X Y P O}.
Variable f : X → W → Y * W.

(** How a step of the loop that queries the oracle changes the state. *)
Lemma pull_step_cases (s : pull_state X Y W P O) :
  pull_exe (pull_step f s) = pull_exe s ∨
  ∃ x, pull_ctl s = Pulling ∧
       get_next_x (pull_params s) (pull_exe s) = Return (Some x) ∧
       pull_exe (pull_step f s) =
         append_pair (pull_exe s) x (f x (pull_world s)).1.
Proof.
  unfold pull_step. destruct (pull_ctl s) eqn:Hc; [|by left].
  destruct (get_next_x _ _) as [[x|]|e] eqn:Hn; simpl.
  - right. exists x. destruct (f x (pull_world s)) as [y w']. done.
  - destruct (get_output_from_exe_path _ _); by left.
  - by left.
Qed.

Definition answers_recorded (g : X → Y) (s : pull_state X Y W P O) : Prop :=
  path_y (pull_exe s) = g <$> path_x (pull_exe s).

Lemma pull_step_answers (g : X → Y) (s : pull_state X Y W P O) :
  (∀ x w, (f x w).1 = g x) → answers_recorded g s →
  answers_recorded g (pull_step f s).
Proof.
  intros Hg Hs. unfold answers_recorded in *.
  destruct (pull_step_cases s) as [->|(x & _ & _ & ->)]; [done|].
  simpl. by rewrite fmap_app, Hs, Hg.
Qed.

(** Each recorded input is what [get_next_x] returns on the part of the
    trace recorded before it. *)
Definition replayable (params : P) (s : pull_state X Y W P O) : Prop :=
  pull_params s = params ∧
  length (path_x (pull_exe s)) = length (path_y (pull_exe s)) ∧
  ∀ k x, path_x (pull_exe s) !! k = Some x →
    get_next_x params
      (Namespace (take k (path_x (pull_exe s))) (take k (path_y (pull_exe s))))
    = Return (Some x).

Lemma pull_step_replayable params (s : pull_state X Y W P O) :
  replayable params s → replayable params (pull_step f s).
Proof.
  intros (Hp & Hlen & Hre). split; [by rewrite pull_step_params|].
  destruct (pull_step_cases s) as [->|(x & _ & Hn & ->)]; [done|].
  simpl. split; [rewrite !length_app; simpl; lia|].
  intros k x' Hk.
  destruct (decide (k < length (path_x (pull_exe s)))) as [Hlt|Hge].
  - rewrite lookup_app_l in Hk by done.
    rewrite !take_app_le by lia. by apply Hre.
  - rewrite lookup_app_r in Hk by lia.
    destruct (k - length (path_x (pull_exe s))) as [|j] eqn:Hj;
      [|by destruct j].
    simpl in Hk. injection Hk as <-.
    assert (k = length (path_x (pull_exe s))) as -> by lia.
    rewrite take_app_length. rewrite Hlen, take_app_length.
    rewrite <-Hp. by destruct (pull_exe s).
Qed.
End PullLoopRecords.

(** X2. With an oracle whose answer to an input [x] is [g x] whatever the
    world, the outputs recorded by the pull loop are, after any number of
    steps, the answers to the recorded inputs, position by position. *)
Theorem pull_outputs_are_oracle_answers {X Y W P O : Type}
  `{!Algorithm X Y P O} (f : X → W → Y * W) (g : X → Y) (params : P)
  (w : W) (n : nat) :
  (∀ x w', (f x w').1 = g x) →
  path_y (pull_exe (Algorithm_run_algorithm_on_f f n params w)) =
  g <$> path_x (pull_exe (Algorithm_run_algorithm_on_f f n params w)).
Proof.
  intros Hg. unfold Algorithm_run_algorithm_on_f.
  apply (iter_steps_invariant (answers_recorded g)); [|done].
  intros s. by apply pull_step_answers.
Qed.

(** After any number of steps, every recorded input is what
    [get_next_x] returns on the trace cut off just before it. *)
Lemma pull_run_replayable {X Y W P O : Type} `{!Algorithm X Y P O}
  (f : X → W → Y * W) (params : P) (w : W) (n k : nat) (x : X) :
  path_x (pull_exe (Algorithm_run_algorithm_on_f f n params w)) !! k =
    Some x →
  get_next_x params
    (Namespace
       (take k (path_x (pull_exe (Algorithm_run_algorithm_on_f f n params w))))
       (take k (path_y (pull_exe (Algorithm_run_algorithm_on_f f n params w)))))
  = Return (Some x).
Proof.
  intros He.
  assert (replayable params (Algorithm_run_algorithm_on_f f n params w))
    as (_ & _ & Hre); [|by apply Hre].
  unfold Algorithm_run_algorithm_on_f.
  apply (iter_steps_invariant (replayable params)).
  - apply pull_step_replayable.
  - split; [done|]. split; [done|]. by intros ? ? [=].
Qed.

(** X3. The trace of the pull loop can be replayed: after any number of
    steps, every recorded input is the query [get_next_x] returns on the
    trace cut off just before it. *)
Theorem pull_trace_is_replayable {X Y W P O : Type} `{!Algorithm X Y P O}
  (f : X → W → Y * W) (params : P) (w : W) (n k : nat) (x : X) :
  let e := pull_exe (Algorithm_run_algorithm_on_f f n params w) in
  path_x e !! k = Some x →
  get_next_x params (Namespace (take k (path_x e)) (take k (path_y e))) =
    Return (Some x).
Proof. intros e He. by apply pull_run_replayable. Qed.

Lemma pull_outputs_are_oracle_answers_witness :
  let params := LinearScan_set_params None (Some [[0%Q]; [1%Q]; [2%Q]]) in
  let g := λ x : list Q, (ex_square x 0).1 in
  path_x (pull_exe (Algorithm_run_algorithm_on_f ex_square 2 params 0)) =
    [[0%Q]; [1%Q]] ∧
  path_y (pull_exe (Algorithm_run_algorithm_on_f ex_square 2 params 0)) =
    g <$> path_x (pull_exe (Algorithm_run_algorithm_on_f ex_square 2 params 0)).
Proof.
  split; [reflexivity|].
  apply (pull_outputs_are_oracle_answers ex_square
           (λ x : list Q, (ex_square x 0).1)
           (LinearScan_set_params None (Some [[0%Q]; [1%Q]; [2%Q]])) 0 2).
  intros x w'. reflexivity.
Defined.

Lemma pull_trace_is_replayable_witness :
  let params :=
    OptRightScanParams "OptRightScan" [(-4) # 1] (1 # 2) (1 # 5) 100%Z in
  let e := pull_exe (Algorithm_run_algorithm_on_f ex_square 3 params 0) in
  path_x e !! 2 = Some [(-3) # 1] ∧
  get_next_x params (Namespace (take 2 (path_x e)) (take 2 (path_y e))) =
    Return (Some [(-3) # 1]).
Proof.
  split; [reflexivity|].
  apply (pull_trace_is_replayable ex_square
           (OptRightScanParams "OptRightScan" [(-4) # 1] (1 # 2) (1 # 5)
              100%Z)
           0 3 2 [(-3) # 1]).
  reflexivity.
Defined.

(** ** [OptRightScan] *)

Lemma removelast_snoc {A : Type} (l : list A) (a : A) :
  removelast (l ++ [a]) = l.
Proof. apply removelast_last. Qed.

(** A list of two or more entries is a non-empty list followed by its
    last entry. *)
Lemma split_last {A : Type} (l : list A) :
  1 ≤ length l → ∃ l' a, l = l' ++ [a] ∧ length l = S (length l').
Proof.
  intros Hl. destruct (exists_last (l := l)) as (l' & a & ->).
  { by destruct l; [simpl in Hl; lia|]. }
  exists l', a. split; [done|]. rewrite length_app. simpl. lia.
Qed.

(** When [get_next_x] returns a query on a trace of two or more pairs,
    the convergence test has failed: the last output is not greater than
    [np.min] of the earlier ones plus [conv_thresh]. *)
Lemma OptRightScan_next_Some {F : Type} `{!PyNumber F}
  (p : OptRightScan_params F) (e : exe_path (list F) F) (x : list F) :
  OptRightScan_get_next_x p e = Return (Some x) →
  (Z.of_nat (length (path_x e)) ≤ ors_max_iter p)%Z ∧
  (2 ≤ length (path_x e) →
   ∃ m y, np_min_flat (removelast (path_y e)) = Some m ∧
          last (path_y e) = Some y ∧
          py_gt y (py_add m (ors_conv_thresh p)) = false).
Proof.
  unfold OptRightScan_get_next_x. intros Hn. split.
  - repeat case_match; simplify_eq; try done; case_bool_decide; try done; lia.
  - intros Hlen. rewrite (bool_decide_eq_true_2 (2 ≤ _)) in Hn by done.
    destruct (np_min_flat _) as [m|]; [|by repeat case_match; simplify_eq].
    destruct (last (path_y e)) as [y|]; [|by repeat case_match; simplify_eq].
    exists m, y. split; [done|]. split; [done|].
    destruct (py_gt y (py_add m (ors_conv_thresh p))); [|done].
    repeat case_match; simplify_eq.
Qed.

(** When it returns the sentinel, the iteration bound is exceeded or the
    convergence test has succeeded. *)
Lemma OptRightScan_next_None {F : Type} `{!PyNumber F}
  (p : OptRightScan_params F) (e : exe_path (list F) F) :
  OptRightScan_get_next_x p e = Return None →
  (ors_max_iter p < Z.of_nat (length (path_x e)))%Z ∨
  (2 ≤ length (path_x e) ∧
   ∃ m y, np_min_flat (removelast (path_y e)) = Some m ∧
          last (path_y e) = Some y ∧
          py_gt y (py_add m (ors_conv_thresh p)) = true).
Proof.
  unfold OptRightScan_get_next_x. intros Hn.
  destruct (decide (ors_max_iter p < Z.of_nat (length (path_x e)))%Z)
    as [|Hmax]; [by left|right].
  rewrite (bool_decide_eq_false_2 (_ < _)%Z) in Hn by done.
  destruct (decide (2 ≤ length (path_x e))) as [Hlen|Hlen].
  - split; [done|].
    rewrite (bool_decide_eq_true_2 (2 ≤ _)) in Hn by done.
    destruct (np_min_flat _) as [m|]; [|by repeat case_match; simplify_eq].
    destruct (last (path_y e)) as [y|]; [|by repeat case_match; simplify_eq].
    exists m, y. split; [done|]. split; [done|].
    destruct (py_gt y (py_add m (ors_conv_thresh p))); [done|].
    repeat case_match; simplify_eq.
  - rewrite (bool_decide_eq_false_2 (2 ≤ _)) in Hn by done.
    repeat case_match; simplify_eq.
Qed.

Section OptRightScanRun.
Context {F W : Type} `{!PyNumber F}.
Variable f : list F → W → F * W.
Variable p : OptRightScan_params F.
Hypothesis Hinit : ors_init_x p ≠ [].
Hypothesis Hmax : (0 ≤ ors_max_iter p)%Z.

#[local] Abbreviation ors_state :=
  (pull_state (list F) F W (OptRightScan_params F) (list F)).

(** The state of a scan that is still going: as many outputs as inputs,
    at most [max_iter + 1] of them, and the last input has an entry. *)
Definition ors_inv (s : ors_state) : Prop :=
  pull_params s = p ∧ pull_ctl s = Pulling ∧
  length (path_y (pull_exe s)) = length (path_x (pull_exe s)) ∧
  (Z.of_nat (length (path_x (pull_exe s))) ≤ ors_max_iter p + 1)%Z ∧
  ∀ x, last (path_x (pull_exe s)) = Some x → x ≠ [].

Definition ors_done (s : ors_state) : Prop :=
  ∃ e x w',
    s = PullState p e w' (PullFinished (Return (e, x))) ∧
    last (path_x e) = Some x ∧
    1 ≤ length (path_x e) ∧
    (Z.of_nat (length (path_x e)) ≤ ors_max_iter p + 1)%Z ∧
    length (path_y e) = length (path_x e).

Lemma ors_next_cases (e : exe_path (list F) F) :
  length (path_y e) = length (path_x e) →
  (∀ x, last (path_x e) = Some x → x ≠ []) →
  (OptRightScan_get_next_x p e = Return None ∧ 1 ≤ length (path_x e)) ∨
  (∃ x, OptRightScan_get_next_x p e = Return (Some x) ∧ x ≠ [] ∧
        (Z.of_nat (length (path_x e)) ≤ ors_max_iter p)%Z).
Proof.
  destruct e as [xs ys]. simpl. intros Hlen Hlast.
  unfold OptRightScan_get_next_x. simpl.
  destruct xs as [|x0 xs'].
  - right. exists (ors_init_x p). simpl.
    rewrite (bool_decide_eq_false_2 (_ < _)%Z) by lia. done.
  - rewrite (bool_decide_eq_false_2 (_ = 0)) by done.
    destruct (last (x0 :: xs')) as [[|a l]|] eqn:Hl.
    + by destruct (Hlast [] eq_refl).
    + assert (∃ r, (if bool_decide (2 ≤ length (x0 :: xs')) then
                      match np_min_flat (removelast ys) with
                      | None => Raise ValueError
                      | Some m =>
                          match last ys with
                          | None => Raise IndexError
                          | Some y_last =>
                              if py_gt y_last (py_add m (ors_conv_thresh p))
                              then Return None
                              else Return
                                     (Some [py_add a (ors_x_grid_gap p)])
                          end
                      end
                    else Return (Some [py_add a (ors_x_grid_gap p)])) =
                   Return r ∧
                   (r = None ∨ r = Some [py_add a (ors_x_grid_gap p)]))
        as (r & Hr1 & Hr).
      { case_bool_decide as H2; [|eauto].
        destruct (split_last ys) as (ys' & y & -> & Hys); [simpl in *; lia|].
        rewrite removelast_snoc, last_snoc.
        destruct ys' as [|y0 ys']; [simpl in *; lia|]. simpl.
        destruct (py_gt _ _); eauto. }
      rewrite Hr1. clear Hr1. case_bool_decide as Hm.
      * left. split; [done|]. simpl. lia.
      * destruct Hr as [-> | ->]; [left; split; [done|simpl; lia]|].
        right. eexists. split; [done|]. split; [done|]. lia.
    + by apply last_None in Hl.
Qed.

Lemma ors_step (s : ors_state) :
  ors_inv s →
  ors_done (pull_step f s) ∨
  (ors_inv (pull_step f s) ∧
   length (path_x (pull_exe (pull_step f s))) =
     S (length (path_x (pull_exe s))) ∧
   (Z.of_nat (length (path_x (pull_exe s))) ≤ ors_max_iter p)%Z).
Proof.
  intros (Hp & Hc & Hlen & Hbound & Hlast).
  destruct s as [p' e w c]. simpl in *. subst p' c.
  unfold pull_step. simpl.
  destruct (ors_next_cases e Hlen Hlast) as [[-> Hpos]|(x & -> & Hx & Hle)].
  - left. destruct (last (path_x e)) as [x|] eqn:Hl.
    + by exists e, x, w.
    + apply last_None in Hl. rewrite Hl in Hpos. simpl in Hpos. lia.
  - right. destruct (f x w) as [y w1]. simpl.
    rewrite !length_app. simpl.
    split; [|split; [lia|done]].
    unfold ors_inv. simpl. rewrite !length_app. simpl.
    split; [done|]. split; [done|]. split; [lia|]. split; [lia|].
    intros x'. rewrite last_snoc. by intros [= <-].
Qed.

Lemma ors_steps (d : nat) (s : ors_state) :
  ors_inv s →
  (ors_max_iter p + 1 - Z.of_nat (length (path_x (pull_exe s))) ≤
   Z.of_nat d)%Z →
  ∃ n, n ≤ S d ∧ ors_done (iter_steps n (pull_step f) s).
Proof.
  revert s. induction d as [|d IH]; intros s Hs Hd.
  - destruct (ors_step s Hs) as [Hdone|(_ & _ & Hle)]; [|lia].
    exists 1. split; [lia|done].
  - destruct (ors_step s Hs) as [Hdone|(Hinv & Hlen & _)].
    + exists 1. split; [lia|done].
    + destruct (IH (pull_step f s) Hinv) as (n & Hn & Hdone); [lia|].
      exists (S n). split; [lia|done].
Qed.
End OptRightScanRun.

(** X4. With a non-empty [init_x] and [max_iter >= 0], [OptRightScan]
    returns, whatever the oracle answers: after at most [max_iter + 2]
    evaluations of [get_next_x] the run has ended with a trace of between
    1 and [max_iter + 1] queries, as many outputs as inputs, and the
    output is the last input queried. *)
Theorem OptRightScan_run_returns {F W : Type} `{!PyNumber F}
  (f : list F → W → F * W) (p : OptRightScan_params F) (w : W) :
  ors_init_x p ≠ [] → (0 ≤ ors_max_iter p)%Z →
  ∃ n e x w',
    n ≤ Z.to_nat (ors_max_iter p) + 2 ∧
    (∀ m, n ≤ m →
       Algorithm_run_algorithm_on_f f m p w =
       PullState p e w' (PullFinished (Return (e, x)))) ∧
    last (path_x e) = Some x ∧
    1 ≤ length (path_x e) ≤ Z.to_nat (ors_max_iter p) + 1 ∧
    length (path_y e) = length (path_x e).
Proof.
  intros Hinit Hmax.
  destruct (ors_steps f p Hinit Hmax (Z.to_nat (ors_max_iter p) + 1)
              (pull_init p w))
    as (n & Hn & e & x & w' & Hs & Hlast & Hpos & Hbound & Hlen).
  { split; [done|]. split; [done|]. split; [done|]. simpl.
    split; [lia|done]. }
  { simpl. lia. }
  exists n, e, x, w'. split; [lia|]. split; [|split; [done|split; [lia|done]]].
  intros m Hm. unfold Algorithm_run_algorithm_on_f.
  replace m with (n + (m - n)) by lia. rewrite iter_steps_add, Hs.
  by erewrite pull_steps_finished.
Qed.

Lemma OptRightScan_run_returns_witness :
  ∃ n e x w',
    n ≤ 102 ∧
    (∀ m, n ≤ m →
       Algorithm_run_algorithm_on_f ex_square m
         (OptRightScan_set_params None None None None None) 0 =
       PullState (OptRightScan_set_params None None None None None) e w'
         (PullFinished (Return (e, x)))) ∧
    last (path_x e) = Some x ∧
    1 ≤ length (path_x e) ≤ 101 ∧
    length (path_y e) = length (path_x e).
Proof.
  apply (OptRightScan_run_returns ex_square
           (OptRightScan_set_params None None None None None) 0).
  - discriminate.
  - simpl. lia.
Defined.

(** X5. With a negative [max_iter] the first [get_next_x] returns the
    sentinel, and deriving the output from the empty trace raises
    [IndexError]: the run ends at its first step without a query. *)
Theorem OptRightScan_negative_max_iter {F W : Type} `{!PyNumber F}
  (f : list F → W → F * W) (p : OptRightScan_params F) (w : W) (n : nat) :
  (ors_max_iter p < 0)%Z → 0 < n →
  Algorithm_run_algorithm_on_f f n p w =
  PullState p empty_path w (PullFinished (Raise IndexError)).
Proof.
  intros Hmax Hn. destruct n as [|n]; [lia|].
  unfold Algorithm_run_algorithm_on_f. simpl.
  assert (pull_step f (pull_init p w) =
          PullState p empty_path w (PullFinished (Raise IndexError))) as ->.
  { unfold pull_step. simpl. unfold OptRightScan_get_next_x. simpl.
    by rewrite (bool_decide_eq_true_2 (_ < _)%Z) by lia. }
  by erewrite pull_steps_finished.
Qed.

Lemma OptRightScan_negative_max_iter_witness :
  Algorithm_run_algorithm_on_f ex_square 1
    (OptRightScan_set_params None None None None (Some (-1)%Z)) 0 =
  PullState (OptRightScan_set_params None None None None (Some (-1)%Z))
    empty_path 0 (PullFinished (Raise IndexError)).
Proof.
  apply (OptRightScan_negative_max_iter ex_square
           (OptRightScan_set_params None None None None (Some (-1)%Z)) 0 1).
  - simpl. lia.
  - lia.
Defined.

(** X6. With an empty [init_x] (and [max_iter >= 0]) the empty list is
    queried once; the second [get_next_x] raises [IndexError] at
    [exe_path.x[-1][0]], and the run ends with that one pair in the
    trace. *)
Theorem OptRightScan_empty_init_x {F W : Type} `{!PyNumber F}
  (f : list F → W → F * W) (p : OptRightScan_params F) (w : W) (n : nat) :
  ors_init_x p = [] → (0 ≤ ors_max_iter p)%Z → 1 < n →
  Algorithm_run_algorithm_on_f f n p w =
  PullState p (Namespace [[]] [(f [] w).1]) (f [] w).2
    (PullFinished (Raise IndexError)).
Proof.
  intros Hinit Hmax Hn. destruct n as [|[|n]]; [lia..|].
  unfold Algorithm_run_algorithm_on_f. simpl.
  assert (pull_step f (pull_init p w) =
          PullState p (Namespace [[]] [(f [] w).1]) (f [] w).2 Pulling) as ->.
  { unfold pull_step. simpl. unfold OptRightScan_get_next_x. simpl.
    rewrite (bool_decide_eq_false_2 (_ < _)%Z) by lia. rewrite Hinit.
    by destruct (f [] w). }
  assert (pull_step f
            (PullState p (Namespace [[]] [(f [] w).1]) (f [] w).2 Pulling) =
          PullState p (Namespace [[]] [(f [] w).1]) (f [] w).2
            (PullFinished (Raise IndexError))) as -> by done.
  by erewrite pull_steps_finished.
Qed.

Lemma OptRightScan_empty_init_x_witness :
  Algorithm_run_algorithm_on_f ex_square 2
    (OptRightScan_set_params None (Some []) None None None) 0 =
  PullState (OptRightScan_set_params None (Some []) None None None)
    (Namespace [[]] [0%Q]) 1 (PullFinished (Raise IndexError)).
Proof.
  apply (OptRightScan_empty_init_x ex_square
           (OptRightScan_set_params None (Some []) None None None) 0 2).
  - reflexivity.
  - simpl. lia.
  - lia.
Defined.

(** A returned result of the pull loop carries the trace on which
    [get_next_x] gave the sentinel and from which the output was
    derived. *)
Lemma pull_run_returned {X Y W P O : Type} `{!Algorithm X Y P O}
  (f : X → W → Y * W) (params : P) (w : W) (n : nat) e o :
  pull_ctl (Algorithm_run_algorithm_on_f f n params w) =
    PullFinished (Return (e, o)) →
  pull_exe (Algorithm_run_algorithm_on_f f n params w) = e ∧
  get_next_x params e = Return None ∧
  get_output_from_exe_path params e = Return o.
Proof.
  unfold Algorithm_run_algorithm_on_f.
  apply (iter_steps_invariant
           (λ s, pull_params s = params ∧
                 (pull_ctl s = PullFinished (Return (e, o)) →
                  pull_exe s = e ∧ get_next_x params e = Return None ∧
                  get_output_from_exe_path params e = Return o)));
    [|done].
  intros s [Hp Hs]. split; [by rewrite pull_step_params|].
  unfold pull_step. destruct (pull_ctl s) eqn:Hc; [|by rewrite Hc].
  rewrite Hp.
  destruct (get_next_x params (pull_exe s)) as [[x|]|err] eqn:Hn; simpl.
  - by destruct (f x (pull_world s)).
  - destruct (get_output_from_exe_path params (pull_exe s)) eqn:Ho; simpl;
      [|done].
    intros [= <- <-]. done.
  - done.
Qed.

(** Binary64 values for the examples: 0.1, 0.2, the sum
    0.30000000000000004 that [0.1 + 0.2] rounds to, and 1.0. *)
Definition ex_0_1 : float := 0x1.999999999999ap-4%float.
Definition ex_0_2 : float := 0x1.999999999999ap-3%float.
Definition ex_0_3 : float := 0x1.3333333333334p-2%float.
Definition ex_1_0 : float := 1%float.

(** An oracle that answers 0.1, then 0.30000000000000004, then 1.0,
    whatever the input; the world counts the queries. *)
Definition ex_float_oracle (x : list float) (w : nat) : float * nat :=
  (match w with 0 => ex_0_1 | 1 => ex_0_3 | _ => ex_1_0 end, S w).

Definition ex_float_params : OptRightScan_params float :=
  OptRightScanParams "OptRightScan" [0%float] ex_0_1 ex_0_2 100%Z.

(** With floats the test is decided in floating point: after the outputs
    0.1 and 0.30000000000000004 and with [conv_thresh = 0.2], the bound
    [0.1 + 0.2] rounds to 0.30000000000000004, the last output is not
    greater, and the scan goes on to the next point. *)
Example OptRightScan_float_rounding :
  PrimFloat.add ex_0_1 ex_0_2 = ex_0_3 ∧
  OptRightScan_get_next_x ex_float_params
    (Namespace [[0%float]; [ex_0_1]] [ex_0_1; ex_0_3]) =
  Return (Some [ex_0_2]).
Proof. split; reflexivity. Qed.

(** X7. The stopping rule of [OptRightScan], in the arithmetic of the
    numbers it is run on. In the trace of a run that returned, the
    convergence test failed at every output but the first and the last:
    that output is not greater than [np.min] of the outputs before it
    plus [conv_thresh]. And the run ended because the number of queries
    exceeded [max_iter] or because the test succeeded at the last
    output. *)
Theorem OptRightScan_stopping_rule {F W : Type} `{!PyNumber F}
  (f : list F → W → F * W) (p : OptRightScan_params F) (w : W) (n : nat)
  (e : exe_path (list F) F) (x : list F) :
  pull_ctl (Algorithm_run_algorithm_on_f f n p w) =
    PullFinished (Return (e, x)) →
  (∀ j y,
     1 ≤ j → S j < length (path_y e) → path_y e !! j = Some y →
     ∃ m, np_min_flat (take j (path_y e)) = Some m ∧
          py_gt y (py_add m (ors_conv_thresh p)) = false) ∧
  ((ors_max_iter p < Z.of_nat (length (path_y e)))%Z ∨
   ∃ m y_last,
     2 ≤ length (path_y e) ∧
     np_min_flat (removelast (path_y e)) = Some m ∧
     last (path_y e) = Some y_last ∧
     py_gt y_last (py_add m (ors_conv_thresh p)) = true).
Proof.
  intros Hc.
  destruct (pull_run_returned f p w n e x Hc) as (He & Hnone & _).
  pose proof (pull_run_lengths f n p w) as Hlen. simpl in Hlen.
  rewrite He in Hlen. split.
  - intros j y Hj HSj Hy.
    destruct (lookup_lt_is_Some_2 (path_x e) (S j)) as [xj Hxj]; [lia|].
    pose proof (pull_run_replayable f p w n (S j) xj) as Hre.
    rewrite He in Hre. specialize (Hre Hxj).
    apply OptRightScan_next_Some in Hre as [_ Hre]. simpl in Hre.
    destruct Hre as (m & y' & Hm & Hy' & Hgt).
    { rewrite length_take. lia. }
    assert (take (S j) (path_y e) = take j (path_y e) ++ [y]) as Htake
      by (by apply take_S_r).
    rewrite Htake, removelast_snoc in Hm. rewrite Htake, last_snoc in Hy'.
    injection Hy' as <-. by exists m.
  - apply OptRightScan_next_None in Hnone
      as [Hmax|(H2 & m & y & Hm & Hy & Hgt)].
    + left. by rewrite <-Hlen.
    + right. exists m, y. split; [lia|done].
Qed.

Lemma OptRightScan_stopping_rule_witness :
  let e :=
    Namespace [[0%float]; [ex_0_1]; [ex_0_2]] [ex_0_1; ex_0_3; ex_1_0] in
  pull_ctl (Algorithm_run_algorithm_on_f ex_float_oracle 4 ex_float_params 0) =
    PullFinished (Return (e, [ex_0_2])) ∧
  (∀ j y,
     1 ≤ j → S j < length (path_y e) → path_y e !! j = Some y →
     ∃ m, np_min_flat (take j (path_y e)) = Some m ∧
          py_gt y (py_add m (ors_conv_thresh ex_float_params)) = false) ∧
  ((ors_max_iter ex_float_params < Z.of_nat (length (path_y e)))%Z ∨
   ∃ m y_last,
     2 ≤ length (path_y e) ∧
     np_min_flat (removelast (path_y e)) = Some m ∧
     last (path_y e) = Some y_last ∧
     py_gt y_last (py_add m (ors_conv_thresh ex_float_params)) = true).
Proof.
  split; [reflexivity|].
  apply (OptRightScan_stopping_rule ex_float_oracle ex_float_params 0 4
           (Namespace [[0%float]; [ex_0_1]; [ex_0_2]]
              [ex_0_1; ex_0_3; ex_1_0])
           [ex_0_2]).
  reflexivity.
Defined.

(** ** [LinearScanRandGap] *)

(** The bounds handed to [randint] for an original grid of [n] points. *)
Lemma rand_gap_bounds (n : Z) :
  np_ceil ((1 - (2 # 10)) * inject_Z n)%Q = (- (- (8 * n) / 10))%Z ∧
  np_ceil ((1 + (2 # 10)) * inject_Z n)%Q = (- (- (12 * n) / 10))%Z.
Proof. split; reflexivity. Qed.

Lemma np_linspace_length (lo hi : Q) (n : nat) :
  length (np_linspace lo hi n) = n.
Proof.
  destruct n as [|[|n]]; [done..|].
  unfold np_linspace. by rewrite length_fmap, length_seq.
Qed.

Lemma np_min_max_defined (l : list (list Q)) :
  rectangular l = true → concat l ≠ [] →
  ∃ lo hi, np_min l = Some lo ∧ np_max l = Some hi.
Proof.
  unfold np_min, np_max. intros ->. destruct (concat l); [done|]. eauto.
Qed.

(** X8. When the original grid holds no number at all (the default
    [x_path = []], or a list of empty lists), a run of
    [LinearScanRandGap] raises [ValueError] before the pull loop starts:
    nothing is queried and the bundle is left as it was. *)
Theorem LinearScanRandGap_empty_grid_raises {Y W : Type}
  (f : list Q → W → Y * W) (np_random_randint : Z → Z → W → Z * W)
  (p : RandGap_params) (w : W) (n : nat) :
  concat (rg_x_path_orig p) = [] →
  let s := LinearScanRandGap_run_algorithm_on_f f np_random_randint n p w in
  pull_ctl s = PullFinished (Raise ValueError) ∧
  pull_exe s = empty_path ∧ pull_params s = p.
Proof.
  intros Hempty. unfold LinearScanRandGap_run_algorithm_on_f.
  unfold np_min, np_max. rewrite Hempty.
  case_bool_decide; [|done].
  destruct (np_random_randint _ _ w).
  by destruct (rectangular (rg_x_path_orig p)).
Qed.

Lemma LinearScanRandGap_empty_grid_raises_witness :
  let p := LinearScanRandGap_set_params None None in
  let s := LinearScanRandGap_run_algorithm_on_f ex_square ex_randint 3 p 0 in
  pull_ctl s = PullFinished (Raise ValueError) ∧
  pull_exe s = empty_path ∧ pull_params s = p.
Proof.
  apply (LinearScanRandGap_empty_grid_raises ex_square ex_randint
           (LinearScanRandGap_set_params None None) 0 3).
  reflexivity.
Defined.

(** A ragged grid has no array shape: [np.min] raises after the draw
    and before anything is queried or assigned. *)
Example LinearScanRandGap_ragged_grid_raises :
  let p := LinearScanRandGap_set_params None (Some [[1%Q]; [2%Q; 3%Q]]) in
  let s := LinearScanRandGap_run_algorithm_on_f ex_square ex_randint 3 p 0 in
  pull_ctl s = PullFinished (Raise ValueError) ∧
  pull_exe s = empty_path ∧ pull_params s = p.
Proof. repeat split. Qed.

(** X9. When the original grid is rectangular (all its points have the
    same number of coordinates) and holds a number, and [randint] keeps
    to its bounds, a run of [LinearScanRandGap] returns: it draws a size
    [k] with [0.8 n <= k < 1.2 n] for the [n] points of the original
    grid, assigns [k] one-element points to [x_path], queries exactly
    these in order, and returns the answers; [x_path_orig] and the name
    are unchanged. *)
Theorem LinearScanRandGap_run_returns {Y W : Type}
  (f : list Q → W → Y * W) (np_random_randint : Z → Z → W → Z * W)
  (p : RandGap_params) (w : W) :
  rectangular (rg_x_path_orig p) = true →
  concat (rg_x_path_orig p) ≠ [] →
  (∀ lo hi w', (lo < hi)%Z →
     (lo ≤ (np_random_randint lo hi w').1 < hi)%Z) →
  ∃ (k : nat) (grid : list (list Q)) (w1 : W),
    let n_orig := Z.of_nat (length (rg_x_path_orig p)) in
    let p' := RandGapParams (rg_name p) grid (rg_x_path_orig p) in
    let ys := (query_all f grid w1).1 in
    1 ≤ k ∧
    (8 * n_orig ≤ 10 * Z.of_nat k < 12 * n_orig)%Z ∧
    length grid = k ∧ length ys = k ∧
    Forall (λ x, length x = 1) grid ∧
    ∀ m, k < m →
      LinearScanRandGap_run_algorithm_on_f f np_random_randint m p w =
      PullState p' (Namespace grid ys) (query_all f grid w1).2
        (PullFinished (Return (Namespace grid ys, ys))).
Proof.
  intros Hrect Hgrid Hrand.
  destruct (np_min_max_defined _ Hrect Hgrid) as (lo & hi & Hlo & Hhi).
  assert (1 ≤ length (rg_x_path_orig p)) as Hn.
  { destruct (rg_x_path_orig p); [done|simpl; lia]. }
  unfold LinearScanRandGap_run_algorithm_on_f.
  destruct (rand_gap_bounds (Z.of_nat (length (rg_x_path_orig p))))
    as [-> ->].
  rewrite Hlo, Hhi.
  set (n_orig := Z.of_nat (length (rg_x_path_orig p))).
  assert (1 ≤ n_orig)%Z as Hn' by lia.
  assert (- (- (8 * n_orig) / 10) < - (- (12 * n_orig) / 10))%Z as Hlt.
  { Z.div_mod_to_equations. lia. }
  rewrite bool_decide_eq_true_2 by done.
  specialize (Hrand _ _ w Hlt).
  destruct (np_random_randint _ _ w) as [k w1]. simpl in Hrand.
  exists (Z.to_nat k), ((λ x, [x]) <$> np_linspace lo hi (Z.to_nat k)), w1.
  simpl.
  assert (length ((λ x : Q, [x]) <$> np_linspace lo hi (Z.to_nat k)) =
          Z.to_nat k) as Hlen
    by (by rewrite length_fmap, np_linspace_length).
  split; [Z.div_mod_to_equations; lia|].
  split; [Z.div_mod_to_equations; lia|].
  split; [done|]. split; [by rewrite query_all_length|].
  split; [by apply Forall_fmap, Forall_true|].
  intros m Hm. unfold Algorithm_run_algorithm_on_f.
  replace m with (S (Z.to_nat k) + (m - S (Z.to_nat k))) by lia.
  rewrite iter_steps_add.
  pose proof (base_scan_run (Algorithm0 := LinearScanRandGap) f rg_x_path
                (λ l, l) (λ _ _, eq_refl) (λ _ _, eq_refl)
                (RandGapParams (rg_name p)
                   ((λ x, [x]) <$> np_linspace lo hi (Z.to_nat k))
                   (rg_x_path_orig p)) w1) as Hrun.
  unfold Algorithm_run_algorithm_on_f in Hrun. simpl rg_x_path in Hrun.
  rewrite Hlen in Hrun. rewrite Hrun. by erewrite pull_steps_finished.
Qed.

Lemma LinearScanRandGap_run_returns_witness :
  ∃ (k : nat) (grid : list (list Q)) (w1 : nat),
    let p := LinearScanRandGap_set_params None (Some [[3%Q]; [1%Q]]) in
    let n_orig := Z.of_nat (length (rg_x_path_orig p)) in
    let p' := RandGapParams (rg_name p) grid (rg_x_path_orig p) in
    let ys := (query_all ex_square grid w1).1 in
    1 ≤ k ∧
    (8 * n_orig ≤ 10 * Z.of_nat k < 12 * n_orig)%Z ∧
    length grid = k ∧ length ys = k ∧
    Forall (λ x, length x = 1) grid ∧
    ∀ m, k < m →
      LinearScanRandGap_run_algorithm_on_f ex_square ex_randint m p 0 =
      PullState p' (Namespace grid ys) (query_all ex_square grid w1).2
        (PullFinished (Return (Namespace grid ys, ys))).
Proof.
  apply (LinearScanRandGap_run_returns ex_square ex_randint
           (LinearScanRandGap_set_params None (Some [[3%Q]; [1%Q]])) 0).
  - reflexivity.
  - discriminate.
  - intros lo hi w' Hlt. simpl. lia.
Defined.

(** ** The search at its edges *)

Section DijkstrasEdges.
Context {X Y W : Type} `{Heapq}.
Variable obj : ref → Vertex.
Variable f : @oracle X Y W.
Variable np_random_seed : W → W.

#[local] Abbreviation run := (Dijkstras_run obj f np_random_seed).

(** The state at the first loop test when the bundle has vertices and
    a start. *)
Lemma init_started (params : @Dijkstras_params X Y W) vs st w :
  vertices params = Some vs → start params = Some st →
  init np_random_seed params w =
  State params (replicate (length vs) false) (replicate (length vs) Inf)
    (replicate (length vs) None) (heap_singleton (0%Z, st)) 0 empty_path
    (np_random_seed w) AtWhile.
Proof. intros Hvs Hst. unfold init. by rewrite Hvs, Hst. Qed.

(** The caller's result once the run has ended after [k] steps. *)
Lemma run_result k n (params : @Dijkstras_params X Y W) w r :
  ctl (run k params w) = Finished r → k ≤ n →
  run n params w = run k params w.
Proof.
  intros Hc Hle. apply run_ended; [|done].
  unfold running. rewrite Hc. intros [].
Qed.

Lemma start_is_goal_run (params : @Dijkstras_params X Y W) vs st gl v w :
  vertices params = Some vs → start params = Some st →
  goal params = Some gl → index (obj st) = index (obj gl) →
  vs !! index (obj st) = Some v →
  ctl (run 1 params w) = Finished (Return (Fin 0, [v])) ∧
  exe (run 1 params w) = empty_path ∧
  world (run 1 params w) = np_random_seed w.
Proof.
  intros Hvs Hst Hgl Hidx Hv.
  pose proof (lookup_lt_Some _ _ _ Hv) as Hlt.
  unfold Dijkstras_run. simpl. rewrite (init_started params vs st w Hvs Hst).
  unfold step, while_step. simpl.
  destruct (heappop_singleton (0%Z, st)) as (h' & -> & _).
  rewrite lookup_replicate_2 by done. rewrite Hgl.
  rewrite bool_decide_eq_true_2 by done. simpl.
  unfold found_goal, backtrack_indices. simpl.
  rewrite lookup_replicate_2 by done. simpl. rewrite Hvs. simpl.
  by rewrite Hv.
Qed.

Lemma start_out_of_range_run (params : @Dijkstras_params X Y W) vs st w :
  vertices params = Some vs → start params = Some st →
  length vs ≤ index (obj st) →
  ctl (run 1 params w) = Finished (Raise IndexError) ∧
  exe (run 1 params w) = empty_path.
Proof.
  intros Hvs Hst Hge.
  unfold Dijkstras_run. simpl. rewrite (init_started params vs st w Hvs Hst).
  unfold step, while_step. simpl.
  destruct (heappop_singleton (0%Z, st)) as (h' & -> & _).
  rewrite (proj2 (lookup_ge_None _ _)); [done|].
  by rewrite length_replicate.
Qed.

(** Without an evaluator nothing is appended to the trace and the world
    is only reseeded. *)
Lemma default_cost_func_step (s : @state X Y W _) :
  cost_func (self_params s) = DefaultCostFunc →
  exe (step obj f s) = exe s ∧ world (step obj f s) = world s.
Proof.
  intros Hcf. unfold step, while_step, for_step, distance. rewrite Hcf.
  case_all.
Qed.

Lemma default_cost_func_first_neighbor (params : @Dijkstras_params X Y W)
  vs st gl nb rest w :
  cost_func params = DefaultCostFunc →
  vertices params = Some vs → start params = Some st →
  goal params = Some gl → index (obj st) < length vs →
  index (obj st) ≠ index (obj gl) → neighbors (obj st) = nb :: rest →
  ctl (run 2 params w) = Finished (Raise TypeError).
Proof.
  intros Hcf Hvs Hst Hgl Hlt Hne Hnb.
  unfold Dijkstras_run. simpl. rewrite (init_started params vs st w Hvs Hst).
  unfold step at 2. unfold while_step. simpl.
  destruct (heappop_singleton (0%Z, st)) as (h' & -> & _).
  rewrite lookup_replicate_2 by done. rewrite Hgl.
  rewrite bool_decide_eq_false_2 by done. rewrite Hnb.
  unfold step, for_step, distance. simpl. by rewrite Hcf.
Qed.
End DijkstrasEdges.

(** X10. A search whose start and goal have the same index returns at
    its first step, whatever the evaluator and the ground-truth cost
    are: no query is issued, the cost is 0 and the path is the one vertex
    that [vertices] holds at that index. *)
Theorem Dijkstras_start_is_goal {X Y W : Type} `{Heapq} (obj : ref → Vertex)
  (f : @oracle X Y W) (np_random_seed : W → W)
  (params : @Dijkstras_params X Y W) (vs : list ref) (st gl v : ref) (w : W)
  (n : nat) :
  vertices params = Some vs → start params = Some st →
  goal params = Some gl → index (obj st) = index (obj gl) →
  vs !! index (obj st) = Some v → 0 < n →
  Dijkstras_run_algorithm_on_f obj f np_random_seed n params w =
    Some (Return (empty_path, (Fin 0, [v]))) ∧
  world (Dijkstras_run obj f np_random_seed n params w) = np_random_seed w.
Proof.
  intros Hvs Hst Hgl Hidx Hv Hn.
  destruct (start_is_goal_run obj f np_random_seed params vs st gl v w
              Hvs Hst Hgl Hidx Hv) as (Hc & He & Hw).
  unfold Dijkstras_run_algorithm_on_f.
  rewrite (run_result obj f np_random_seed 1 n params w _ Hc) by lia.
  by rewrite Hc, He, Hw.
Qed.

Lemma Dijkstras_start_is_goal_witness :
  Dijkstras_run_algorithm_on_f (H := list_heapq) ex_obj ex_neg_oracle id 5
    (ex_params 2 2) 0 =
    Some (Return (empty_path, (Fin 0, [2]))) ∧
  world (Dijkstras_run (H := list_heapq) ex_obj ex_neg_oracle id 5
           (ex_params 2 2) 0) = 0.
Proof.
  apply (Dijkstras_start_is_goal (H := list_heapq) ex_obj ex_neg_oracle id
           (ex_params 2 2) ex_vertices 2 2 2 0 5); try reflexivity.
  lia.
Defined.

(** X11. A search whose start has an index beyond the vertex list raises
    [IndexError] at [explored[current.index]] in its first step, before
    any query. *)
Theorem Dijkstras_start_index_out_of_range {X Y W : Type} `{Heapq}
  (obj : ref → Vertex) (f : @oracle X Y W) (np_random_seed : W → W)
  (params : @Dijkstras_params X Y W) (vs : list ref) (st : ref) (w : W)
  (n : nat) :
  vertices params = Some vs → start params = Some st →
  length vs ≤ index (obj st) → 0 < n →
  Dijkstras_run_algorithm_on_f obj f np_random_seed n params w =
    Some (Raise IndexError) ∧
  exe (Dijkstras_run obj f np_random_seed n params w) = empty_path.
Proof.
  intros Hvs Hst Hge Hn.
  destruct (start_out_of_range_run obj f np_random_seed params vs st w
              Hvs Hst Hge) as (Hc & He).
  unfold Dijkstras_run_algorithm_on_f.
  rewrite (run_result obj f np_random_seed 1 n params w _ Hc) by lia.
  by rewrite Hc, He.
Qed.

Lemma Dijkstras_start_index_out_of_range_witness :
  let params :=
    DijkstrasParams "Dijkstras" (Some 3) (Some 0) (Some [0; 1; 2])
      (CostFunc ex_cost_func) ex_true_cost in
  Dijkstras_run_algorithm_on_f (H := list_heapq) ex_obj ex_oracle id 1
    params 0 = Some (Raise IndexError) ∧
  exe (Dijkstras_run (H := list_heapq) ex_obj ex_oracle id 1 params 0) =
    empty_path.
Proof.
  apply (Dijkstras_start_index_out_of_range (H := list_heapq) ex_obj
           ex_oracle id
           (DijkstrasParams "Dijkstras" (Some 3) (Some 0) (Some [0; 1; 2])
              (CostFunc ex_cost_func) ex_true_cost)
           [0; 1; 2] 3 0 1); try reflexivity; simpl; lia.
Defined.

(** X12. A search built without [cost_func] never queries the oracle:
    after any number of steps the trace is empty and the world is the
    reseeded one. *)
Theorem Dijkstras_default_cost_func_never_queries {X Y W : Type} `{Heapq}
  (obj : ref → Vertex) (f : @oracle X Y W) (np_random_seed : W → W)
  (params : @Dijkstras_params X Y W) (w : W) (n : nat) :
  cost_func params = DefaultCostFunc →
  exe (Dijkstras_run obj f np_random_seed n params w) = empty_path ∧
  world (Dijkstras_run obj f np_random_seed n params w) = np_random_seed w.
Proof.
  intros Hcf. unfold Dijkstras_run.
  apply (iter_steps_invariant
           (λ s, self_params s = params ∧ exe s = empty_path ∧
                 world s = np_random_seed w)).
  - intros s (Hp & He & Hw).
    destruct (default_cost_func_step obj f s) as [He' Hw'];
      [by rewrite Hp|].
    by rewrite step_params, He', Hw'.
  - split; [|split].
    + exact (run_params obj f np_random_seed 0 params w).
    + apply init_exe.
    + apply init_world.
Qed.

Lemma Dijkstras_default_cost_func_never_queries_witness :
  let params :=
    DijkstrasParams "Dijkstras" (Some 0) (Some 3) (Some ex_vertices)
      DefaultCostFunc ex_true_cost in
  exe (Dijkstras_run (H := list_heapq) ex_obj ex_oracle id 9 params 0) =
    empty_path ∧
  world (Dijkstras_run (H := list_heapq) ex_obj ex_oracle id 9 params 0) = 0.
Proof.
  apply (Dijkstras_default_cost_func_never_queries (H := list_heapq) ex_obj
           ex_oracle id
           (DijkstrasParams "Dijkstras" (Some 0) (Some 3) (Some ex_vertices)
              DefaultCostFunc ex_true_cost) 0 9).
  reflexivity.
Defined.

(** X13. A search built without [cost_func], from a start in range that
    is not the goal and has a neighbour, raises [TypeError] at the first
    call of the two-argument default with three arguments. *)
Theorem Dijkstras_default_cost_func_raises {X Y W : Type} `{Heapq}
  (obj : ref → Vertex) (f : @oracle X Y W) (np_random_seed : W → W)
  (raw : @Dijkstras_raw_params X Y W) (vs : list ref) (st gl : ref) (w : W)
  (n : nat) :
  raw_cost_func raw = None →
  raw_vertices raw = Some vs → raw_start raw = Some st →
  raw_goal raw = Some gl → index (obj st) < length vs →
  index (obj st) ≠ index (obj gl) → neighbors (obj st) ≠ [] → 1 < n →
  ∃ params,
    Dijkstras_set_params raw = Return params ∧
    Dijkstras_run_algorithm_on_f obj f np_random_seed n params w =
      Some (Raise TypeError).
Proof.
  intros Hcf Hvs Hst Hgl Hlt Hne Hnb Hn.
  eexists. split; [reflexivity|].
  destruct (neighbors (obj st)) as [|nb rest] eqn:Hnbs; [done|].
  unfold Dijkstras_run_algorithm_on_f.
  erewrite (run_result obj f np_random_seed 2 n); [| |lia].
  - erewrite default_cost_func_first_neighbor; try done.
    simpl. by rewrite Hcf.
  - eapply default_cost_func_first_neighbor; try done.
    simpl. by rewrite Hcf.
Qed.

Lemma Dijkstras_default_cost_func_raises_witness :
  ∃ params,
    Dijkstras_set_params
      (DijkstrasRawParams None (Some 0) (Some 3) (Some ex_vertices) None
         (Some ex_true_cost)) = Return params ∧
    Dijkstras_run_algorithm_on_f (H := list_heapq) ex_obj ex_oracle id 2
      params 0 = Some (Raise TypeError).
Proof.
  apply (Dijkstras_default_cost_func_raises (H := list_heapq) ex_obj
           ex_oracle id
           (DijkstrasRawParams None (Some 0) (Some 3) (Some ex_vertices) None
              (Some ex_true_cost))
           ex_vertices 0 3 0 2); try reflexivity.
  - simpl. lia.
  - discriminate.
  - discriminate.
  - lia.
Defined.

(** ** The per-vertex lists of the search *)

(** The number of [True] flags in [explored]. *)
Fixpoint explored_count (ex : list bool) : nat :=
  match ex with
  | [] => 0
  | b :: rest => (if b then 1 else 0) + explored_count rest
  end.

Lemma explored_count_replicate n : explored_count (replicate n false) = 0.
Proof. induction n as [|n IH]; simpl; [done|lia]. Qed.

Lemma explored_count_insert ex j :
  ex !! j = Some false →
  explored_count (<[j:=true]> ex) = S (explored_count ex).
Proof.
  revert j. induction ex as [|b ex IH]; intros [|j]; simpl; try done.
  - by intros [= ->].
  - intros Hj. rewrite (IH j Hj). lia.
Qed.

Lemma explored_count_le ex : explored_count ex ≤ length ex.
Proof. induction ex as [|[|] ex IH]; simpl; lia. Qed.

Section DijkstrasLists.
Context {X Y W : Type} `{Heapq}.
Variable obj : ref → Vertex.
Variable f : @oracle X Y W.
Variable np_random_seed : W → W.

#[local] Abbreviation state := (@state X Y W _).
#[local] Abbreviation step := (step obj f).
#[local] Abbreviation run := (Dijkstras_run obj f np_random_seed).

(** The three lists have one entry per vertex and [i] counts the
    explored ones. *)
Definition bookkeeping (s : state) : Prop :=
  let n := length (default [] (vertices (self_params s))) in
  length (explored s) = n ∧ length (min_cost s) = n ∧
  length (prev s) = n ∧ i s = explored_count (explored s).

Lemma bookkeeping_init params w : bookkeeping (init np_random_seed params w).
Proof.
  unfold bookkeeping, init.
  destruct (vertices params) as [vs|] eqn:Hvs; simpl; [|by rewrite Hvs].
  destruct (start params); simpl; rewrite Hvs; simpl;
    by rewrite !length_replicate, explored_count_replicate.
Qed.

Lemma bookkeeping_step (s : state) : bookkeeping s → bookkeeping (step s).
Proof.
  unfold bookkeeping. intros (Hex & Hmc & Hpv & Hi).
  rewrite step_params.
  unfold step, while_step, for_step, distance.
  case_all; rewrite ?length_insert; try done.
  all: repeat split; try done.
  all: by rewrite explored_count_insert, Hi.
Qed.

(** What a step keeps of the lists: an explored vertex stays explored
    and keeps its cost and predecessor, and a finite cost is only
    replaced by a smaller one. *)
Definition progress (s s' : state) : Prop :=
  ∀ j,
    (explored s !! j = Some true →
     explored s' !! j = Some true ∧
     min_cost s' !! j = min_cost s !! j ∧ prev s' !! j = prev s !! j) ∧
    (∀ c, min_cost s !! j = Some (Fin c) →
          ∃ c', min_cost s' !! j = Some (Fin c') ∧ (c' ≤ c)%Z).

Lemma progress_refl (s : state) : progress s s.
Proof. intros j. split; [done|]. intros c Hc. exists c. split; [done|lia]. Qed.

Lemma progress_trans (s1 s2 s3 : state) :
  progress s1 s2 → progress s2 s3 → progress s1 s3.
Proof.
  intros H12 H23 j. destruct (H12 j) as [He12 Hm12].
  destruct (H23 j) as [He23 Hm23]. split.
  - intros Hj. destruct (He12 Hj) as (Hj2 & Hmc & Hpv).
    destruct (He23 Hj2) as (Hj3 & Hmc' & Hpv').
    split; [done|]. split; congruence.
  - intros c Hc. destruct (Hm12 c Hc) as (c2 & Hc2 & Hle).
    destruct (Hm23 c2 Hc2) as (c3 & Hc3 & Hle'). exists c3.
    split; [done|lia].
Qed.

Lemma progress_same (s s' : state) :
  explored s' = explored s → min_cost s' = min_cost s → prev s' = prev s →
  progress s s'.
Proof.
  intros He Hm Hp j. rewrite He, Hm, Hp. apply progress_refl.
Qed.

Lemma progress_while (s : state) : progress s (while_step obj s).
Proof.
  unfold while_step.
  destruct (heappop (to_explore s)) as [[[c v] h']|]; [|by apply progress_same].
  destruct (explored s !! index (obj v)) as [[|]|] eqn:Hlk;
    [by apply progress_same| |by apply progress_same].
  assert (∀ k, progress s
            (State (self_params s) (<[index (obj v):=true]> (explored s))
               (min_cost s) (prev s) h' (S (i s)) (exe s) (world s) k))
    as Hk.
  { intros k j. simpl. split; [|intros c0 Hc; exists c0; split; [done|lia]].
    intros Hj. split; [|done].
    destruct (decide (index (obj v) = j)) as [<-|Hne]; [congruence|].
    by rewrite list_lookup_insert_ne. }
  destruct (goal (self_params s)); [|apply Hk].
  case_bool_decide; apply Hk.
Qed.

Lemma progress_for (s : state) best_cost current neighbor todo :
  progress s (for_step obj f s best_cost current neighbor todo).
Proof.
  unfold for_step.
  destruct (distance _ _ _ _ _ _) as [[[cost|e] e'] w'];
    [|by apply progress_same].
  destruct (explored s !! index (obj neighbor)) as [[|]|] eqn:Hlk;
    [by apply progress_same| |by apply progress_same].
  destruct (min_cost s !! index (obj neighbor)) as [m|] eqn:Hm;
    [|by apply progress_same].
  destruct (cost_lt (best_cost + cost) m) eqn:Hlt; [|by apply progress_same].
  intros j. simpl.
  destruct (decide (index (obj neighbor) = j)) as [<-|Hne].
  - split; [congruence|]. intros c Hc. rewrite Hm in Hc. injection Hc as ->.
    exists (best_cost + cost)%Z.
    rewrite list_lookup_insert_eq by (by eapply lookup_lt_Some).
    split; [done|]. apply cost_lt_true in Hlt. lia.
  - rewrite !list_lookup_insert_ne by done. apply progress_refl.
Qed.

Lemma progress_step (s : state) : progress s (step s).
Proof.
  unfold step. destruct (ctl s) as [|best current [|nb todo]| |r].
  - apply progress_while.
  - by apply progress_same.
  - apply progress_for.
  - apply progress_refl.
  - apply progress_refl.
Qed.

Lemma progress_run n m params w :
  n ≤ m → progress (run n params w) (run m params w).
Proof.
  intros Hle. replace m with (n + (m - n)) by lia.
  generalize (m - n) as k. intros k. induction k as [|k IH].
  - rewrite Nat.add_0_r. apply progress_refl.
  - rewrite Nat.add_succ_r, run_S.
    eapply progress_trans; [exact IH|apply progress_step].
Qed.
End DijkstrasLists.

(** X14. Throughout a run of the search, whatever the bundle, the lists
    [explored], [min_cost] and [prev] keep one entry per vertex, and the
    counter [i] is the number of vertices marked explored (so at most
    the number of vertices). *)
Theorem Dijkstras_lists_are_aligned {X Y W : Type} `{Heapq}
  (obj : ref → Vertex) (f : @oracle X Y W) (np_random_seed : W → W)
  (params : @Dijkstras_params X Y W) (w : W) (n : nat) :
  let s := Dijkstras_run obj f np_random_seed n params w in
  let len := length (default [] (vertices params)) in
  length (explored s) = len ∧ length (min_cost s) = len ∧
  length (prev s) = len ∧
  i s = explored_count (explored s) ∧ i s ≤ len.
Proof.
  intros s len.
  assert (bookkeeping s) as (Hex & Hmc & Hpv & Hi).
  { apply (iter_steps_invariant bookkeeping).
    - apply bookkeeping_step.
    - apply bookkeeping_init. }
  unfold s in Hex, Hmc, Hpv. rewrite run_params in Hex, Hmc, Hpv.
  repeat split; try done.
  rewrite Hi. fold len in Hex. rewrite <-Hex. apply explored_count_le.
Qed.

(** X15. Explored vertices are settled: once a vertex is marked explored
    it stays so, and its entries in [min_cost] and [prev] never change
    again; and a finite entry of [min_cost] is only ever replaced by a
    smaller one. *)
Theorem Dijkstras_explored_is_settled {X Y W : Type} `{Heapq}
  (obj : ref → Vertex) (f : @oracle X Y W) (np_random_seed : W → W)
  (params : @Dijkstras_params X Y W) (w : W) (n m j : nat) :
  n ≤ m →
  let s := Dijkstras_run obj f np_random_seed n params w in
  let s' := Dijkstras_run obj f np_random_seed m params w in
  (explored s !! j = Some true →
   explored s' !! j = Some true ∧
   min_cost s' !! j = min_cost s !! j ∧ prev s' !! j = prev s !! j) ∧
  (∀ c, min_cost s !! j = Some (Fin c) →
        ∃ c', min_cost s' !! j = Some (Fin c') ∧ (c' ≤ c)%Z).
Proof. intros Hle. by apply progress_run. Qed.

Lemma Dijkstras_explored_is_settled_witness :
  let s := Dijkstras_run (H := list_heapq) ex_obj ex_oracle id 4
             (ex_params 0 3) 0 in
  let s' := Dijkstras_run (H := list_heapq) ex_obj ex_oracle id 12
              (ex_params 0 3) 0 in
  min_cost s !! 2 = Some (Fin 4) ∧ min_cost s' !! 2 = Some (Fin 2) ∧
  (explored s !! 2 = Some true →
   explored s' !! 2 = Some true ∧
   min_cost s' !! 2 = min_cost s !! 2 ∧ prev s' !! 2 = prev s !! 2) ∧
  (∀ c, min_cost s !! 2 = Some (Fin c) →
        ∃ c', min_cost s' !! 2 = Some (Fin c') ∧ (c' ≤ c)%Z).
Proof.
  split; [reflexivity|]. split; [reflexivity|].
  apply (Dijkstras_explored_is_settled (H := list_heapq) ex_obj ex_oracle id
           (ex_params 0 3) 0 4 12 2).
  lia.
Defined.

(** ** How many queries the search can issue *)

(** The out-degrees of the vertices not explored yet. *)
Definition unexplored_degree (obj : ref → Vertex) (ex : list bool)
  (l : list ref) : nat :=
  sum_list
    (zip_with (λ (b : bool) v, if b then 0 else length (neighbors (obj v)))
       ex l).

Lemma unexplored_degree_insert obj ex l j v :
  ex !! j = Some false → l !! j = Some v →
  unexplored_degree obj (<[j:=true]> ex) l + length (neighbors (obj v)) =
  unexplored_degree obj ex l.
Proof.
  unfold unexplored_degree. revert l j.
  induction ex as [|b ex IH]; intros [|a l] [|j]; simpl; try done.
  - intros [= ->] [= ->]. lia.
  - intros Hex Hl. specialize (IH l j Hex Hl). lia.
Qed.

(** The number of edges of the graph, counted at their sources. *)
Definition edge_count (obj : ref → Vertex) (l : list ref) : nat :=
  sum_list ((λ v, length (neighbors (obj v))) <$> l).

Lemma unexplored_degree_init obj l :
  unexplored_degree obj (replicate (length l) false) l = edge_count obj l.
Proof.
  unfold unexplored_degree, edge_count.
  induction l as [|v l IH]; simpl in *; [done|]. by rewrite IH.
Qed.

Section DijkstrasBudget.
Context {X Y W : Type} `{Heapq}.
Variable obj : ref → Vertex.
Variable f : @oracle X Y W.
Variable np_random_seed : W → W.
Variable vs : list ref.
Variables st gl : ref.
Variable nm : string.
Variable g : ref → ref → @oracle X Y W → W → (Z * list X * list Y) * W.
Variable tc : ref → ref → pyval.
Hypothesis Hstable : stable_indices obj vs.
Hypothesis Hclosed : closed_under_neighbors obj vs.
Hypothesis Hst : st ∈ vs.
Hypothesis Hgl : gl ∈ vs.
Hypothesis Hnonneg : nonneg_evaluator obj f vs g.
(** No call of the evaluator issues more than [q] queries. *)
Variable q : nat.
Hypothesis Hq : ∀ u v w, length (g u v f w).1.1.2 ≤ q.

#[local] Abbreviation state := (@state X Y W _).
#[local] Abbreviation step := (step obj f).
#[local] Abbreviation safe := (safe obj vs st gl nm g tc).
#[local] Abbreviation params := (search_params vs st gl nm g tc).

(** Calls of the evaluator still to come: the rest of the running for
    loop and one call per edge out of an unexplored vertex. *)
Definition calls_left (s : state) : nat :=
  match ctl s with
  | AtFor _ _ todo => length todo
  | _ => 0
  end + unexplored_degree obj (explored s) vs.

Lemma found_goal_calls (s : state) c v k :
  calls_left (set_ctl s (found_goal obj s c v)) ≤
  k + unexplored_degree obj (explored s) vs.
Proof. unfold calls_left, found_goal. simpl. case_all; lia. Qed.

Lemma budget_step (s : state) :
  safe s → running s →
  length (path_x (exe (step s))) + q * calls_left (step s) ≤
  length (path_x (exe s)) + q * calls_left s.
Proof.
  intros Hsafe Hrun.
  pose proof (safe_params _ _ _ _ _ _ _ s Hsafe) as Hp.
  pose proof (safe_heap _ _ _ _ _ _ _ s Hsafe) as Hheap.
  destruct s as [p ex mc pv h i0 e w c]. simpl in *. subst p.
  unfold running in Hrun. simpl in Hrun.
  destruct c as [|best current [|nb todo]| |r]; try done.
  - unfold step, while_step. simpl.
    destruct (heappop h) as [[[c v] h']|] eqn:Hpop;
      [|unfold calls_left; simpl; lia].
    apply heappop_Some in Hpop as [Hperm _].
    destruct (Hheap c v) as [Hv _];
      [rewrite Hperm; apply list_elem_of_here|].
    destruct (ex !! index (obj v)) as [[|]|] eqn:Hlk;
      try (unfold calls_left; simpl; lia).
    pose proof (unexplored_degree_insert obj ex vs _ v Hlk
                  (index_lookup obj vs Hstable v Hv)) as Hdeg.
    case_bool_decide.
    + match goal with
      | |- context [found_goal obj ?s2 c v] =>
          pose proof (found_goal_calls s2 c v 0) as Hfg
      end.
      simpl in Hfg |- *. unfold calls_left at 2. simpl. nia.
    + unfold calls_left. simpl. nia.
  - unfold step, for_step, distance, calls_left. simpl.
    pose proof (Hq current nb w) as Hlen.
    destruct (g current nb f w) as [[[cost xs] ys] w']. simpl in Hlen.
    case_all; rewrite ?length_app; nia.
Qed.

Lemma budget_run n w :
  let s := Dijkstras_run obj f np_random_seed n params w in
  (safe s ∧ running s ∨ ¬ running s) ∧
  length (path_x (exe s)) + q * calls_left s ≤ q * edge_count obj vs.
Proof.
  induction n as [|n [Hs Hb]].
  - split.
    + left. split; [by apply init_safe|]. unfold Dijkstras_run. simpl.
      by rewrite init_search.
    + unfold Dijkstras_run. simpl. rewrite init_search.
      unfold calls_left. simpl. rewrite unexplored_degree_init. lia.
  - rewrite run_S. simpl in *.
    set (s := Dijkstras_run obj f np_random_seed n params w) in *.
    destruct Hs as [[Hsafe Hrun]|Hend].
    + split; [|pose proof (budget_step s Hsafe Hrun); lia].
      destruct (safe_step obj f vs st gl nm g tc Hstable Hclosed Hgl Hnonneg
                  s Hsafe Hrun)
        as [(Hsafe' & Hrun' & _)|[(_ & _ & ->)|(c & h' & _ & _ & _ & ->)]].
      * by left.
      * right. unfold running. simpl. intros [].
      * right. apply found_goal_not_running.
    + rewrite (step_not_running obj f s Hend). by split; [right|].
Qed.
End DijkstrasBudget.

(** X16. On a well-formed graph (stable indices, listed neighbours,
    start and goal listed) with an evaluator that returns non-negative
    costs and issues at most [q] queries per call, the trace of the
    search never holds more than [q] queries per edge of the graph: the
    evaluator is called at most once for each edge. *)
Theorem Dijkstras_query_budget {X Y W : Type} `{Heapq} (obj : ref → Vertex)
  (f : @oracle X Y W) (np_random_seed : W → W) (vs : list ref)
  (st gl : ref) (nm : string)
  (g : ref → ref → @oracle X Y W → W → (Z * list X * list Y) * W)
  (tc : ref → ref → pyval) (q : nat) (w : W) (n : nat) :
  stable_indices obj vs → closed_under_neighbors obj vs →
  st ∈ vs → gl ∈ vs → nonneg_evaluator obj f vs g →
  (∀ u v w', length (g u v f w').1.1.2 ≤ q) →
  length (path_x (exe (Dijkstras_run obj f np_random_seed n
                         (search_params vs st gl nm g tc) w))) ≤
  q * edge_count obj vs.
Proof.
  intros Hstable Hclosed Hst Hgl Hnonneg Hq.
  destruct (budget_run obj f np_random_seed vs st gl nm g tc Hstable Hclosed
              Hst Hgl Hnonneg q Hq n w) as [_ Hb].
  simpl in Hb. lia.
Qed.

Lemma Dijkstras_query_budget_witness :
  length (path_x (exe (Dijkstras_run (H := list_heapq) ex_obj ex_oracle id 13
                         (search_params ex_vertices 0 3 "Dijkstras"
                            ex_cost_func ex_true_cost) 0))) ≤
  1 * edge_count ex_obj ex_vertices.
Proof.
  apply (Dijkstras_query_budget (H := list_heapq) ex_obj ex_oracle id
           ex_vertices 0 3 "Dijkstras" ex_cost_func ex_true_cost 1 0 13).
  - reflexivity.
  - decide_by_compute.
  - decide_by_compute.
  - decide_by_compute.
  - intros u v w' Hu Hv. simpl. unfold ex_wt. repeat case_match; lia.
  - intros u v w'. simpl. lia.
Defined.

(** ** The search with an evaluator that may answer differently each time *)

(** The path read off index by index has these indices. *)
Lemma vertices_at_indices (obj : ref → Vertex) (vs : list ref) l p :
  stable_indices obj vs → vertices_at vs l = Return p →
  (λ v, index (obj v)) <$> p = l.
Proof.
  intros Hstable. revert p. induction l as [|j l IH]; intros p; simpl.
  - by intros [= <-].
  - destruct (vs !! j) as [v|] eqn:Hj; [|done].
    destruct (vertices_at vs l) as [q|]; [|done].
    intros [= <-]. rewrite fmap_cons.
    by rewrite (stable_lookup obj vs Hstable j v Hj), (IH q eq_refl).
Qed.

Section DijkstrasSound.
Context {X Y W : Type} `{Heapq}.
Variable obj : ref → Vertex.
Variable f : @oracle X Y W.
Variable np_random_seed : W → W.
Variable vs : list ref.
Variables st gl : ref.
Variable nm : string.
Variable g : ref → ref → @oracle X Y W → W → (Z * list X * list Y) * W.
Variable tc : ref → ref → pyval.
Hypothesis Hstable : stable_indices obj vs.
Hypothesis Hclosed : closed_under_neighbors obj vs.
Hypothesis Hst : st ∈ vs.
Hypothesis Hgl : gl ∈ vs.
Hypothesis Hnonneg : nonneg_evaluator obj f vs g.

#[local] Abbreviation state := (@state X Y W _).
#[local] Abbreviation step := (step obj f).
#[local] Abbreviation for_step := (for_step obj f).
#[local] Abbreviation while_step := (while_step obj).
#[local] Abbreviation safe := (safe obj vs st gl nm g tc).
#[local] Abbreviation params := (search_params vs st gl nm g tc).
#[local] Abbreviation expl := (expl obj).
#[local] Abbreviation initial := (initial vs st).
#[local] Abbreviation popped := (popped obj).
#[local] Abbreviation run := (Dijkstras_run obj f np_random_seed).

(** The predecessor links lead from [v] back to the start along edges
    of the graph, through explored vertices, without repetition. *)
Definition linked (ex : list bool) (pv : list (option nat)) (v : ref)
  : Prop :=
  ∃ d, tree_path obj vs st (λ _ _, 0%Z) ex pv v d.

#[local] Instance expl_decision (s : state) v : Decision (expl s v).
Proof. unfold expl. apply _. Defined.

(** [v] is explored or queued. *)
Definition seen (s : state) (v : ref) : Prop :=
  expl s v ∨ ∃ c, (c, v) ∈ heap_items (to_explore s).

(** The invariant of the search once the start is explored; it does not
    mention what the evaluator answered. *)
Record tree (s : state) : Prop := {
  tree_start : expl s st;
  tree_goal : ¬ expl s gl;
  tree_heap_nonneg : ∀ c v, (c, v) ∈ heap_items (to_explore s) → (0 ≤ c)%Z;
  tree_heap_min : ∀ c v, (c, v) ∈ heap_items (to_explore s) →
      ¬ expl s v → ∃ m, min_cost s !! index (obj v) = Some (Fin m);
  tree_min_cost : ∀ v m, v ∈ vs → ¬ expl s v →
      min_cost s !! index (obj v) = Some (Fin m) →
      (∃ c, (c, v) ∈ heap_items (to_explore s)) ∧
      ∃ u, u ∈ vs ∧ expl s u ∧
           prev s !! index (obj v) = Some (Some (index (obj u))) ∧
           v ∈ neighbors (obj u);
  tree_explored : ∀ v, v ∈ vs → expl s v →
      linked (explored s) (prev s) v;
  tree_edges : ∀ u v, u ∈ vs → expl s u → v ∈ neighbors (obj u) →
      pending s u v ∨ seen s v;
  tree_for : ∀ best_cost current todo,
      ctl s = AtFor best_cost current todo → (0 ≤ best_cost)%Z
}.

Lemma seen_mono (s s' : state) v :
  (∀ x, expl s x → expl s' x) →
  (∀ c x, (c, x) ∈ heap_items (to_explore s) →
          expl s' x ∨ ∃ c', (c', x) ∈ heap_items (to_explore s')) →
  seen s v → seen s' v.
Proof.
  intros Hex Hheap [Hv|(c & Hin)]; [left; by apply Hex|].
  destruct (Hheap c v Hin) as [?|?]; [by left|by right].
Qed.

(** Popping an unexplored vertex: its links lead back to the start. *)
Lemma pop_linked (s : state) c v h' :
  safe s → tree s ∨ initial s →
  heappop (to_explore s) = Some ((c, v), h') →
  explored s !! index (obj v) = Some false →
  linked (<[index (obj v):=true]> (explored s)) (prev s) v ∧ (0 ≤ c)%Z.
Proof.
  intros Hsafe Hinv Hpop Hex.
  apply heappop_Some in Hpop as [Hperm _].
  assert ((c, v) ∈ heap_items (to_explore s)) as Hin
    by (rewrite Hperm; apply list_elem_of_here).
  destruct (safe_heap _ _ _ _ _ _ _ s Hsafe c v Hin) as [Hv _].
  assert (¬ expl s v) as Hnex by (unfold expl; congruence).
  destruct Hinv as [Htree|Hini].
  - split; [|by apply (tree_heap_nonneg s Htree c v)].
    destruct (tree_heap_min s Htree c v Hin Hnex) as (m & Hm).
    destruct (tree_min_cost s Htree v m Hv Hnex Hm)
      as (_ & u & Hu & Hexu & Hpv & Hedge).
    destruct (tree_explored s Htree u Hu Hexu) as (d & Htp).
    exists (d + 0)%Z.
    by apply (tree_path_extend obj vs st Hstable (λ _ _, 0%Z) _ _ u v d).
  - rewrite (initial_heap _ _ s Hini) in Hin.
    apply list_elem_of_singleton in Hin. injection Hin as -> ->.
    split; [|done]. exists 0%Z.
    exists [index (obj st)], [st]. repeat split; try done.
    + apply chain_root. rewrite (initial_prev _ _ s Hini).
      apply lookup_replicate_2. by apply (index_lt obj vs Hstable).
    + repeat constructor. apply list_lookup_insert_eq.
      by eapply lookup_lt_Some.
    + apply NoDup_singleton.
    + simpl. by rewrite (index_lookup obj vs Hstable st Hst).
Qed.

Lemma tree_pop_stale (s : state) c v h' :
  tree s → ctl s = AtWhile →
  heap_items (to_explore s) ≡ₚ (c, v) :: heap_items h' →
  expl s v →
  tree (State (self_params s) (explored s) (min_cost s) (prev s) h'
          (i s) (exe s) (world s) AtWhile).
Proof.
  intros Htree Hctl Hperm Hv.
  assert (∀ c' x, (c', x) ∈ heap_items h' →
                  (c', x) ∈ heap_items (to_explore s)) as Hsub.
  { intros c' x Hx. rewrite Hperm. by apply list_elem_of_further. }
  assert (∀ c' x, (c', x) ∈ heap_items (to_explore s) →
                  x = v ∨ (c', x) ∈ heap_items h') as Hrest.
  { intros c' x Hx. rewrite Hperm in Hx.
    apply elem_of_cons in Hx as [[= -> ->]|?]; auto. }
  constructor; unfold expl in *; simpl.
  - apply Htree.
  - apply Htree.
  - intros c' x Hx. apply (tree_heap_nonneg s Htree c' x), Hsub, Hx.
  - intros c' x Hx. apply (tree_heap_min s Htree c' x), Hsub, Hx.
  - intros x m Hx Hnex Hm.
    destruct (tree_min_cost s Htree x m Hx Hnex Hm) as [[c' Hin] Hu].
    split; [|done]. exists c'. destruct (Hrest _ _ Hin) as [->|?]; done.
  - apply Htree.
  - intros u x Hu Hexu Hedge. right.
    destruct (tree_edges s Htree u x Hu Hexu Hedge) as [Hp|Hok].
    + unfold pending in Hp. by rewrite Hctl in Hp.
    + revert Hok. apply seen_mono; [done|]. simpl.
      intros c' y Hy. destruct (Hrest _ _ Hy) as [->|?]; eauto.
  - done.
Qed.

Lemma tree_pop_fresh (s : state) c v h' :
  safe s → tree s ∨ initial s → ctl s = AtWhile →
  heappop (to_explore s) = Some ((c, v), h') →
  explored s !! index (obj v) = Some false →
  index (obj v) ≠ index (obj gl) →
  tree (set_ctl (popped s h' v) (AtFor c v (neighbors (obj v)))).
Proof.
  intros Hsafe Hinv Hctl Hpop Hlk Hng.
  destruct (pop_linked s c v h' Hsafe Hinv Hpop Hlk) as [Hlinked Hc].
  apply heappop_Some in Hpop as [Hperm Hmin].
  assert ((c, v) ∈ heap_items (to_explore s)) as Hin
    by (rewrite Hperm; apply list_elem_of_here).
  destruct (safe_heap _ _ _ _ _ _ _ s Hsafe c v Hin) as [Hv _].
  assert (∀ c' x, (c', x) ∈ heap_items h' →
                  (c', x) ∈ heap_items (to_explore s)) as Hsub.
  { intros c' x Hx. rewrite Hperm. by apply list_elem_of_further. }
  assert (∀ c' x, (c', x) ∈ heap_items (to_explore s) →
                  x = v ∨ (c', x) ∈ heap_items h') as Hrest.
  { intros c' x Hx. rewrite Hperm in Hx.
    apply elem_of_cons in Hx as [[= -> ->]|?]; auto. }
  assert (<[index (obj v):=true]> (explored s) !! index (obj v)
          = Some true) as Hnew.
  { apply list_lookup_insert_eq. by eapply lookup_lt_Some. }
  destruct Hinv as [Htree|Hini].
  - constructor; unfold expl; simpl.
    + apply expl_insert_mono, Htree.
    + rewrite list_lookup_insert_ne by done. apply Htree.
    + intros c' x Hx. apply (tree_heap_nonneg s Htree c' x), Hsub, Hx.
    + intros c' x Hx Hnex. apply (tree_heap_min s Htree c' x);
        [by apply Hsub|].
      intros Hex. by apply Hnex, expl_insert_mono.
    + intros x m Hx Hnex Hm.
      assert (¬ expl s x) as Hnex'
        by (intros Hex; by apply Hnex, expl_insert_mono).
      destruct (tree_min_cost s Htree x m Hx Hnex' Hm)
        as ([c' Hmx] & u & Hu & Hexu & Hrest').
      split.
      * exists c'. destruct (Hrest _ _ Hmx) as [->|?]; [|done].
        by destruct Hnex.
      * exists u. split; [done|]. split; [|done].
        by apply expl_insert_mono.
    + intros x Hx Hex. apply expl_insert in Hex as [Hex|[Heq _]].
      * destruct (tree_explored s Htree x Hx Hex) as (d & Ht).
        exists d. by apply tree_path_explored.
      * by apply (index_inj obj vs Hstable) in Heq as ->.
    + intros u x Hu Hex Hedge.
      destruct (decide (u = v)) as [->|Hne]; [left; by split|].
      right. apply expl_insert in Hex as [Hex|[Heq _]].
      * destruct (tree_edges s Htree u x Hu Hex Hedge) as [Hp|Hok].
        -- unfold pending in Hp. by rewrite Hctl in Hp.
        -- revert Hok. apply seen_mono.
           ++ intros y. unfold expl. simpl. apply expl_insert_mono.
           ++ simpl. intros c' y Hy.
              destruct (Hrest _ _ Hy) as [->|?]; [by left|right; eauto].
      * by apply (index_inj obj vs Hstable) in Heq.
    + by intros ? ? ? [= <- <- <-].
  - constructor; unfold expl; simpl.
    + rewrite (initial_heap _ _ s Hini) in Hin.
      apply list_elem_of_singleton in Hin. by injection Hin as -> ->.
    + rewrite list_lookup_insert_ne by done.
      rewrite (initial_explored _ _ s Hini).
      intros [[=] _]%lookup_replicate.
    + intros c' x Hx%Hsub. rewrite (initial_heap _ _ s Hini) in Hx.
      apply list_elem_of_singleton in Hx. by injection Hx as -> ->.
    + intros c' x Hx. exfalso.
      assert (length (heap_items (to_explore s)) =
              S (length (heap_items h'))) as Hlen by (by rewrite Hperm).
      rewrite (initial_heap _ _ s Hini) in Hlen.
      destruct (heap_items h'); [by apply elem_of_nil in Hx|done].
    + intros x m Hx _. rewrite (initial_min_cost _ _ s Hini).
      by intros [[=] _]%lookup_replicate.
    + intros x Hx Hex. apply expl_insert in Hex as [Hex|[Heq _]].
      * rewrite (initial_explored _ _ s Hini) in Hex.
        by apply lookup_replicate in Hex as [[=] _].
      * by apply (index_inj obj vs Hstable) in Heq as ->.
    + intros u x Hu Hex Hedge. left.
      apply expl_insert in Hex as [Hex|[Heq _]].
      * rewrite (initial_explored _ _ s Hini) in Hex.
        by apply lookup_replicate in Hex as [[=] _].
      * by apply (index_inj obj vs Hstable) in Heq as ->.
    + by intros ? ? ? [= <- <- <-].
Qed.

Lemma tree_for_done (s : state) best_cost current :
  tree s → ctl s = AtFor best_cost current [] → tree (set_ctl s AtWhile).
Proof.
  intros Htree Hctl. constructor; unfold expl; simpl; try apply Htree.
  - intros u x Hu Hex Hedge. right.
    destruct (tree_edges s Htree u x Hu Hex Hedge) as [Hp|Hok]; [|done].
    unfold pending in Hp. rewrite Hctl in Hp.
    destruct Hp as [_ Hp]. by apply elem_of_nil in Hp.
  - done.
Qed.

Lemma tree_edges_for (s s' : state) best_cost current nb todo :
  ctl s = AtFor best_cost current (nb :: todo) →
  ctl s' = AtFor best_cost current todo →
  (∀ x, expl s x → expl s' x) →
  (∀ c x, (c, x) ∈ heap_items (to_explore s) →
          (c, x) ∈ heap_items (to_explore s')) →
  seen s' nb →
  ∀ u x, pending s u x ∨ seen s x → pending s' u x ∨ seen s' x.
Proof.
  intros Hctl Hctl' Hex Hheap Hnb u x [Hp|Hok].
  - unfold pending in *. rewrite Hctl in Hp. rewrite Hctl'.
    destruct Hp as [-> [->|Hx]%elem_of_cons]; [by right|by left].
  - right. revert Hok. apply seen_mono; [done|]. eauto.
Qed.

(** The invariant across one iteration of the for loop. *)
Lemma tree_for_step (s : state) best_cost current nb todo :
  safe s → tree s → ctl s = AtFor best_cost current (nb :: todo) →
  tree (for_step s best_cost current nb todo).
Proof.
  intros Hsafe Htree Hctl.
  destruct (safe_for _ _ _ _ _ _ _ s Hsafe _ _ _ Hctl)
    as (Hcur & _ & Hexc & done & Hdone).
  assert (nb ∈ neighbors (obj current)) as Hnb.
  { rewrite Hdone. apply elem_of_app. right. apply list_elem_of_here. }
  assert (nb ∈ vs) as Hnbv by (by eapply neighbor_in).
  pose proof (tree_for s Htree _ _ _ Hctl) as Hbest.
  pose proof (Hnonneg current nb (world s) Hcur Hnb) as Hpos.
  pose proof (index_lt obj vs Hstable nb Hnbv) as Hlt.
  pose proof (safe_explored _ _ _ _ _ _ _ s Hsafe) as Hlex.
  pose proof (safe_min_cost _ _ _ _ _ _ _ s Hsafe) as Hlmc.
  pose proof (safe_prev _ _ _ _ _ _ _ s Hsafe) as Hlpv.
  unfold for_step, distance.
  rewrite (safe_params _ _ _ _ _ _ _ s Hsafe). simpl.
  destruct (g current nb f (world s)) as [[[cost xs] ys] w'] eqn:Hg.
  simpl in Hpos. rewrite bool_decide_eq_true_2 by done.
  destruct (explored s !! index (obj nb)) as [[|]|] eqn:Hlk;
    [| |apply lookup_ge_None in Hlk; lia].
  { (* the neighbour is explored already *)
    match goal with
    | |- tree ?s' =>
        pose proof (tree_edges_for s s' best_cost current nb todo Hctl
                      eq_refl) as Hedges
    end.
    constructor; unfold expl; simpl; try apply Htree.
    - intros u x Hu Hex Hedge.
      apply Hedges; [done|done|by left|].
      by apply (tree_edges s Htree).
    - by intros ? ? ? [= <- <- <-]. }
  destruct (min_cost s !! index (obj nb)) as [m|] eqn:Hm;
    [|apply lookup_ge_None in Hm; lia].
  assert (¬ expl s nb) as Hnex by (unfold expl; congruence).
  destruct (cost_lt (best_cost + cost) m) eqn:Hlt'.
  - (* relaxation *)
    assert (∀ c x, (c, x) ∈ heap_items (to_explore s) →
              (c, x) ∈ heap_items
                (heappush (to_explore s) ((best_cost + cost)%Z, nb)))
      as Hgrow.
    { intros c x Hx. rewrite heappush_items.
      by apply list_elem_of_further. }
    assert (((best_cost + cost)%Z, nb) ∈
              heap_items
                (heappush (to_explore s) ((best_cost + cost)%Z, nb)))
      as Hhere.
    { rewrite heappush_items. apply list_elem_of_here. }
    match goal with
    | |- tree ?s' =>
        pose proof (tree_edges_for s s' best_cost current nb todo Hctl
                      eq_refl) as Hedges
    end.
    constructor; unfold expl; simpl; try apply Htree.
    + intros c x. rewrite heappush_items.
      intros [[= -> ->]|Hx]%elem_of_cons;
        [lia|by apply (tree_heap_nonneg s Htree c x)].
    + intros c x. rewrite heappush_items.
      intros [[= -> ->]|Hx]%elem_of_cons Hnx.
      * exists (best_cost + cost)%Z. apply list_lookup_insert_eq. lia.
      * destruct (tree_heap_min s Htree c x Hx Hnx) as (m' & Hm').
        destruct (decide (index (obj nb) = index (obj x))) as [Heq|Hne].
        -- exists (best_cost + cost)%Z.
           rewrite <-Heq. apply list_lookup_insert_eq. lia.
        -- exists m'. by rewrite list_lookup_insert_ne.
    + intros x m' Hx Hnx.
      destruct (decide (index (obj nb) = index (obj x))) as [Heq|Hne].
      * apply (index_inj obj vs Hstable) in Heq as <-; [|done..].
        intros _. split; [by eexists|].
        exists current.
        split; [done|]. split; [done|].
        split; [apply list_lookup_insert_eq; lia|]. done.
      * rewrite !list_lookup_insert_ne by done. intros Hm'.
        destruct (tree_min_cost s Htree x m' Hx Hnx Hm') as [[c' Hin] Hu].
        split; [exists c'; by apply Hgrow|done].
    + intros x Hx Hex.
      destruct (tree_explored s Htree x Hx Hex) as (d & Ht).
      exists d. by apply tree_path_prev.
    + intros u x Hu Hex Hedge.
      apply Hedges; [done|done| |by apply (tree_edges s Htree)].
      right. by eexists.
    + by intros ? ? ? [= <- <- <-].
  - (* no improvement *)
    apply cost_lt_false in Hlt' as (c & -> & Hle).
    match goal with
    | |- tree ?s' =>
        pose proof (tree_edges_for s s' best_cost current nb todo Hctl
                      eq_refl) as Hedges
    end.
    constructor; unfold expl; simpl; try apply Htree.
    + intros u x Hu Hex Hedge.
      apply Hedges; [done|done| |by apply (tree_edges s Htree)].
      right. by destruct (tree_min_cost s Htree nb c Hnbv Hnex Hm) as [Hin _].
    + by intros ? ? ? [= <- <- <-].
Qed.

(** The invariant across any step that keeps the run going. *)
Lemma tree_step (s : state) :
  safe s → tree s ∨ initial s → running s → running (step s) →
  tree (step s) ∨ initial (step s).
Proof.
  intros Hsafe Hinv Hrun Hrun'. left. revert Hrun'. unfold step.
  assert (ctl s = AtWhile →
          running (while_step s) → tree (while_step s)) as Hwhile.
  { intros Hctl. unfold while_step.
    destruct (heappop (to_explore s)) as [[[c v] h']|] eqn:Hpop;
      [|by unfold running].
    pose proof Hpop as [Hperm Hmin]%heappop_Some.
    destruct (explored s !! index (obj v)) as [[|]|] eqn:Hlk;
      [| |by unfold running].
    - intros _. destruct Hinv as [Htree|Hini].
      + by apply (tree_pop_stale s c v h').
      + rewrite (initial_explored _ _ s Hini) in Hlk.
        by apply lookup_replicate in Hlk as [[=] _].
    - assert (goal (self_params s) = Some gl) as ->
        by (by rewrite (safe_params _ _ _ _ _ _ _ s Hsafe)).
      case_bool_decide as Hg.
      + intros Hr. by apply found_goal_not_running in Hr.
      + intros _. by apply (tree_pop_fresh s c v h'). }
  destruct (ctl s) as [|best current [|nb todo]| |r] eqn:Hctl.
  - by apply Hwhile.
  - intros _. destruct Hinv as [Htree|Hini].
    + by eapply tree_for_done.
    + by rewrite (initial_ctl _ _ s Hini) in Hctl.
  - intros _. destruct Hinv as [Htree|Hini].
    + by apply tree_for_step.
    + by rewrite (initial_ctl _ _ s Hini) in Hctl.
  - by unfold running in Hrun; rewrite Hctl in Hrun.
  - by unfold running in Hrun; rewrite Hctl in Hrun.
Qed.

(** While a vertex in reach is unexplored, something is queued. *)
Lemma tree_frontier (s : state) t :
  tree s → ctl s = AtWhile → reachable obj st t → ¬ expl s t →
  heap_items (to_explore s) ≠ [].
Proof.
  intros Htree Hctl [q Hq] Ht.
  assert (nonneg_weights obj vs (λ _ _, 0%Z)) as Hzero.
  { unfold nonneg_weights. apply Forall_forall. intros u _.
    by apply Forall_forall. }
  destruct (walk_crossing obj vs Hclosed (λ _ _, 0%Z) (expl s) st t q Hzero _
              Hst Hq (tree_start s Htree) Ht)
    as (q' & a & b & Hq' & Ha & Hb & Hain & Hedge & _).
  destruct (tree_edges s Htree a b Hain Ha Hedge) as [Hpend|[Hexp|[c Hin]]].
  - unfold pending in Hpend. by rewrite Hctl in Hpend.
  - done.
  - intros Hnil. rewrite Hnil in Hin. by apply elem_of_nil in Hin.
Qed.

(** What popping the goal leads to: the path along the predecessor
    links is rebuilt, its ground-truth cost is summed up, and the popped
    cost is returned with the path. *)
Lemma tree_found_goal (s : state) c h' :
  safe s → tree s ∨ initial s →
  heappop (to_explore s) = Some ((c, gl), h') →
  explored s !! index (obj gl) = Some false →
  ∃ p, walk_from_to obj st gl p ∧ NoDup p ∧ (0 ≤ c)%Z ∧
       found_goal obj (popped s h' gl) c gl =
         match true_cost_of_path tc 0 p with
         | Raise e => Finished (Raise e)
         | Return _ => Finished (Return (Fin c, p))
         end.
Proof.
  intros Hsafe Hinv Hpop Hlk.
  destruct (pop_linked s c gl h' Hsafe Hinv Hpop Hlk)
    as [(d & l & p & Hchain & Hall & Hnd & Hvs & Hwalk & _) Hc].
  exists p. split; [done|]. split; [|split; [done|]].
  - apply (NoDup_fmap_1 (λ v, index (obj v))).
    by rewrite (vertices_at_indices obj vs l p Hstable Hvs).
  - unfold found_goal, popped. simpl.
    rewrite (backtrack_indices_chain _ _ l Hchain Hnd).
    rewrite (safe_params _ _ _ _ _ _ _ s Hsafe). simpl. rewrite Hvs.
    by destruct (true_cost_of_path tc 0 p).
Qed.

(** With the goal in reach the search pops it after finitely many
    steps, whatever the evaluator answered on the way. *)
Lemma sound_run w :
  reachable obj st gl →
  ∃ k c p,
    walk_from_to obj st gl p ∧ NoDup p ∧ (0 ≤ c)%Z ∧
    ∀ n, k < n →
      Dijkstras_run_algorithm_on_f obj f np_random_seed n params w =
      match true_cost_of_path tc 0 p with
      | Raise e => Some (Raise e)
      | Return _ => Some (Return (exe (run k params w), (Fin c, p)))
      end.
Proof.
  intros Hreach.
  destruct (safe_run_ends obj f vs st gl nm g tc Hstable Hclosed Hgl Hnonneg
              (λ s, tree s ∨ initial s)
              (λ s Hs Hi Hr Hr', tree_step s Hs Hi Hr Hr')
              (init np_random_seed params w)
              (init_safe obj np_random_seed vs st gl nm g tc Hst w)
              (or_intror (init_initial np_random_seed vs st gl nm g tc w)))
    as (k & Hsafe & Hinv & Hrun & Hend); [by rewrite init_search|].
  fold (run k params w) in Hsafe, Hinv, Hrun, Hend.
  destruct (safe_step obj f vs st gl nm g tc Hstable Hclosed Hgl Hnonneg
              _ Hsafe Hrun)
    as [(_ & Hrun' & _)|[(Hc & Hnil & Hs)|(c & h' & Hc & Hpop & Hex & Hs)]].
  - done.
  - exfalso. destruct Hinv as [Htree|Hini].
    + by apply (tree_frontier _ gl Htree Hc Hreach (tree_goal _ Htree)).
    + by rewrite (initial_heap _ _ _ Hini) in Hnil.
  - destruct (tree_found_goal _ c h' Hsafe Hinv Hpop Hex)
      as (p & Hwalk & Hnd & Hpos & Hfound).
    exists k, c, p. split; [done|]. split; [done|]. split; [done|].
    intros n Hn. unfold Dijkstras_run_algorithm_on_f.
    rewrite (run_ended obj f np_random_seed (S k) n)
      by (rewrite ?run_S; done || lia).
    rewrite run_S, Hs, Hfound. simpl.
    by destruct (true_cost_of_path tc 0 p).
Qed.
End DijkstrasSound.


(** An evaluator whose answer depends on the world: the weight of the
    edge plus the number of queries made so far. *)
Definition ex_drifting_cost_func (u v : ref) (f : @oracle (ref * ref) Z nat)
  (w : nat) : (Z * list (ref * ref) * list Z) * nat :=
  let '(y, w') := f (u, v) w in ((y + Z.of_nat w)%Z, [(u, v)], [y], w').




(** ** The search ends within a number of steps fixed by the graph *)

Lemma unexplored_weight_init obj l :
  unexplored_weight obj (replicate (length l) false) l =
  2 * edge_count obj l + 2 * length l.
Proof.
  unfold unexplored_weight, edge_count, vertex_weight.
  induction l as [|v l IH]; cbn in *; [done|]. rewrite IH. lia.
Qed.

Section DijkstrasTermination.
Context {X Y W : Type} `{Heapq}.
Variable obj : ref → Vertex.
Variable f : @oracle X Y W.
Variable np_random_seed : W → W.
Variable vs : list ref.
Variables st gl : ref.
Variable nm : string.
Variable g : ref → ref → @oracle X Y W → W → (Z * list X * list Y) * W.
Variable tc : ref → ref → pyval.
Hypothesis Hstable : stable_indices obj vs.
Hypothesis Hclosed : closed_under_neighbors obj vs.
Hypothesis Hst : st ∈ vs.
Hypothesis Hgl : gl ∈ vs.
Hypothesis Hnonneg : nonneg_evaluator obj f vs g.

#[local] Abbreviation state := (@state X Y W _).
#[local] Abbreviation step := (step obj f).
#[local] Abbreviation safe := (safe obj vs st gl nm g tc).
#[local] Abbreviation tree := (tree obj vs st gl).
#[local] Abbreviation initial := (initial vs st).
#[local] Abbreviation params := (search_params vs st gl nm g tc).
#[local] Abbreviation run := (Dijkstras_run obj f np_random_seed).

#[local] Instance running_decision (s : state) : Decision (running s).
Proof. unfold running. destruct (ctl s); apply _. Defined.

(** One step for the first loop test, two per edge, two per vertex. *)
Definition step_bound : nat := 1 + 2 * edge_count obj vs + 2 * length vs.

Lemma running_bound n w :
  running (run n params w) →
  safe (run n params w) ∧
  (tree (run n params w) ∨ initial (run n params w)) ∧
  measure obj (run n params w) + n ≤ step_bound.
Proof.
  induction n as [|n IH]; intros Hrun.
  - unfold Dijkstras_run. simpl.
    split; [by apply init_safe|]. split; [right; apply init_initial|].
    rewrite init_search. unfold measure, step_bound. simpl.
    rewrite heap_singleton_items, unexplored_weight_init. simpl. lia.
  - assert (running (run n params w)) as Hrun0
      by (apply (run_running_before obj f np_random_seed n (S n));
          [done|lia]).
    destruct (IH Hrun0) as (Hsafe & Hinv & Hm).
    rewrite run_S in Hrun |- *.
    destruct (safe_step obj f vs st gl nm g tc Hstable Hclosed Hgl Hnonneg
                _ Hsafe Hrun0)
      as [(Hsafe' & _ & Hlt)|[(_ & _ & Hs)|(c & h' & _ & _ & _ & Hs)]].
    + split; [done|]. split; [|lia].
      by apply (tree_step obj f vs st gl nm g tc Hstable Hclosed Hst Hnonneg).
    + rewrite Hs in Hrun. by unfold running in Hrun.
    + rewrite Hs in Hrun. by apply found_goal_not_running in Hrun.
Qed.

(** A run that has ended was still going before one of its steps. *)
Lemma last_running_step n w :
  running (run 0 params w) → ¬ running (run n params w) →
  ∃ k, k < n ∧ running (run k params w) ∧ ¬ running (run (S k) params w).
Proof.
  intros H0. induction n as [|n IH]; intros Hn; [done|].
  destruct (decide (running (run n params w))) as [Hr|Hr].
  - exists n. split; [lia|done].
  - destruct (IH Hr) as (k & Hk & Hrk). exists k. split; [lia|done].
Qed.

Lemma bounded_run w :
  ∃ r, ∀ n, step_bound < n →
    Dijkstras_run_algorithm_on_f obj f np_random_seed n params w = Some r.
Proof.
  assert (¬ running (run (S step_bound) params w)) as Hend.
  { intros Hrun. apply running_bound in Hrun as (_ & _ & Hm). lia. }
  destruct (last_running_step (S step_bound) w) as (k & Hk & Hrun & Hstop);
    [|done|].
  { unfold Dijkstras_run. simpl. by rewrite init_search. }
  destruct (running_bound k w Hrun) as (Hsafe & Hinv & _).
  assert (∃ r, ctl (run (S k) params w) = Finished r) as [r Hr].
  { rewrite run_S in Hstop |- *.
    destruct (safe_step obj f vs st gl nm g tc Hstable Hclosed Hgl Hnonneg
                _ Hsafe Hrun)
      as [(_ & Hrun' & _)|[(_ & _ & Hs)|(c & h' & _ & Hpop & Hex & Hs)]].
    - done.
    - rewrite Hs. by eexists.
    - destruct (tree_found_goal obj vs st gl nm g tc Hstable Hst _ c h'
                  Hsafe Hinv Hpop Hex) as (p & _ & _ & _ & Hfound).
      rewrite Hs, Hfound. simpl.
      destruct (true_cost_of_path tc 0 p); by eexists. }
  exists (match r with
          | Return min_cost => Return (exe (run (S k) params w), min_cost)
          | Raise e => Raise e
          end).
  intros n Hn. unfold Dijkstras_run_algorithm_on_f.
  rewrite (run_ended obj f np_random_seed (S k) n) by (done || lia).
  rewrite Hr. by destruct r.
Qed.
End DijkstrasTermination.

(** X19. On a well-formed graph with an evaluator that returns
    non-negative costs, the search ends, with a value or an exception,
    within [1 + 2 * edges + 2 * vertices] steps of its loops, whether
    the goal is in reach or not and whatever [true_cost] is; from then on
    the result is fixed. *)
Theorem Dijkstras_ends_within_step_bound {X Y W : Type} `{Heapq}
  (obj : ref → Vertex) (f : @oracle X Y W) (np_random_seed : W → W)
  (vs : list ref) (st gl : ref) (nm : string)
  (g : ref → ref → @oracle X Y W → W → (Z * list X * list Y) * W)
  (tc : ref → ref → pyval) (w : W) :
  stable_indices obj vs → closed_under_neighbors obj vs →
  st ∈ vs → gl ∈ vs → nonneg_evaluator obj f vs g →
  ∃ r, ∀ n, 1 + 2 * edge_count obj vs + 2 * length vs < n →
    Dijkstras_run_algorithm_on_f obj f np_random_seed n
      (search_params vs st gl nm g tc) w = Some r.
Proof.
  intros Hstable Hclosed Hst Hgl Hnonneg.
  exact (bounded_run obj f np_random_seed vs st gl nm g tc Hstable Hclosed
           Hst Hgl Hnonneg w).
Qed.

Lemma Dijkstras_ends_within_step_bound_witness :
  ∃ r, ∀ n, 1 + 2 * edge_count ex_obj ex_vertices + 2 * length ex_vertices < n →
    Dijkstras_run_algorithm_on_f (H := list_heapq) ex_obj ex_oracle id n
      (search_params ex_vertices 2 0 "Dijkstras" ex_drifting_cost_func
         (λ _ _, PyNum 0)) 0 = Some r.
Proof.
  apply (Dijkstras_ends_within_step_bound (H := list_heapq) ex_obj ex_oracle
           id ex_vertices 2 0 "Dijkstras" ex_drifting_cost_func
           (λ _ _, PyNum 0) 0).
  - reflexivity.
  - decide_by_compute.
  - decide_by_compute.
  - decide_by_compute.
  - intros u v w' Hu Hv. simpl. unfold ex_wt. repeat case_match; lia.
Defined.

(** ** [OptRightScan] moves right by [x_grid_gap] *)

Lemma OptRightScan_next_shape {F : Type} `{!PyNumber F}
  (p : OptRightScan_params F) (e : exe_path (list F) F) (x' : list F) :
  OptRightScan_get_next_x p e = Return (Some x') →
  (length (path_x e) = 0 ∧ x' = ors_init_x p) ∨
  (∃ a r, last (path_x e) = Some (a :: r) ∧
          x' = [py_add a (ors_x_grid_gap p)]).
Proof.
  unfold OptRightScan_get_next_x. intros Hn.
  case_bool_decide as Hlen.
  - left. split; [done|]. repeat case_match; by simplify_eq.
  - right. destruct (last (path_x e)) as [[|a r]|]; [done| |done].
    exists a, r. split; [done|]. repeat case_match; by simplify_eq.
Qed.

(** X20. The inputs [OptRightScan] queries: the first is [init_x], and
    each later one is the one-element list holding the first entry of
    the input before it plus [x_grid_gap], the sum being the one the
    numbers' own addition gives. *)
Theorem OptRightScan_steps_right {F W : Type} `{!PyNumber F}
  (f : list F → W → F * W) (p : OptRightScan_params F) (w : W) (n : nat) :
  let e := pull_exe (Algorithm_run_algorithm_on_f f n p w) in
  (∀ x, path_x e !! 0 = Some x → x = ors_init_x p) ∧
  (∀ k x x', path_x e !! k = Some x → path_x e !! S k = Some x' →
     ∃ a r, x = a :: r ∧ x' = [py_add a (ors_x_grid_gap p)]).
Proof.
  intros e. split.
  - intros x Hx.
    pose proof (pull_run_replayable f p w n 0 x Hx) as Hre.
    apply OptRightScan_next_shape in Hre as [[_ ->]|(a & r & Hl & _)];
      [done|].
    by rewrite take_0 in Hl.
  - intros k x x' Hx Hx'.
    pose proof (pull_run_replayable f p w n (S k) x' Hx') as Hre.
    apply OptRightScan_next_shape in Hre as [[Hlen _]|(a & r & Hl & ->)].
    + simpl in Hlen. apply lookup_lt_Some in Hx'.
      rewrite length_take in Hlen. fold e in Hlen. lia.
    + simpl in Hl. fold e in Hl.
      rewrite (take_S_r _ _ _ Hx), last_snoc in Hl. injection Hl as ->.
      by exists a, r.
Qed.
